(** * TheMineCheckers: the decision engine of [Code/TheMineCheckers.py]

    A shallow embedding of the board model, the mine set, the move
    generator, the terminal evaluator and the minimax search of the game,
    followed by the properties of the specification that were checked
    against it.

    Conventions.
    - A Python [int] is a [Z]; a board is a list of rows, a row a list of
      cells, a cell is [None] (the source's [0]) or [Some piece].
    - A computation that can raise [IndexError] returns an [option]:
      [None] is the exception.  Python's negative indices are written out
      in [py_index].
    - [float('-inf')], an [int] and [float('inf')] are the three shapes of
      a [score].
    - The mine set is a [gset (Z * Z)].
    - The random module is a list of draws handed to the function that
      consumes them. *)

From stdpp Require Import base option list gmap strings.
From Stdlib Require Import ZArith Lia.

Local Open Scope Z_scope.

(** ** Constants *)

Definition ROWS : Z := 6.
Definition COLS : Z := 5.

(** ** Pieces and boards *)

Inductive Color := RED | BLUE.

#[global] Instance Color_eq_dec : EqDecision Color.
Proof. solve_decision. Defined.

Module Piece.
Record t := make { row : Z; col : Z; color : Color }.
End Piece.

#[global] Instance Piece_eq_dec : EqDecision Piece.t.
Proof. solve_decision. Defined.

Abbreviation cell := (option Piece.t).
Abbreviation board := (list (list cell)).
Abbreviation move := (Z * Z)%type.

(** [isinstance(c, Piece) and c.color == k] *)
Definition is_color (c : cell) (k : Color) : bool :=
  match c with
  | Some p => bool_decide (Piece.color p = k)
  | None => false
  end.

(** ** Python list indexing *)

(** The position that index [i] denotes in a list of length [n]: indices
    [0 .. n-1] count from the front, [-n .. -1] from the back, anything
    else raises [IndexError]. *)
Definition py_index {A} (l : list A) (i : Z) : option nat :=
  let n := Z.of_nat (length l) in
  if decide (0 ≤ i < n) then Some (Z.to_nat i)
  else if decide (- n ≤ i < 0) then Some (Z.to_nat (n + i))
  else None.

(** [l[i]] *)
Definition getitem {A} (l : list A) (i : Z) : option A :=
  k ← py_index l i; l !! k.

(** [l[i] = x] *)
Definition setitem {A} (l : list A) (i : Z) (x : A) : option (list A) :=
  k ← py_index l i; Some (<[k := x]> l).

(** [board[r][c]] *)
Definition board_get (b : board) (r c : Z) : option cell :=
  rw ← getitem b r; getitem rw c.

(** [board[r][c] = x], on a board whose rows are not shared. *)
Definition board_set (b : board) (r c : Z) (x : cell) : option board :=
  rw ← getitem b r; rw' ← setitem rw c x; setitem b r rw'.

(** ** Loops *)

(** [for x in xs: st = body(x, st)] *)
Fixpoint for_each {A S} (xs : list A) (body : A → S → option S) (st : S)
    : option S :=
  match xs with
  | [] => Some st
  | x :: xs' => st' ← body x st; for_each xs' body st'
  end.

(** The outcome of one iteration of a loop that can [break]. *)
Inductive flow (S : Type) := Next (st : S) | Break (st : S).
Arguments Next {S} st.
Arguments Break {S} st.

(** [for x in xs: ...; if cond: break] *)
Fixpoint for_break {A S} (xs : list A) (body : A → S → option (flow S))
    (st : S) : option S :=
  match xs with
  | [] => Some st
  | x :: xs' =>
      f ← body x st;
      match f with
      | Next st' => for_break xs' body st'
      | Break st' => Some st'
      end
  end.

(** [for x in xs: ...; return v]: [Some (Some v)] is a [return v] out of
    the loop, [Some None] is the loop running to its end. *)
Fixpoint for_return {A R} (xs : list A) (body : A → option (option R))
    : option (option R) :=
  match xs with
  | [] => Some None
  | x :: xs' =>
      r ← body x;
      match r with
      | Some v => Some (Some v)
      | None => for_return xs' body
      end
  end.

(** ** Terminal evaluator *)

Definition You_won : string := "You won!".
Definition You_lost : string := "You lost!".

(** [check_win_condition(board)]: one pass over the columns, testing in
    each column row 0 for a red piece and then row [ROWS-1] for a blue
    one. *)
Definition check_win_condition (b : board) : option (option string) :=
  for_return (seqZ 0 COLS) (λ c,
    top ← board_get b 0 c;
    if is_color top RED then Some (Some You_won)
    else
      bottom ← board_get b (ROWS - 1) c;
      if is_color bottom BLUE then Some (Some You_lost)
      else Some None).

(** [sum(isinstance(piece, Piece) and piece.color == k
         for row in board for piece in row)] *)
Definition count_pieces (k : Color) (b : board) : Z :=
  foldr (λ c n, (if is_color c k then 1 else 0) + n) 0 (concat b).

(** [evaluate(board)] *)
Definition evaluate (b : board) : Z :=
  let red_pieces := count_pieces RED b in
  let blue_pieces := count_pieces BLUE b in
  blue_pieces - red_pieces.

(** ** Move generator *)

Definition directions (k : Color) : list (Z * Z) :=
  match k with
  | RED => [(-1, 0); (-1, -1); (-1, 1); (0, -1); (0, 1)]
  | BLUE => [(1, 0); (1, -1); (1, 1); (0, -1); (0, 1)]
  end.

(** [get_valid_moves(piece, board, mines)] *)
Definition get_valid_moves (piece : Piece.t) (b : board)
    (mines : gset (Z * Z)) : option (list move) :=
  for_each (directions (Piece.color piece)) (λ d valid_moves,
    let r := Piece.row piece + d.1 in
    let c := Piece.col piece + d.2 in
    if decide (0 ≤ r < ROWS ∧ 0 ≤ c < COLS ∧ (r, c) ∉ mines) then
      target ← board_get b r c;
      match target with
      | None => Some (valid_moves ++ [(r, c)])
      | Some q =>
          if decide (Piece.color q ≠ Piece.color piece)
          then Some (valid_moves ++ [(r, c)])
          else Some valid_moves
      end
    else Some valid_moves) [].

(** ** Boards used in examples *)

Definition blue_at (r c : Z) : cell := Some (Piece.make r c BLUE).
Definition red_at (r c : Z) : cell := Some (Piece.make r c RED).
Definition empty_row : list cell := [None; None; None; None; None].

(** [create_board()] *)
Definition create_board : board :=
  (λ r,
    (λ c,
      if decide (r = 0) then blue_at r c
      else if decide (r = ROWS - 1) then red_at r c
      else None) <$> seqZ 0 COLS) <$> seqZ 0 ROWS.

(** ** Scores *)

(** The values the search handles: [float('-inf')], an [int] returned by
    [evaluate], [float('inf')]. *)
Inductive score := NegInf | Fin (z : Z) | PosInf.

#[global] Instance score_eq_dec : EqDecision score.
Proof. solve_decision. Defined.

(** [x <= y] *)
Definition score_le (x y : score) : Prop :=
  match x, y with
  | NegInf, _ => True
  | _, PosInf => True
  | Fin a, Fin b => a ≤ b
  | _, _ => False
  end.

(** [x < y] *)
Definition score_lt (x y : score) : Prop :=
  match x, y with
  | PosInf, _ => False
  | _, NegInf => False
  | Fin a, Fin b => a < b
  | _, _ => True
  end.

#[global] Instance score_le_dec x y : Decision (score_le x y).
Proof. destruct x, y; simpl; apply _. Defined.

#[global] Instance score_lt_dec x y : Decision (score_lt x y).
Proof. destruct x, y; simpl; apply _. Defined.

(** [max(x, y)]: [y] when [y > x], else [x]. *)
Definition smax (x y : score) : score := if decide (score_lt x y) then y else x.

(** [min(x, y)]: [y] when [y < x], else [x]. *)
Definition smin (x y : score) : score := if decide (score_lt y x) then y else x.

(** ** Search engine *)

(** The board a move leads to:
    [new_board = [list(r) for r in board]],
    [new_piece = Piece(move[0], move[1], piece.color)],
    [new_board[piece.row][piece.col], new_board[move[0]][move[1]] = 0, new_piece]. *)
Definition apply_move (b : board) (piece : Piece.t) (mv : move) : option board :=
  let new_piece := Piece.make mv.1 mv.2 (Piece.color piece) in
  b1 ← board_set b (Piece.row piece) (Piece.col piece) None;
  board_set b1 mv.1 mv.2 (Some new_piece).

(** [for row in board: for piece in row:
       if isinstance(piece, Piece) and piece.color == k: body] *)
Definition for_pieces {S} (k : Color) (b : board)
    (body : Piece.t → S → option S) (st : S) : option S :=
  for_each b (λ rw st,
    for_each rw (λ c st,
      match c with
      | Some piece =>
          if decide (Piece.color piece = k) then body piece st else Some st
      | None => Some st
      end) st) st.

(** The leaf of [minimax]: the branch taken when
    [depth == 0 or win_message]. *)
Definition leaf_value (b : board) (win_message : option string) : score :=
  if decide (win_message = Some You_won) then NegInf
  else if decide (win_message = Some You_lost) then PosInf
  else Fin (evaluate b).

(** [minimax(board, depth, alpha, beta, maximizing_player, mines)].  The
    state of the loops is [(max_eval, alpha)] on a maximizing ply and
    [(min_eval, beta)] on a minimizing one; [break] leaves the loop over
    the moves of the current piece only. *)
Fixpoint minimax (b : board) (depth : nat) (alpha beta : score)
    (maximizing_player : bool) (mines : gset (Z * Z)) {struct depth}
    : option score :=
  win_message ← check_win_condition b;
  match depth, win_message with
  | S d, None =>
      if maximizing_player then
        fst <$> for_pieces BLUE b (λ piece st,
          moves ← get_valid_moves piece b mines;
          for_break moves (λ mv '(max_eval, alpha),
            new_board ← apply_move b piece mv;
            eval ← minimax new_board d alpha beta false mines;
            let max_eval := smax max_eval eval in
            let alpha := smax alpha eval in
            if decide (score_le beta alpha)
            then Some (Break (max_eval, alpha))
            else Some (Next (max_eval, alpha))) st) (NegInf, alpha)
      else
        fst <$> for_pieces RED b (λ piece st,
          moves ← get_valid_moves piece b mines;
          for_break moves (λ mv '(min_eval, beta),
            new_board ← apply_move b piece mv;
            eval ← minimax new_board d alpha beta true mines;
            let min_eval := smin min_eval eval in
            let beta := smin beta eval in
            if decide (score_le beta alpha)
            then Some (Break (min_eval, beta))
            else Some (Next (min_eval, beta))) st) (PosInf, beta)
  | _, _ => Some (leaf_value b win_message)
  end.

(** The recursion of [minimax] as the specification compares it: the same
    leaves and the same loops, with [alpha], [beta] and the [break]
    removed. *)
Fixpoint minimax_unpruned (b : board) (depth : nat)
    (maximizing_player : bool) (mines : gset (Z * Z)) {struct depth}
    : option score :=
  win_message ← check_win_condition b;
  match depth, win_message with
  | S d, None =>
      if maximizing_player then
        for_pieces BLUE b (λ piece st,
          moves ← get_valid_moves piece b mines;
          for_each moves (λ mv max_eval,
            new_board ← apply_move b piece mv;
            eval ← minimax_unpruned new_board d false mines;
            Some (smax max_eval eval)) st) NegInf
      else
        for_pieces RED b (λ piece st,
          moves ← get_valid_moves piece b mines;
          for_each moves (λ mv min_eval,
            new_board ← apply_move b piece mv;
            eval ← minimax_unpruned new_board d true mines;
            Some (smin min_eval eval)) st) PosInf
  | _, _ => Some (leaf_value b win_message)
  end.

(** The loops of [best_move], for a given evaluation [search] of the board
    a candidate leads to; the state is [(best_eval, best_moves)]. *)
Definition best_moves_with (search : board → option score) (b : board)
    (mines : gset (Z * Z)) : option (score * list (Piece.t * move)) :=
  for_pieces BLUE b (λ piece st,
    moves ← get_valid_moves piece b mines;
    for_each moves (λ mv '(best_eval, best_moves),
      new_board ← apply_move b piece mv;
      eval ← search new_board;
      if decide (score_lt best_eval eval) then Some (eval, [(piece, mv)])
      else if decide (eval = best_eval)
      then Some (best_eval, best_moves ++ [(piece, mv)])
      else Some (best_eval, best_moves)) st) (NegInf, []).

(** [random.choice(seq)] is [seq[randbelow(len(seq))]]; the draw is an
    arbitrary number, reduced into the range [randbelow] answers in. *)
Definition random_choice {A} (draw : nat) (l : list A) : option A :=
  l !! (draw `mod` length l)%nat.

(** [best_move(board, mines)], with the draw [random.choice] makes. *)
Definition best_move (draw : nat) (b : board) (mines : gset (Z * Z))
    : option (option (Piece.t * move)) :=
  '(_, best_moves) ←
    best_moves_with (λ nb, minimax nb 3 NegInf PosInf false mines) b mines;
  match best_moves with
  | [] => Some None
  | _ => Some (random_choice draw best_moves)
  end.

(** [best_move] with the unpruned recursion in the place of [minimax]. *)
Definition best_move_unpruned (draw : nat) (b : board) (mines : gset (Z * Z))
    : option (option (Piece.t * move)) :=
  '(_, best_moves) ←
    best_moves_with (λ nb, minimax_unpruned nb 3 false mines) b mines;
  match best_moves with
  | [] => Some None
  | _ => Some (random_choice draw best_moves)
  end.

(** [find_winning_move(board, mines)] *)
Definition find_winning_move (b : board) (mines : gset (Z * Z))
    : option (option (Piece.t * move)) :=
  for_return b (λ rw,
    for_return rw (λ c,
      match c with
      | Some piece =>
          if decide (Piece.color piece = BLUE) then
            moves ← get_valid_moves piece b mines;
            for_return moves (λ mv,
              if decide (mv.1 = ROWS - 1) then Some (Some (piece, mv))
              else Some None)
          else Some None
      | None => Some None
      end)).

(** ** Mine set *)

(** [random.randint(a, b)]: the draw reduced into [a .. b]. *)
Definition randint (a b : Z) (draw : Z) : Z := a + draw `mod` (b - a + 1).
Arguments randint : simpl never.

(** The [while] loop of [generate_mines].  Every iteration consumes one
    pair of draws (one for the row, one for the column); the result is the
    mine set and the draws left.  [None]: the board raised [IndexError],
    or the loop was still running when the draws ended. *)
Fixpoint generate_mines_loop (b : board) (num_mines : Z)
    (draws : list (Z * Z)) (mines : gset (Z * Z))
    : option (gset (Z * Z) * list (Z * Z)) :=
  if decide (Z.of_nat (size mines) < num_mines) then
    match draws with
    | [] => None
    | (d1, d2) :: draws' =>
        let row := randint 1 (ROWS - 2) d1 in
        let col := randint 0 (COLS - 1) d2 in
        target ← board_get b row col;
        if decide (target = None) then
          if forallb (λ offset, bool_decide ((row, col + offset) ∉ mines))
               [-1; 1]
          then generate_mines_loop b num_mines draws' ({[(row, col)]} ∪ mines)
          else generate_mines_loop b num_mines draws' mines
        else generate_mines_loop b num_mines draws' mines
    end
  else Some (mines, draws).

(** [generate_mines(board, num_mines)] *)
Definition generate_mines (b : board) (num_mines : Z) (draws : list (Z * Z))
    : option (gset (Z * Z) * list (Z * Z)) :=
  generate_mines_loop b num_mines draws ∅.

(** The [while] loop of [shuffle_mines]; [fuel] bounds the number of
    regenerations. *)
Fixpoint shuffle_mines_loop (fuel : nat) (b : board) (mines : gset (Z * Z))
    (new_mines : gset (Z * Z)) (draws : list (Z * Z))
    : option (gset (Z * Z) * list (Z * Z)) :=
  if decide (0 < size (new_mines ∩ mines))%nat then
    match fuel with
    | O => None
    | S fuel' =>
        '(new_mines', draws') ← generate_mines b 4 draws;
        shuffle_mines_loop fuel' b mines new_mines' draws'
    end
  else Some (new_mines, draws).

(** [shuffle_mines(board, mines)].  Each regeneration consumes a draw, so
    the number of draws bounds the number of regenerations. *)
Definition shuffle_mines (b : board) (mines : gset (Z * Z))
    (draws : list (Z * Z)) : option (gset (Z * Z) * list (Z * Z)) :=
  '(new_mines, draws') ← generate_mines b 4 draws;
  shuffle_mines_loop (length draws) b mines new_mines draws'.

(** ** The search with its static evaluations recorded *)

(** [minimax] with a ghost log: every call of [evaluate] records the
    number [ply] of half-moves that separate the evaluated board from the
    board [best_move] was called on, and the board.  The loops carry the
    log next to [(max_eval, alpha)] and [(min_eval, beta)]; nothing else
    differs from [minimax]. *)
Definition leaf_log (b : board) (win_message : option string) (ply : nat)
    : list (nat * board) :=
  if decide (win_message = Some You_won) then []
  else if decide (win_message = Some You_lost) then []
  else [(ply, b)].

Fixpoint minimax_trace (b : board) (depth : nat) (ply : nat)
    (alpha beta : score) (maximizing_player : bool) (mines : gset (Z * Z))
    {struct depth} : option (score * list (nat * board)) :=
  win_message ← check_win_condition b;
  match depth, win_message with
  | S d, None =>
      if maximizing_player then
        (λ st, (st.1.1, st.2)) <$> for_pieces BLUE b (λ piece st,
          moves ← get_valid_moves piece b mines;
          for_break moves (λ mv '(max_eval, alpha, log),
            new_board ← apply_move b piece mv;
            '(eval, log') ←
              minimax_trace new_board d (S ply) alpha beta false mines;
            let max_eval := smax max_eval eval in
            let alpha := smax alpha eval in
            if decide (score_le beta alpha)
            then Some (Break (max_eval, alpha, log ++ log'))
            else Some (Next (max_eval, alpha, log ++ log'))) st)
          (NegInf, alpha, [])
      else
        (λ st, (st.1.1, st.2)) <$> for_pieces RED b (λ piece st,
          moves ← get_valid_moves piece b mines;
          for_break moves (λ mv '(min_eval, beta, log),
            new_board ← apply_move b piece mv;
            '(eval, log') ←
              minimax_trace new_board d (S ply) alpha beta true mines;
            let min_eval := smin min_eval eval in
            let beta := smin beta eval in
            if decide (score_le beta alpha)
            then Some (Break (min_eval, beta, log ++ log'))
            else Some (Next (min_eval, beta, log ++ log'))) st)
          (PosInf, beta, [])
  | _, _ => Some (leaf_value b win_message, leaf_log b win_message ply)
  end.

(** The evaluations [best_move] causes: for every candidate, in the order
    of the loops, the candidate, its score and the log of the call
    [minimax(new_board, 3, -inf, inf, False, mines)].  The candidate's own
    move is the first half-move, so that call starts at ply 1. *)
Definition best_move_trace (b : board) (mines : gset (Z * Z))
    : option (list (Piece.t * move * score * list (nat * board))) :=
  for_pieces BLUE b (λ piece st,
    moves ← get_valid_moves piece b mines;
    for_each moves (λ mv acc,
      new_board ← apply_move b piece mv;
      '(eval, log) ← minimax_trace new_board 3 1 NegInf PosInf false mines;
      Some (acc ++ [(piece, mv, eval, log)])) st) [].

(** ** Well-formed boards *)

(** The shape every board of the program has: [ROWS] rows of [COLS]
    cells. *)
Definition board_shape (b : board) : Prop :=
  length b = Z.to_nat ROWS ∧ ∀ rw, rw ∈ b → length rw = Z.to_nat COLS.

(** Every piece records the cell it stands on, as [Piece.__init__] and
    [Piece.move] maintain. *)
Definition pieces_placed (b : board) : Prop :=
  ∀ (i j : nat) rw piece,
    b !! i = Some rw → rw !! j = Some (Some piece) →
    Piece.row piece = Z.of_nat i ∧ Piece.col piece = Z.of_nat j.

Definition wf_board (b : board) : Prop := board_shape b ∧ pieces_placed b.

(** A checker for [wf_board]. *)
Definition cell_placed (i j : nat) (c : cell) : bool :=
  match c with
  | Some piece =>
      bool_decide (Piece.row piece = Z.of_nat i)
      && bool_decide (Piece.col piece = Z.of_nat j)
  | None => true
  end.

Definition wf_board_check (b : board) : bool :=
  bool_decide (length b = Z.to_nat ROWS)
  && forallb (λ x, bool_decide (length x.2 = Z.to_nat COLS)
                   && forallb (λ y, cell_placed x.1 y.1 y.2)
                        (imap pair x.2))
       (imap pair b).

(** ** The positions of a board, without exceptions *)

(** The pieces of colour [k], in the order of the loops
    [for row in board: for piece in row]. *)
Definition pieces_of (k : Color) (b : board) : list Piece.t :=
  filter (λ piece, Piece.color piece = k) (omap id (concat b)).

(** The moves of a piece, [[]] where [get_valid_moves] raises. *)
Definition moves_of (piece : Piece.t) (b : board) (mines : gset (Z * Z))
    : list move :=
  default [] (get_valid_moves piece b mines).

(** The board after a move, the board itself where [apply_move] raises. *)
Definition board_after (b : board) (piece : Piece.t) (mv : move) : board :=
  default b (apply_move b piece mv).

(** The (Blue piece, destination) pairs [best_move] enumerates. *)
Definition candidates (b : board) (mines : gset (Z * Z))
    : list (Piece.t * move) :=
  piece ← pieces_of BLUE b; mv ← moves_of piece b mines; [(piece, mv)].

(** The score [best_move] gives a candidate. *)
Definition candidate_score (b : board) (mines : gset (Z * Z))
    (c : Piece.t * move) : score :=
  default NegInf (minimax (board_after b c.1 c.2) 3 NegInf PosInf false mines).

(** The score the unpruned recursion gives a candidate. *)
Definition candidate_score_unpruned (b : board) (mines : gset (Z * Z))
    (c : Piece.t * move) : score :=
  default NegInf (minimax_unpruned (board_after b c.1 c.2) 3 false mines).

(** The largest of a list of scores, [-inf] for the empty list. *)
Definition max_score (l : list score) : score := foldl smax NegInf l.

(** The candidates of maximal score, in the order of enumeration. *)
Definition maximal_candidates (sc : Piece.t * move → score)
    (cs : list (Piece.t * move)) : list (Piece.t * move) :=
  filter (λ c, sc c = max_score (sc <$> cs)) cs.

(** ** The search over an abstract game tree *)

(** The two searches once more, over positions of any type: [terminal]
    is the value of a decided position, [static] the value of a position
    at depth [0], and [kids mx n] the positions one move of the side to
    move leads to, grouped by the piece moved.  On well-formed boards the
    searches above compute exactly these (lemmas [minimax_alphabeta] and
    [minimax_unpruned_fullsearch]); pruning is reasoned about here. *)
Section GameTree.
Context {node : Type}.
Variable terminal : node → option score.
Variable static : node → score.
Variable kids : bool → node → list (list node).

(** The loop over the moves of one piece on a maximizing ply. *)
Fixpoint group_max (rec : node → score → score) (beta : score)
    (grp : list node) (st : score * score) : score * score :=
  match grp with
  | [] => st
  | n :: grp' =>
      let eval := rec n st.2 in
      let st' := (smax st.1 eval, smax st.2 eval) in
      if decide (score_le beta st'.2) then st' else group_max rec beta grp' st'
  end.

(** The loop over the moves of one piece on a minimizing ply. *)
Fixpoint group_min (rec : node → score → score) (alpha : score)
    (grp : list node) (st : score * score) : score * score :=
  match grp with
  | [] => st
  | n :: grp' =>
      let eval := rec n st.2 in
      let st' := (smin st.1 eval, smin st.2 eval) in
      if decide (score_le st'.2 alpha) then st' else group_min rec alpha grp' st'
  end.

Fixpoint alphabeta (d : nat) (n : node) (alpha beta : score) (mx : bool)
    : score :=
  match terminal n with
  | Some s => s
  | None =>
      match d with
      | O => static n
      | S d' =>
          if mx then
            (foldl (λ st grp,
               group_max (λ c a, alphabeta d' c a beta false) beta grp st)
               (NegInf, alpha) (kids true n)).1
          else
            (foldl (λ st grp,
               group_min (λ c be, alphabeta d' c alpha be true) alpha grp st)
               (PosInf, beta) (kids false n)).1
      end
  end.

Fixpoint fullsearch (d : nat) (n : node) (mx : bool) : score :=
  match terminal n with
  | Some s => s
  | None =>
      match d with
      | O => static n
      | S d' =>
          if mx then
            foldl (λ acc grp,
              foldl (λ acc c, smax acc (fullsearch d' c false)) acc grp)
              NegInf (kids true n)
          else
            foldl (λ acc grp,
              foldl (λ acc c, smin acc (fullsearch d' c true)) acc grp)
              PosInf (kids false n)
      end
  end.
End GameTree.

(** The game tree of the boards. *)
Definition board_terminal (b : board) : option score :=
  match default None (check_win_condition b) with
  | Some w => Some (leaf_value b (Some w))
  | None => None
  end.

Definition board_static (b : board) : score := leaf_value b None.

Definition board_kids (mines : gset (Z * Z)) (mx : bool) (b : board)
    : list (list board) :=
  (λ piece, board_after b piece <$> moves_of piece b mines)
    <$> pieces_of (if mx then BLUE else RED) b.

(** ** The move generator as the specification words it *)

(** The five destinations of a piece on [(r, c)]: forward straight,
    forward left, forward right, lateral left, lateral right; forward is
    [row - 1] for Red and [row + 1] for Blue. *)
Definition offsets (k : Color) (r c : Z) : list move :=
  match k with
  | RED => [(r - 1, c); (r - 1, c - 1); (r - 1, c + 1); (r, c - 1); (r, c + 1)]
  | BLUE => [(r + 1, c); (r + 1, c - 1); (r + 1, c + 1); (r, c - 1); (r, c + 1)]
  end.

(** What [board[r][c]] must be for a piece of colour [k] to land on it:
    empty, or a piece of the other colour. *)
Definition free_for (k : Color) (target : option cell) : bool :=
  match target with
  | Some None => true
  | Some (Some q) => bool_decide (Piece.color q ≠ k)
  | None => false
  end.

(** In bounds, not a mine, and empty or held by the other side. *)
Definition destination_ok (piece : Piece.t) (b : board)
    (mines : gset (Z * Z)) (mv : move) : Prop :=
  (0 ≤ mv.1 < ROWS ∧ 0 ≤ mv.2 < COLS) ∧ (mv ∉ mines)
  ∧ free_for (Piece.color piece) (board_get b mv.1 mv.2).

#[global] Instance destination_ok_dec piece b mines mv :
  Decision (destination_ok piece b mines mv).
Proof. unfold destination_ok. apply _. Defined.

Definition valid_moves_spec (piece : Piece.t) (b : board)
    (mines : gset (Z * Z)) : list move :=
  filter (destination_ok piece b mines)
    (offsets (Piece.color piece) (Piece.row piece) (Piece.col piece)).

(** ** Occupation of a cell *)

(** A piece of colour [k] stands on [(r, c)]:
    [isinstance(board[r][c], Piece) and board[r][c].color == k]. *)
Definition occupies (b : board) (k : Color) (r c : Z) : Prop :=
  ∃ x, board_get b r c = Some x ∧ is_color x k.

(** A board with a red piece on row 0 and a blue piece on row [ROWS-1], the
    blue one in the lower column. *)
Definition both_reached : board :=
  [ [None; red_at 0 1; None; None; None];
    empty_row; empty_row; empty_row; empty_row;
    [blue_at 5 0; None; None; None; None] ].

(** A board on which Blue, to move, has a piece and no move: its only
    piece stands in a corner, the three cells around it are mined. *)
Definition cornered : board :=
  [ [blue_at 0 0; None; None; None; None];
    empty_row; empty_row; empty_row; empty_row;
    [None; None; None; None; red_at 5 4] ].

Definition cornered_mines : gset (Z * Z) := {[ (0, 1); (1, 0); (1, 1) ]}.

(** ** Placement of the mines *)

(** The constraints [generate_mines] places a mine under: a row in
    [1 .. ROWS-2], a column in [0 .. COLS-1], an empty cell of the board,
    and no other mine next to it in its row. *)
Definition mines_placed (b : board) (mines : gset (Z * Z)) : Prop :=
  ∀ r c, (r, c) ∈ mines →
    (1 ≤ r ≤ ROWS - 2 ∧ 0 ≤ c ≤ COLS - 1)
    ∧ board_get b r c = Some None
    ∧ ((r, c - 1) ∉ mines) ∧ ((r, c + 1) ∉ mines).

(** Draws for examples. *)
Definition some_draws : list (Z * Z) :=
  [(0, 0); (0, 1); (5, 2); (0, 0); (1, 3); (2, 2); (7, 7);
   (0, 0); (0, 2); (5, 2); (0, 0); (1, 3); (2, 2); (7, 7); (0, 4)].

Definition some_mines : gset (Z * Z) := {[ (1, 1); (2, 3); (3, 0); (4, 2) ]}.

(** ** Winning moves *)

(** A Blue piece of the board together with one of its valid moves, the
    move landing on row [ROWS-1]. *)
Definition winning_move (b : board) (mines : gset (Z * Z))
    (pm : Piece.t * move) : Prop :=
  pm.1 ∈ pieces_of BLUE b
  ∧ (∃ moves, get_valid_moves pm.1 b mines = Some moves ∧ pm.2 ∈ moves)
  ∧ pm.2.1 = ROWS - 1.

(** A single blue piece one row from row [ROWS-1], a red piece away from
    it. *)
Definition one_step_left : board :=
  [ empty_row; empty_row; empty_row; empty_row;
    [None; None; blue_at 4 2; None; None];
    [red_at 5 0; None; None; None; None] ].

(** The first move of a list that lands on row [ROWS-1], with its piece. *)
Definition lands_last (piece : Piece.t) (mv : move) : option (Piece.t * move) :=
  if decide (mv.1 = ROWS - 1) then Some (piece, mv) else None.

Definition first_winning (piece : Piece.t) (b : board) (mines : gset (Z * Z))
    : option (Piece.t * move) :=
  head (omap (lands_last piece) (moves_of piece b mines)).

(** ** What a pruned value says about the exact one *)

(** The contract of a search with the window [(alpha, beta)] whose exact
    value is [exact]: a value [v] that fails low [(exact <= alpha)] stays
    at or under [alpha], one that fails high stays at or over [beta], and
    a value inside the window is the exact one. *)
Definition within (alpha beta exact v : score) : Prop :=
  (score_le exact alpha → score_le v alpha)
  ∧ (score_le beta exact → score_le beta v)
  ∧ (score_lt alpha exact → score_lt exact beta → v = exact).

(** The state [(max_eval, alpha)] of a maximizing ply after some moves
    whose exact values have maximum [seen]: either no cut-off happened and
    [alpha] is the exact bound, or both [max_eval] and the exact maximum
    have reached [beta]. *)
Definition max_inv (alpha0 beta seen : score) (st : score * score) : Prop :=
  (st.2 = smax alpha0 st.1 ∧ score_lt st.2 beta
   ∧ smax alpha0 st.1 = smax alpha0 seen)
  ∨ (score_le beta st.1 ∧ score_le beta seen).

(** The state [(min_eval, beta)] of a minimizing ply, likewise. *)
Definition min_inv (alpha beta0 seen : score) (st : score * score) : Prop :=
  (st.2 = smin beta0 st.1 ∧ score_lt alpha st.2
   ∧ smin beta0 st.1 = smin beta0 seen)
  ∨ (score_le st.1 alpha ∧ score_le seen alpha).

(** One iteration of the loop of [best_move], for a candidate [c] of score
    [eval]. *)
Definition best_step (eval : score) (c : Piece.t * move)
    (st : score * list (Piece.t * move)) : score * list (Piece.t * move) :=
  if decide (score_lt st.1 eval) then (eval, [c])
  else if decide (eval = st.1) then (st.1, st.2 ++ [c])
  else st.

(** ** Tools for the recorded search *)

Definition flow_map {S T} (f : S → T) (x : flow S) : flow T :=
  match x with
  | Next st => Next (f st)
  | Break st => Break (f st)
  end.

Definition flow_state {S} (x : flow S) : S :=
  match x with
  | Next st => st
  | Break st => st
  end.

(** The score and the log of a candidate, [(-inf, [])] where the search
    raises. *)
Definition trace_of (b : board) (mines : gset (Z * Z)) (c : Piece.t * move)
    : score * list (nat * board) :=
  default (NegInf, [])
    (minimax_trace (board_after b c.1 c.2) 3 1 NegInf PosInf false mines).

(** The first static evaluation that [best_move] causes: its ply and what
    [check_win_condition] says of the evaluated board. *)
Definition first_evaluation (b : board) (mines : gset (Z * Z))
    : option (nat * option (option string)) :=
  entries ← best_move_trace b mines;
  entry ← head entries;
  logged ← head entry.2;
  Some (logged.1, check_win_condition logged.2).

(** A position in which the fourth half-move decides: two blue pieces
    face two red ones. *)
Definition fourth_ply_board : board :=
  [ empty_row;
    [None; None; blue_at 1 2; None; blue_at 1 4];
    [None; None; None; red_at 2 3; red_at 2 4];
    empty_row; empty_row; empty_row ].

Definition fourth_ply_mines : gset (Z * Z) := {[ (3, 0) ]}.

(** ** Elimination *)

Definition Red_lost : string := "Red lost!".
Definition Blue_lost : string := "Blue lost!".

(** [check_no_pieces_left(board)] *)
Definition check_no_pieces_left (b : board) : option string :=
  let red_pieces := count_pieces RED b in
  let blue_pieces := count_pieces BLUE b in
  if decide (red_pieces = 0) then Some Red_lost
  else if decide (blue_pieces = 0) then Some Blue_lost
  else None.

(** [blue_shuffle_condition(board, mines, eval_value)]: the loop over the
    columns of row 2, then the test of [eval_value]. *)
Definition blue_shuffle_condition (b : board) (mines : gset (Z * Z))
    (eval_value : Z) : option bool :=
  found ← for_return (seqZ 0 COLS) (λ c,
    x ← board_get b 2 c;
    if is_color x RED then Some (Some true) else Some None);
  match found with
  | Some v => Some v
  | None => if decide (eval_value < 0) then Some true else Some false
  end.

(** ** Screen coordinates *)

Definition SQUARE_SIZE : Z := 100.
Definition WIDTH : Z := COLS * SQUARE_SIZE.
Definition HEIGHT : Z := ROWS * SQUARE_SIZE + 50.

(** [Piece.calc_pos]: the fields [(x, y)] of a piece, which [__init__] and
    [move] recompute from [row] and [col]. *)
Definition calc_pos (piece : Piece.t) : Z * Z :=
  (SQUARE_SIZE * Piece.col piece + SQUARE_SIZE `div` 2,
   SQUARE_SIZE * Piece.row piece + SQUARE_SIZE `div` 2).

(** [get_row_col_from_mouse(pos)]; [//] is the floor division. *)
Definition get_row_col_from_mouse (pos : Z * Z) : Z * Z :=
  let '(x, y) := pos in
  let row := y `div` SQUARE_SIZE in
  let col := x `div` SQUARE_SIZE in
  (row, col).

(** A [pygame.Rect] and its [collidepoint]: a point is inside when it is
    at or after the left and top edges and before the right and bottom
    ones. *)
Record Rect := mkRect { rect_x : Z; rect_y : Z; rect_w : Z; rect_h : Z }.

Definition collidepoint (r : Rect) (pos : Z * Z) : bool :=
  bool_decide (rect_x r ≤ pos.1 < rect_x r + rect_w r
               ∧ rect_y r ≤ pos.2 < rect_y r + rect_h r).

Definition RESHUFFLE_BTN : Rect :=
  mkRect (WIDTH `div` 2 - 50) (HEIGHT - 50) 100 40.

(** ** Game controller *)

(** [Piece.move(row, col)]: the piece with its new cell. *)
Definition move_piece (piece : Piece.t) (row col : Z) : Piece.t :=
  Piece.make row col (Piece.color piece).

(** The mutation [piece.move(row, col)] as the board shows it.  The cells
    hold values, not references, so the new coordinates are written to
    every cell that holds the piece. *)
Definition relocate (piece : Piece.t) (row col : Z) (b : board) : board :=
  (λ rw : list cell,
    (λ c : cell,
      if decide (c = Some piece) then Some (move_piece piece row col) else c)
    <$> rw) <$> b.

(** The move the controller commits, in place:
    [board[row][col] = piece],
    [board[piece.row][piece.col] = 0],
    [piece.move(row, col)]. *)
Definition commit_move (b : board) (piece : Piece.t) (row col : Z)
    : option board :=
  b1 ← board_set b row col (Some piece);
  b2 ← board_set b1 (Piece.row piece) (Piece.col piece) None;
  Some (relocate piece row col b2).

(** The block [if turn == BLUE:] at the end of an iteration of [main]:
    the board, the turn and the flag [blue_reshuffled] after it. *)
Definition ai_turn (draw : nat) (b : board) (mines : gset (Z * Z))
    (turn : Color) (blue_reshuffled : bool) : option (board * Color * bool) :=
  if decide (turn = BLUE) then
    if blue_reshuffled then Some (b, turn, false)
    else
      winning_move ← find_winning_move b mines;
      match winning_move with
      | Some (piece, mv) =>
          nb ← commit_move b piece mv.1 mv.2;
          Some (nb, RED, blue_reshuffled)
      | None =>
          best ← best_move draw b mines;
          match best with
          | Some (piece, mv) =>
              nb ← commit_move b piece mv.1 mv.2;
              Some (nb, RED, blue_reshuffled)
          | None => Some (b, turn, blue_reshuffled)
          end
      end
  else Some (b, turn, blue_reshuffled).

(** The variables of [main] that a mouse click reads and writes.
    [selected_piece] holds the fields the selected piece has at the time
    of the click. *)
Module Game.
Record t := make {
  board : list (list (option Piece.t));
  mines : gset (Z * Z);
  turn : Color;
  selected_piece : option Piece.t;
  red_shuffles : Z;
  blue_shuffles : Z;
  blue_reshuffled : bool }.
End Game.

(** [BLUE if turn == RED else RED] *)
Definition other_turn (turn : Color) : Color :=
  if decide (turn = RED) then BLUE else RED.

(** The handling of one [MOUSEBUTTONDOWN] event at [pos]; a reshuffle
    consumes draws. *)
Definition on_mouse_down (pos : Z * Z) (g : Game.t) (draws : list (Z * Z))
    : option (Game.t * list (Z * Z)) :=
  if collidepoint RESHUFFLE_BTN pos then
    if decide (Game.turn g = RED ∧ 0 < Game.red_shuffles g) then
      '(new_mines, draws') ← shuffle_mines (Game.board g) (Game.mines g) draws;
      Some (Game.make (Game.board g) new_mines (Game.turn g)
              (Game.selected_piece g) (Game.red_shuffles g - 1)
              (Game.blue_shuffles g) (Game.blue_reshuffled g), draws')
    else if decide (Game.turn g = BLUE ∧ 0 < Game.blue_shuffles g
                    ∧ Game.blue_reshuffled g = false) then
      '(new_mines, draws') ← shuffle_mines (Game.board g) (Game.mines g) draws;
      Some (Game.make (Game.board g) new_mines (Game.turn g)
              (Game.selected_piece g) (Game.red_shuffles g)
              (Game.blue_shuffles g - 1) true, draws')
    else Some (g, draws)
  else
    let '(row, col) := get_row_col_from_mouse pos in
    if decide (0 ≤ row < ROWS ∧ 0 ≤ col < COLS) then
      piece ← board_get (Game.board g) row col;
      if is_color piece (Game.turn g) then
        Some (Game.make (Game.board g) (Game.mines g) (Game.turn g) piece
                (Game.red_shuffles g) (Game.blue_shuffles g)
                (Game.blue_reshuffled g), draws)
      else
        match Game.selected_piece g with
        | Some selected =>
            moves ← get_valid_moves selected (Game.board g) (Game.mines g);
            if decide ((row, col) ∈ moves) then
              nb ← commit_move (Game.board g) selected row col;
              Some (Game.make nb (Game.mines g) (other_turn (Game.turn g))
                      None (Game.red_shuffles g) (Game.blue_shuffles g)
                      (Game.blue_reshuffled g), draws)
            else Some (g, draws)
        | None => Some (g, draws)
        end
    else Some (g, draws).

(** ** Verdicts of single columns *)

(** What column [c] makes [check_win_condition] answer. *)
Definition column_verdict (b : board) (c : Z) : option string :=
  if is_color (default None (board_get b 0 c)) RED then Some You_won
  else if is_color (default None (board_get b (ROWS - 1) c)) BLUE
  then Some You_lost
  else None.

(** What column [c] makes the loop of [blue_shuffle_condition] return. *)
Definition red_on_row_2 (b : board) (c : Z) : option bool :=
  if is_color (default None (board_get b 2 c)) RED then Some true else None.

(** ** Writing a cell by its position *)

(** The board with cell [(i, j)] set to [x]: what [board[i][j] = x] leaves
    when [i] and [j] are positions of the board. *)
Definition put (b : board) (i j : nat) (x : cell) : board :=
  alter (λ rw : list cell, <[j := x]> rw) i b.

(** [1] for a cell that holds a piece of colour [k], else [0]. *)
Definition cell_count (k : Color) (c : cell) : Z :=
  if is_color c k then 1 else 0.

(** The other side. *)
Definition opponent (k : Color) : Color :=
  match k with RED => BLUE | BLUE => RED end.

(** ** The events of an iteration *)

(** The events [main] tells apart.  [MOUSEBUTTONDOWN pos] carries what
    [pygame.mouse.get_pos()] answers when the event is handled. *)
Inductive event := QUIT | MOUSEBUTTONDOWN (pos : Z * Z) | OTHER.

(** [for event in pygame.event.get():] of [main]: the variables, the flag
    [running] and the draws left after the events.  No piece moves between
    two events but by the events themselves, so the fields of the selected
    piece stay those of [selected_piece]. *)
Definition handle_events (events : list event) (g : Game.t) (running : bool)
    (draws : list (Z * Z)) : option (Game.t * bool * list (Z * Z)) :=
  for_each events (λ ev '(g, running, draws),
    match ev with
    | QUIT => Some (g, false, draws)
    | MOUSEBUTTONDOWN pos =>
        '(g', draws') ← on_mouse_down pos g draws;
        Some (g', running, draws')
    | OTHER => Some (g, running, draws)
    end) (g, running, draws).

(** The selected piece, when there is one, stands on the board. *)
Definition selected_on_board (g : Game.t) : Prop :=
  ∀ piece, Game.selected_piece g = Some piece →
    piece ∈ pieces_of (Piece.color piece) (Game.board g).

(** The event is a click on the reshuffle button. *)
Definition hits_button (ev : event) : bool :=
  match ev with
  | MOUSEBUTTONDOWN pos => collidepoint RESHUFFLE_BTN pos
  | _ => false
  end.

(** A game for examples: the opening board, Red to move, two reshuffles
    each. *)
Definition opening_game : Game.t :=
  Game.make create_board some_mines RED None 2 2 false.


(** ** The positions of play *)

(** The boards that play leads to: the opening board, and the board
    [apply_move] builds from such a board for a piece of it and one of its
    valid moves, under any mines (a reshuffle changes them between
    moves). *)
Inductive reachable : board → Prop :=
  | reachable_opening : reachable create_board
  | reachable_move (b nb : board) (mines : gset (Z * Z)) (k : Color)
      (piece : Piece.t) (moves : list move) (mv : move) :
      reachable b →
      piece ∈ pieces_of k b →
      get_valid_moves piece b mines = Some moves →
      mv ∈ moves →
      apply_move b piece mv = Some nb →
      reachable nb.


(** Every mine lies on an empty cell of the board. *)
Definition mines_clear (b : board) (mines : gset (Z * Z)) : Prop :=
  ∀ r c, (r, c) ∈ mines →
    (0 ≤ r < ROWS ∧ 0 ≤ c < COLS) ∧ board_get b r c = Some None.


(** * Properties *)

(** ** Indexing a board of the right shape *)

Lemma py_index_in_range {A} (l : list A) (i : Z) :
  0 ≤ i < Z.of_nat (length l) → py_index l i = Some (Z.to_nat i).
Proof. intros Hi. unfold py_index. by rewrite decide_True. Qed.

Lemma getitem_in_range {A} (l : list A) (i : Z) :
  0 ≤ i < Z.of_nat (length l) → getitem l i = l !! Z.to_nat i.
Proof. intros Hi. unfold getitem. by rewrite py_index_in_range. Qed.

Lemma board_shape_row (b : board) (r : Z) :
  board_shape b → 0 ≤ r < ROWS →
  ∃ rw, b !! Z.to_nat r = Some rw ∧ length rw = Z.to_nat COLS.
Proof.
  intros [Hlen Hrows] Hr.
  destruct (lookup_lt_is_Some_2 b (Z.to_nat r)) as [rw Hrw].
  { rewrite Hlen. unfold ROWS in *. lia. }
  exists rw. split; [done|]. apply Hrows. by eapply list_elem_of_lookup_2.
Qed.

Lemma board_get_lookup (b : board) (r c : Z) :
  board_shape b → 0 ≤ r < ROWS → 0 ≤ c < COLS →
  ∃ rw x, b !! Z.to_nat r = Some rw ∧ rw !! Z.to_nat c = Some x
          ∧ board_get b r c = Some x.
Proof.
  intros Hb Hr Hc.
  destruct (board_shape_row b r Hb Hr) as (rw & Hrw & Hlen).
  destruct (lookup_lt_is_Some_2 rw (Z.to_nat c)) as [x Hx].
  { rewrite Hlen. unfold COLS in *. lia. }
  exists rw, x. split_and!; [done..|].
  unfold board_get. rewrite getitem_in_range.
  - rewrite Hrw. simpl. rewrite getitem_in_range; [done|].
    rewrite Hlen. unfold COLS in *. lia.
  - destruct Hb as [-> _]. unfold ROWS in *. lia.
Qed.

Lemma board_get_is_Some (b : board) (r c : Z) :
  board_shape b → 0 ≤ r < ROWS → 0 ≤ c < COLS → is_Some (board_get b r c).
Proof.
  intros Hb Hr Hc. destruct (board_get_lookup b r c) as (?&?&?&?&->); eauto.
Qed.

(** ** The move generator *)

Lemma for_each_collect {A B} (P : B → Prop) `{∀ x, Decision (P x)}
    (f : A → B) (body : A → list B → option (list B)) (xs : list A) :
  (∀ x acc, body x acc = Some (acc ++ filter P [f x])) →
  ∀ acc, for_each xs body acc = Some (acc ++ filter P (f <$> xs)).
Proof.
  intros Hbody. induction xs as [|x xs IH]; intros acc; simpl.
  - by rewrite app_nil_r.
  - rewrite Hbody. simpl. rewrite IH. rewrite <- app_assoc.
    f_equal. f_equal. rewrite !filter_cons, filter_nil.
    by destruct (decide (P (f x))).
Qed.

Lemma offsets_directions (k : Color) (r c : Z) :
  offsets k r c = (λ d, (r + d.1, c + d.2)) <$> directions k.
Proof.
  destruct k; simpl; repeat (f_equal; try lia).
Qed.

Lemma get_valid_moves_shape (piece : Piece.t) (b : board)
    (mines : gset (Z * Z)) :
  board_shape b →
  get_valid_moves piece b mines = Some (valid_moves_spec piece b mines).
Proof.
  intros Hb. unfold get_valid_moves, valid_moves_spec.
  rewrite offsets_directions.
  rewrite (for_each_collect (destination_ok piece b mines)
             (λ d, (Piece.row piece + d.1, Piece.col piece + d.2))); [done|].
  intros d acc. cbv zeta. rewrite filter_cons, filter_nil.
  set (r := Piece.row piece + d.1). set (c := Piece.col piece + d.2).
  destruct (decide (destination_ok piece b mines (r, c)))
    as [([Hr Hc] & Hm & Hfree)|Hno]; simpl in *.
  - rewrite decide_True by done.
    destruct (board_get b r c) as [[q|]|]; simpl in *; try done.
    apply bool_decide_spec in Hfree. by rewrite decide_True.
  - destruct (decide (0 ≤ r < ROWS ∧ 0 ≤ c < COLS ∧ (r, c) ∉ mines))
      as [(Hr & Hc & Hm)|_]; [|by rewrite app_nil_r].
    destruct (board_get_is_Some b r c Hb Hr Hc) as [target Ht].
    rewrite Ht. simpl. rewrite app_nil_r.
    destruct target as [q|].
    + rewrite decide_False; [done|]. intros Hq. apply Hno.
      split; [simpl; tauto|]. split; [done|]. simpl. rewrite Ht. simpl.
      by apply bool_decide_spec.
    + destruct Hno. split; [simpl; tauto|]. split; [done|]. simpl.
      by rewrite Ht.
Qed.

(** C5.  On a board of [ROWS] rows of [COLS] cells, [get_valid_moves]
    returns exactly the destinations, among the five offsets of the
    piece's side and in the order of the direction set, that are in
    bounds, carry no mine and are empty or held by a piece of the other
    side.  In particular no destination it returns is out of bounds, a
    mine, or a cell held by a piece of the mover's own side. *)
Theorem get_valid_moves_exact (piece : Piece.t) (b : board)
    (mines : gset (Z * Z)) :
  board_shape b →
  get_valid_moves piece b mines
    = Some (filter (destination_ok piece b mines)
              (offsets (Piece.color piece) (Piece.row piece) (Piece.col piece)))
  ∧ ∀ moves mv,
      get_valid_moves piece b mines = Some moves → mv ∈ moves →
      (0 ≤ mv.1 < ROWS ∧ 0 ≤ mv.2 < COLS)
      ∧ (mv ∉ mines)
      ∧ ∃ target, board_get b mv.1 mv.2 = Some target
          ∧ ∀ q, target = Some q → Piece.color q ≠ Piece.color piece.
Proof.
  intros Hb. split; [by apply get_valid_moves_shape|].
  intros moves mv Hmoves Hmv.
  rewrite get_valid_moves_shape in Hmoves by done.
  injection Hmoves as <-. unfold valid_moves_spec in Hmv.
  apply list_elem_of_filter in Hmv as [(Hin & Hmine & Hfree) _].
  split; [done|]. split; [done|].
  destruct Hin as [Hr Hc].
  destruct (board_get_is_Some b _ _ Hb Hr Hc) as [target Ht].
  exists target. split; [done|]. intros q ->. rewrite Ht in Hfree.
  simpl in Hfree. by apply bool_decide_spec in Hfree.
Qed.

(** ** The terminal evaluator *)

Lemma wf_board_check_sound (b : board) : wf_board_check b = true → wf_board b.
Proof.
  unfold wf_board_check. intros H.
  apply andb_prop in H as [Hlen Hrows]. apply bool_decide_eq_true in Hlen.
  rewrite forallb_forall in Hrows.
  assert (Hrow : ∀ i rw, b !! i = Some rw →
            length rw = Z.to_nat COLS
            ∧ ∀ j x, rw !! j = Some x → cell_placed i j x = true).
  { intros i rw Hi.
    assert (Hin : In (i, rw) (imap pair b)).
    { rewrite <-list_elem_of_In, list_elem_of_lookup.
      exists i. by rewrite list_lookup_imap, Hi. }
    apply Hrows in Hin. simpl in Hin. apply andb_prop in Hin as [Hl Hc].
    apply bool_decide_eq_true in Hl. split; [done|]. intros j x Hj.
    rewrite forallb_forall in Hc. apply (Hc (j, x)).
    rewrite <-list_elem_of_In, list_elem_of_lookup.
    exists j. by rewrite list_lookup_imap, Hj. }
  split; [split; [done|]|].
  - intros rw [i Hi]%list_elem_of_lookup. by apply (Hrow i).
  - intros i j rw piece Hi Hj. destruct (Hrow i rw Hi) as [_ Hc].
    specialize (Hc j _ Hj). simpl in Hc.
    apply andb_prop in Hc as [?%bool_decide_eq_true ?%bool_decide_eq_true].
    done.
Qed.

Lemma check_win_from (b : board) (n : nat) (m : Z) :
  board_shape b → 0 ≤ m → m + Z.of_nat n = COLS →
  for_return (seqZ m (Z.of_nat n)) (λ c,
    top ← board_get b 0 c;
    if is_color top RED then Some (Some You_won)
    else
      bottom ← board_get b (ROWS - 1) c;
      if is_color bottom BLUE then Some (Some You_lost)
      else Some None) = Some (Some You_won)
  ↔ ∃ c, m ≤ c < COLS ∧ occupies b RED 0 c
         ∧ ∀ c', m ≤ c' < c → ¬ occupies b BLUE (ROWS - 1) c'.
Proof.
  intros Hb. revert m. induction n as [|n IH]; intros m Hm Hmn.
  - simpl. split; [done|]. intros (c & Hc & _). lia.
  - rewrite seqZ_cons by lia. cbn [for_return].
    replace (Z.pred (Z.of_nat (S n))) with (Z.of_nat n) by lia.
    destruct (board_get_is_Some b 0 m Hb) as [top Htop];
      [unfold ROWS; lia | lia |].
    destruct (board_get_is_Some b (ROWS - 1) m Hb) as [bottom Hbottom];
      [unfold ROWS; lia | lia |].
    rewrite Htop. simpl. destruct (is_color top RED) eqn:Hred.
    { split; [intros _|done]. exists m. split; [lia|]. split.
      - exists top. by rewrite Hred.
      - intros c' ?. lia. }
    rewrite Hbottom. simpl. destruct (is_color bottom BLUE) eqn:Hblue.
    { split; [done|]. intros (c & Hc & (x & Hx & Hxr) & Hfirst).
      destruct (decide (c = m)) as [->|Hne].
      - rewrite Htop in Hx. injection Hx as <-. by rewrite Hred in Hxr.
      - destruct (Hfirst m); [lia|]. exists bottom. by rewrite Hblue. }
    etrans; [exact (IH (Z.succ m) ltac:(lia) ltac:(lia))|]. split.
    + intros (c & Hc & Hcr & Hfirst). exists c. split; [lia|]. split; [done|].
      intros c' Hc'. destruct (decide (c' = m)) as [->|Hne].
      * intros (x & Hx & Hxb). rewrite Hbottom in Hx. injection Hx as <-.
        by rewrite Hblue in Hxb.
      * apply Hfirst. lia.
    + intros (c & Hc & Hcr & Hfirst).
      destruct (decide (c = m)) as [->|Hne].
      * destruct Hcr as (x & Hx & Hxr). rewrite Htop in Hx. injection Hx as <-.
        by rewrite Hred in Hxr.
      * exists c. split; [lia|]. split; [done|]. intros c' Hc'. apply Hfirst. lia.
Qed.

(** C2, as the code has it.  On a board of [ROWS] rows of [COLS] cells,
    [check_win_condition] answers "You won!" exactly when some column [c]
    has a red piece on row 0 and no column before [c] has a blue piece on
    row [ROWS-1]: the red test comes before the blue test of the same
    column and of the columns after it, not before the blue test of the
    columns before it. *)
Theorem check_win_red_first_column (b : board) :
  board_shape b →
  check_win_condition b = Some (Some You_won)
  ↔ ∃ c, 0 ≤ c < COLS ∧ occupies b RED 0 c
         ∧ ∀ c', 0 ≤ c' < c → ¬ occupies b BLUE (ROWS - 1) c'.
Proof.
  intros Hb. unfold check_win_condition.
  by apply (check_win_from b (Z.to_nat COLS) 0).
Qed.

Lemma check_win_red_first_column_witness :
  board_shape create_board ∧
  (check_win_condition create_board = Some (Some You_won)
   ↔ ∃ c, 0 ≤ c < COLS ∧ occupies create_board RED 0 c
          ∧ ∀ c', 0 ≤ c' < c → ¬ occupies create_board BLUE (ROWS - 1) c').
Proof.
  assert (Hb : board_shape create_board).
  { apply wf_board_check_sound. vm_compute. reflexivity. }
  split; [exact Hb | exact (check_win_red_first_column create_board Hb)].
Defined.

(** C2 fails as stated: a red piece stands on row 0, on a well-formed
    board, and the answer is "You lost!". *)
Lemma check_win_blue_in_lower_column :
  wf_board both_reached
  ∧ occupies both_reached RED 0 1
  ∧ occupies both_reached BLUE (ROWS - 1) 0
  ∧ check_win_condition both_reached = Some (Some You_lost)
  ∧ check_win_condition both_reached ≠ Some (Some You_won).
Proof.
  split; [apply wf_board_check_sound; vm_compute; reflexivity|].
  split; [exists (red_at 0 1); by vm_compute|].
  split; [exists (blue_at 5 0); by vm_compute|].
  split; [by vm_compute|]. by vm_compute.
Qed.

(** ** Loops over the pieces of a board *)

Lemma for_each_app {A S} (xs ys : list A) (body : A → S → option S) (st : S) :
  for_each (xs ++ ys) body st = for_each xs body st ≫= for_each ys body.
Proof.
  revert st. induction xs as [|x xs IH]; intros st; simpl; [done|].
  destruct (body x st) as [st'|]; simpl; [apply IH|done].
Qed.

Lemma for_each_ext {A S} (xs : list A) (body1 body2 : A → S → option S) :
  (∀ x st, x ∈ xs → body1 x st = body2 x st) →
  ∀ st, for_each xs body1 st = for_each xs body2 st.
Proof.
  induction xs as [|x xs IH]; intros Hbody st; simpl; [done|].
  rewrite Hbody by left. destruct (body2 x st) as [st'|]; simpl; [|done].
  apply IH. intros y st'' Hy. apply Hbody. by right.
Qed.

Lemma for_pieces_row {S} (k : Color) (rw : list cell)
    (body : Piece.t → S → option S) (st : S) :
  for_each rw (λ c st,
    match c with
    | Some piece =>
        if decide (Piece.color piece = k) then body piece st else Some st
    | None => Some st
    end) st
  = for_each (filter (λ piece, Piece.color piece = k) (omap id rw)) body st.
Proof.
  revert st. induction rw as [|[piece|] rw IH]; intros st; simpl; [done| |].
  - rewrite filter_cons. destruct (decide (Piece.color piece = k)); simpl.
    + destruct (body piece st) as [st'|]; simpl; [apply IH|done].
    + apply IH.
  - apply IH.
Qed.

Lemma for_pieces_flat {S} (k : Color) (b : board)
    (body : Piece.t → S → option S) (st : S) :
  for_pieces k b body st = for_each (pieces_of k b) body st.
Proof.
  unfold for_pieces, pieces_of. revert st.
  induction b as [|rw b IH]; intros st; simpl; [done|].
  rewrite omap_app, filter_app, for_each_app, for_pieces_row.
  destruct (for_each _ body st) as [st'|]; simpl; [apply IH|done].
Qed.

Lemma for_each_skip {A S} (xs : list A) (body : A → S → option S) (st : S) :
  (∀ x, x ∈ xs → body x st = Some st) → for_each xs body st = Some st.
Proof.
  induction xs as [|x xs IH]; intros Hbody; simpl; [done|].
  rewrite Hbody by left. simpl. apply IH. intros y Hy. apply Hbody. by right.
Qed.

(** ** The leaves of the search *)

Lemma for_return_values {A R} (xs : list A) (body : A → option (option R))
    (P : R → Prop) :
  (∀ x v, body x = Some (Some v) → P v) →
  ∀ v, for_return xs body = Some (Some v) → P v.
Proof.
  intros Hbody v. induction xs as [|x xs IH]; simpl; [done|].
  destruct (body x) as [[v'|]|] eqn:Hx; simpl; [|done..].
  intros [= <-]. by eapply Hbody.
Qed.

Lemma check_win_condition_cases (b : board) (w : option string) :
  check_win_condition b = Some w →
  w = None ∨ w = Some You_won ∨ w = Some You_lost.
Proof.
  destruct w as [s|]; [|by left]. intros Hw. right.
  revert Hw. unfold check_win_condition.
  apply (for_return_values _ _ (λ s, Some s = Some You_won ∨ Some s = Some You_lost)).
  intros c v.
  destruct (board_get b 0 c) as [top|]; simpl; [|done].
  destruct (is_color top RED); [intros [= <-]; by left|].
  destruct (board_get b (ROWS - 1) c) as [bottom|]; simpl; [|done].
  destruct (is_color bottom BLUE); [intros [= <-]; by right|done].
Qed.



(** C10.  At a position that [check_win_condition] does not decide and
    with [depth >= 1], when no piece of the side to move has a move (in
    particular when that side has no piece), [minimax] returns [-inf] on a
    maximizing ply and [+inf] on a minimizing one. *)
Theorem minimax_side_cannot_move (b : board) (d : nat) (alpha beta : score)
    (maximizing_player : bool) (mines : gset (Z * Z)) :
  check_win_condition b = Some None →
  (∀ piece, piece ∈ pieces_of (if maximizing_player then BLUE else RED) b →
            get_valid_moves piece b mines = Some []) →
  minimax b (S d) alpha beta maximizing_player mines
    = Some (if maximizing_player then NegInf else PosInf).
Proof.
  intros Hw Hstuck. simpl. rewrite Hw. simpl.
  destruct maximizing_player; rewrite for_pieces_flat, for_each_skip; try done.
  all: intros piece Hp; by rewrite (Hstuck piece Hp).
Qed.

Lemma minimax_side_cannot_move_witness :
  check_win_condition cornered = Some None
  ∧ pieces_of BLUE cornered = [Piece.make 0 0 BLUE]
  ∧ minimax cornered 3 NegInf PosInf true cornered_mines = Some NegInf.
Proof.
  assert (Hw : check_win_condition cornered = Some None) by by vm_compute.
  assert (Hp : pieces_of BLUE cornered = [Piece.make 0 0 BLUE])
    by by vm_compute.
  split; [exact Hw|]. split; [exact Hp|].
  apply (minimax_side_cannot_move cornered 2 NegInf PosInf true cornered_mines Hw).
  intros piece Hin. rewrite Hp in Hin.
  apply list_elem_of_singleton in Hin as ->. by vm_compute.
Defined.

Lemma get_valid_moves_exact_witness :
  board_shape create_board
  ∧ get_valid_moves (Piece.make 0 1 BLUE) create_board {[ (1, 1) ]}
    = Some [(1, 0); (1, 2)].
Proof.
  assert (Hb : board_shape create_board).
  { apply wf_board_check_sound. vm_compute. reflexivity. }
  split; [exact Hb|].
  destruct (get_valid_moves_exact (Piece.make 0 1 BLUE) create_board
              {[ (1, 1) ]} Hb) as [-> _].
  by vm_compute.
Defined.

(** ** The mine set *)

Lemma randint_range (a b draw : Z) : a ≤ b → a ≤ randint a b draw ≤ b.
Proof.
  intros Hab. unfold randint.
  pose proof (Z.mod_pos_bound draw (b - a + 1)). lia.
Qed.

Lemma generate_mines_loop_inv (b : board) (num_mines : Z)
    (draws : list (Z * Z)) (mines : gset (Z * Z)) :
  Z.of_nat (size mines) ≤ num_mines → mines_placed b mines →
  ∀ res rest, generate_mines_loop b num_mines draws mines = Some (res, rest) →
    Z.of_nat (size res) = num_mines ∧ mines_placed b res.
Proof.
  revert mines. induction draws as [|[d1 d2] draws IH];
    intros mines Hsize Hplaced res rest; simpl.
  - destruct (decide (Z.of_nat (size mines) < num_mines)); [done|].
    intros [= <- <-]. split; [lia|done].
  - destruct (decide (Z.of_nat (size mines) < num_mines)) as [Hlt|Hge];
      [|intros [= <- <-]; split; [lia|done]].
    set (row := randint 1 (ROWS - 2) d1). set (col := randint 0 (COLS - 1) d2).
    assert (Hrow : 1 ≤ row ≤ ROWS - 2) by (apply randint_range; unfold ROWS, COLS; lia).
    assert (Hcol : 0 ≤ col ≤ COLS - 1) by (apply randint_range; unfold ROWS, COLS; lia).
    destruct (board_get b row col) as [target|] eqn:Hget; simpl; [|done].
    destruct (decide (target = None)) as [->|_]; [|by apply IH].
    destruct (bool_decide ((row, col + -1) ∉ mines)) eqn:Hleft;
      simpl; [|by apply IH].
    destruct (bool_decide ((row, col + 1) ∉ mines)) eqn:Hright;
      simpl; [|by apply IH].
    apply bool_decide_eq_true in Hleft, Hright.
    apply IH.
    + destruct (decide ((row, col) ∈ mines)) as [Hin|Hnotin].
      * replace ({[(row, col)]} ∪ mines) with mines; [lia|].
        apply leibniz_equiv. clear -Hin. set_solver.
      * rewrite size_union, size_singleton; [lia|].
        clear -Hnotin. set_solver.
    + intros r c [Hnew|Hold]%elem_of_union.
      * apply elem_of_singleton in Hnew as [= -> ->].
        split; [done|]. split; [done|].
        split; (intros [Hx|Hx]%elem_of_union;
                [apply elem_of_singleton in Hx as [=]; lia|]).
        -- by replace (col - 1) with (col + -1) in Hx by lia.
        -- done.
      * destruct (Hplaced r c Hold) as (Hr & Hc & Hl & Hrt).
        split; [done|]. split; [done|].
        split; (intros [Hx|Hx]%elem_of_union; [|done]);
          apply elem_of_singleton in Hx as [= -> Hcc].
        -- apply Hright. by replace (col + 1) with c by lia.
        -- apply Hleft. by replace (col + -1) with c by lia.
Qed.

Lemma generate_mines_from_empty (b : board) (count : Z)
    (draws : list (Z * Z)) (mines : gset (Z * Z)) (rest : list (Z * Z)) :
  0 ≤ count →
  generate_mines b count draws = Some (mines, rest) →
  Z.of_nat (size mines) = count ∧ mines_placed b mines.
Proof.
  intros Hcount. apply generate_mines_loop_inv.
  - rewrite size_empty. lia.
  - intros r c Hin. by apply elem_of_empty in Hin.
Qed.

(** C6.  Whenever [generate_mines(board, count)] returns, for a count
    that is not negative, the result has exactly [count] elements, each
    with its row in [1 .. ROWS-2] and its column in [0 .. COLS-1], each on
    an empty cell of the board, and no two of them next to each other in a
    row. *)
Theorem generate_mines_placed (b : board) (count : Z) (draws : list (Z * Z))
    (mines : gset (Z * Z)) (rest : list (Z * Z)) :
  0 ≤ count →
  generate_mines b count draws = Some (mines, rest) →
  Z.of_nat (size mines) = count
  ∧ (∀ r c, (r, c) ∈ mines →
       (1 ≤ r ≤ ROWS - 2 ∧ 0 ≤ c ≤ COLS - 1) ∧ board_get b r c = Some None)
  ∧ (∀ r c1 c2, (r, c1) ∈ mines → (r, c2) ∈ mines → Z.abs (c1 - c2) ≠ 1).
Proof.
  intros Hcount Hgen.
  destruct (generate_mines_from_empty b count draws mines rest Hcount Hgen)
    as [Hsize Hplaced].
  split; [done|]. split.
  - intros r c Hin. destruct (Hplaced r c Hin) as (? & ? & _). done.
  - intros r c1 c2 H1 H2 Habs.
    destruct (Hplaced r c1 H1) as (_ & _ & Hl & Hr).
    assert (c2 = c1 - 1 ∨ c2 = c1 + 1) as [->| ->] by lia; done.
Qed.

Lemma shuffle_mines_loop_inv (fuel : nat) (b : board) (mines : gset (Z * Z))
    (new_mines : gset (Z * Z)) (draws : list (Z * Z)) :
  Z.of_nat (size new_mines) = 4 → mines_placed b new_mines →
  ∀ res rest, shuffle_mines_loop fuel b mines new_mines draws = Some (res, rest) →
    res ∩ mines = ∅ ∧ Z.of_nat (size res) = 4 ∧ mines_placed b res.
Proof.
  revert new_mines draws. induction fuel as [|fuel IH];
    intros new_mines draws Hsize Hplaced res rest; simpl.
  - destruct (decide (0 < size (new_mines ∩ mines))%nat) as [|Hzero]; [done|].
    intros [= <- <-]. split; [|done].
    apply leibniz_equiv, size_empty_iff. lia.
  - destruct (decide (0 < size (new_mines ∩ mines))%nat) as [|Hzero].
    + destruct (generate_mines b 4 draws) as [[nm dr]|] eqn:Hgen; simpl; [|done].
      destruct (generate_mines_from_empty b 4 draws nm dr) as [Hs Hp];
        [lia|done|].
      by apply IH.
    + intros [= <- <-]. split; [|done].
      apply leibniz_equiv, size_empty_iff. lia.
Qed.

Lemma generate_mines_placed_witness :
  0 ≤ 4
  ∧ generate_mines create_board 4 some_draws
    = Some ({[ (1, 0); (2, 2); (3, 2); (4, 2) ]}, drop 7 some_draws)
  ∧ Z.of_nat (size ({[ (1, 0); (2, 2); (3, 2); (4, 2) ]} : gset (Z * Z))) = 4.
Proof.
  assert (Hgen : generate_mines create_board 4 some_draws
                 = Some ({[ (1, 0); (2, 2); (3, 2); (4, 2) ]},
                         drop 7 some_draws)) by (vm_compute; reflexivity).
  split; [lia|]. split; [exact Hgen|].
  exact (proj1 (generate_mines_placed create_board 4 some_draws _ _
                  ltac:(lia) Hgen)).
Defined.

(** C9.  Whenever [shuffle_mines(board, mines)] returns, the new mine set
    shares no coordinate with [mines], and it is placed as
    [generate_mines] places its default four mines: four elements, rows in
    [1 .. ROWS-2], columns in [0 .. COLS-1], empty cells of the board, no
    two next to each other in a row. *)
Theorem shuffle_mines_disjoint (b : board) (mines : gset (Z * Z))
    (draws : list (Z * Z)) (new_mines : gset (Z * Z)) (rest : list (Z * Z)) :
  shuffle_mines b mines draws = Some (new_mines, rest) →
  new_mines ∩ mines = ∅
  ∧ (∀ x, x ∈ new_mines → x ∉ mines)
  ∧ Z.of_nat (size new_mines) = 4
  ∧ (∀ r c, (r, c) ∈ new_mines →
       (1 ≤ r ≤ ROWS - 2 ∧ 0 ≤ c ≤ COLS - 1) ∧ board_get b r c = Some None)
  ∧ (∀ r c1 c2, (r, c1) ∈ new_mines → (r, c2) ∈ new_mines →
       Z.abs (c1 - c2) ≠ 1).
Proof.
  unfold shuffle_mines.
  destruct (generate_mines b 4 draws) as [[nm dr]|] eqn:Hgen; simpl; [|done].
  destruct (generate_mines_from_empty b 4 draws nm dr) as [Hs Hp];
    [lia|done|].
  intros Hloop.
  destruct (shuffle_mines_loop_inv _ b mines nm dr Hs Hp _ _ Hloop)
    as (Hdisj & Hsize & Hplaced).
  split; [done|]. split; [|split; [done|split]].
  - intros x Hx Hx'. assert (x ∈ new_mines ∩ mines) as Hin by set_solver.
    rewrite Hdisj in Hin. by apply elem_of_empty in Hin.
  - intros r c Hin. destruct (Hplaced r c Hin) as (? & ? & _). done.
  - intros r c1 c2 H1 H2 Habs.
    destruct (Hplaced r c1 H1) as (_ & _ & Hl & Hr).
    assert (c2 = c1 - 1 ∨ c2 = c1 + 1) as [->| ->] by lia; done.
Qed.

Lemma shuffle_mines_disjoint_witness :
  shuffle_mines create_board some_mines some_draws
    = Some ({[ (1, 0); (1, 2); (2, 2); (3, 2) ]}, drop 13 some_draws)
  ∧ ({[ (1, 0); (1, 2); (2, 2); (3, 2) ]} : gset (Z * Z)) ∩ some_mines = ∅.
Proof.
  assert (Hsh : shuffle_mines create_board some_mines some_draws
                = Some ({[ (1, 0); (1, 2); (2, 2); (3, 2) ]},
                        drop 13 some_draws)) by (vm_compute; reflexivity).
  split; [exact Hsh|].
  exact (proj1 (shuffle_mines_disjoint create_board some_mines some_draws _ _
                  Hsh)).
Defined.

(** ** The fuel of [shuffle_mines] *)

Lemma generate_mines_loop_rest (b : board) (num_mines : Z)
    (draws : list (Z * Z)) (mines : gset (Z * Z)) (res : gset (Z * Z))
    (rest : list (Z * Z)) :
  generate_mines_loop b num_mines draws mines = Some (res, rest) →
  (length rest ≤ length draws)%nat
  ∧ (Z.of_nat (size mines) < num_mines → (length rest < length draws)%nat).
Proof.
  revert mines. induction draws as [|[d1 d2] draws IH]; intros mines; simpl.
  - case_decide; [done|]. intros [= <- <-]. split; [done|lia].
  - case_decide as Hlt; [|intros [= <- <-]; split; [done|lia]].
    destruct (board_get b _ _) as [target|]; simpl; [|done].
    intros Hrec.
    assert (∃ mines', generate_mines_loop b num_mines draws mines'
                      = Some (res, rest)) as [mines' Hrec'].
    { revert Hrec. repeat case_match; eauto. }
    destruct (IH mines' Hrec') as [Hle _]. split; lia.
Qed.

(** A regeneration consumes at least one draw, so the loop of
    [shuffle_mines] never stops for want of fuel: any fuel that is at
    least the number of draws gives the same result. *)
Lemma shuffle_mines_loop_fuel (b : board) (mines : gset (Z * Z)) (fuel : nat) :
  ∀ (fuel' : nat) (new_mines : gset (Z * Z)) (draws : list (Z * Z)),
    (length draws ≤ fuel)%nat → (length draws ≤ fuel')%nat →
    shuffle_mines_loop fuel b mines new_mines draws
    = shuffle_mines_loop fuel' b mines new_mines draws.
Proof.
  induction fuel as [|fuel IH]; intros fuel' new_mines draws Hf Hf'.
  - destruct draws; [|simpl in Hf; lia].
    destruct fuel'; simpl; case_decide; done.
  - destruct fuel' as [|fuel'].
    + destruct draws; [|simpl in Hf'; lia]. simpl. case_decide; done.
    + simpl. case_decide; [|done].
      destruct (generate_mines b 4 draws) as [[nm dr]|] eqn:Hgen; simpl; [|done].
      apply generate_mines_loop_rest in Hgen as [_ Hlt].
      rewrite size_empty in Hlt. specialize (Hlt ltac:(lia)).
      apply IH; lia.
Qed.

(** ** The shortcut to a winning move *)

Lemma for_return_app {A R} (xs ys : list A) (body : A → option (option R)) :
  for_return (xs ++ ys) body
  = r ← for_return xs body;
    match r with
    | Some v => Some (Some v)
    | None => for_return ys body
    end.
Proof.
  induction xs as [|x xs IH]; simpl.
  - by destruct (for_return ys body) as [[?|]|].
  - destruct (body x) as [[v|]|]; simpl; [done|apply IH|done].
Qed.

Lemma for_return_first {A R} (xs : list A) (body : A → option (option R))
    (f : A → option R) :
  (∀ x, x ∈ xs → body x = Some (f x)) →
  for_return xs body = Some (head (omap f xs)).
Proof.
  induction xs as [|x xs IH]; intros Hbody; simpl; [done|].
  rewrite Hbody by left. simpl. destruct (f x) as [v|]; [done|].
  apply IH. intros y Hy. apply Hbody. by right.
Qed.

Lemma find_winning_move_row (k : Color) (rw : list cell)
    (body : Piece.t → option (option (Piece.t * move))) :
  for_return rw (λ c,
    match c with
    | Some piece =>
        if decide (Piece.color piece = k) then body piece else Some None
    | None => Some None
    end)
  = for_return (filter (λ piece, Piece.color piece = k) (omap id rw)) body.
Proof.
  induction rw as [|[piece|] rw IH]; simpl; [done| |apply IH].
  rewrite filter_cons. destruct (decide (Piece.color piece = k)); simpl.
  - by rewrite IH.
  - apply IH.
Qed.

Lemma for_return_pieces (k : Color) (rows : list (list cell))
    (body : Piece.t → option (option (Piece.t * move))) :
  for_return rows (λ rw,
    for_return rw (λ c,
      match c with
      | Some piece =>
          if decide (Piece.color piece = k) then body piece else Some None
      | None => Some None
      end))
  = for_return (pieces_of k rows) body.
Proof.
  unfold pieces_of. induction rows as [|rw rows IH]; simpl; [done|].
  by rewrite omap_app, filter_app, for_return_app, <-IH, find_winning_move_row.
Qed.

Lemma find_winning_move_flat (b : board) (mines : gset (Z * Z)) :
  find_winning_move b mines
  = for_return (pieces_of BLUE b) (λ piece,
      moves ← get_valid_moves piece b mines;
      for_return moves (λ mv,
        if decide (mv.1 = ROWS - 1) then Some (Some (piece, mv))
        else Some None)).
Proof. unfold find_winning_move. by rewrite for_return_pieces. Qed.

Lemma find_winning_move_first (b : board) (mines : gset (Z * Z)) :
  board_shape b →
  find_winning_move b mines
  = Some (head (omap (λ piece, first_winning piece b mines) (pieces_of BLUE b))).
Proof.
  intros Hb. rewrite find_winning_move_flat. apply for_return_first.
  intros piece _. unfold first_winning, moves_of.
  rewrite get_valid_moves_shape by done. simpl.
  apply for_return_first. intros mv _. unfold lands_last. by case_decide.
Qed.

Lemma first_winning_Some (b : board) (mines : gset (Z * Z)) (piece : Piece.t)
    (pm : Piece.t * move) :
  board_shape b →
  first_winning piece b mines = Some pm →
  pm.1 = piece ∧ pm.2 ∈ valid_moves_spec piece b mines ∧ pm.2.1 = ROWS - 1.
Proof.
  intros Hb Hfirst. unfold first_winning, moves_of in Hfirst.
  rewrite get_valid_moves_shape in Hfirst by done. simpl in Hfirst.
  apply head_Some_elem_of, list_elem_of_omap in Hfirst as (mv & Hmv & Hl).
  unfold lands_last in Hl. case_decide; [|done]. by injection Hl as <-.
Qed.

Lemma first_winning_is_Some (b : board) (mines : gset (Z * Z)) (piece : Piece.t)
    (mv : move) :
  board_shape b →
  mv ∈ valid_moves_spec piece b mines → mv.1 = ROWS - 1 →
  is_Some (first_winning piece b mines).
Proof.
  intros Hb Hmv Hlast. unfold first_winning, moves_of.
  rewrite get_valid_moves_shape by done. simpl.
  apply head_is_Some. intros Hnil.
  assert (Hin : (piece, mv) ∈ omap (lands_last piece) (valid_moves_spec piece b mines)).
  { apply list_elem_of_omap. exists mv. split; [done|].
    unfold lands_last. by rewrite decide_True. }
  rewrite Hnil in Hin. by apply elem_of_nil in Hin.
Qed.

(** C7.  On a board of [ROWS] rows of [COLS] cells: a pair that
    [find_winning_move] returns is a Blue piece of the board with one of
    its valid moves, landing on row [ROWS-1]; it returns such a pair
    whenever some Blue piece has such a move, and [None] when none has.
    In particular, when the only Blue piece stands on row [ROWS-2] and the
    cell straight ahead of it is a valid destination, it returns that
    piece with that move. *)
Theorem find_winning_move_correct (b : board) (mines : gset (Z * Z)) :
  board_shape b →
  (∀ pm, find_winning_move b mines = Some (Some pm) → winning_move b mines pm)
  ∧ ((∃ pm, winning_move b mines pm) →
     ∃ pm, find_winning_move b mines = Some (Some pm))
  ∧ ((¬ ∃ pm, winning_move b mines pm) → find_winning_move b mines = Some None)
  ∧ (∀ piece,
       pieces_of BLUE b = [piece] → Piece.row piece = ROWS - 2 →
       destination_ok piece b mines (ROWS - 1, Piece.col piece) →
       find_winning_move b mines
         = Some (Some (piece, (ROWS - 1, Piece.col piece)))).
Proof.
  intros Hb. rewrite find_winning_move_first by done.
  assert (Hsound : ∀ pm,
            head (omap (λ piece, first_winning piece b mines) (pieces_of BLUE b))
              = Some pm → winning_move b mines pm).
  { intros pm Hpm.
    apply head_Some_elem_of, list_elem_of_omap in Hpm as (piece & Hpiece & Hf).
    apply first_winning_Some in Hf as (<- & Hmv & Hlast); [|done].
    split; [done|]. split; [|done].
    exists (valid_moves_spec pm.1 b mines).
    by rewrite get_valid_moves_shape. }
  assert (Hcomplete : (∃ pm, winning_move b mines pm) →
            is_Some (head (omap (λ piece, first_winning piece b mines)
                             (pieces_of BLUE b)))).
  { intros ([piece mv] & Hpiece & (moves & Hmoves & Hmv) & Hlast).
    simpl in *. rewrite get_valid_moves_shape in Hmoves by done.
    injection Hmoves as <-.
    destruct (first_winning_is_Some b mines piece mv Hb Hmv Hlast) as [pm Hpm].
    apply head_is_Some. intros Hnil.
    assert (Hin : pm ∈ omap (λ piece, first_winning piece b mines)
                         (pieces_of BLUE b)).
    { apply list_elem_of_omap. by exists piece. }
    rewrite Hnil in Hin. by apply elem_of_nil in Hin. }
  split; [|split; [|split]].
  - intros pm [= Hpm]. by apply Hsound.
  - intros Hex. destruct (Hcomplete Hex) as [pm Hpm]. exists pm. by rewrite Hpm.
  - intros Hno.
    destruct (head _) as [pm|] eqn:Hpm; [|done].
    destruct Hno. exists pm. by apply Hsound.
  - intros piece Hpieces Hrow Hok. rewrite Hpieces. simpl.
    assert (Hblue : Piece.color piece = BLUE).
    { assert (Hin : piece ∈ pieces_of BLUE b) by (rewrite Hpieces; left).
      unfold pieces_of in Hin. by apply list_elem_of_filter in Hin as [? _]. }
    unfold first_winning, moves_of.
    rewrite get_valid_moves_shape by done. unfold valid_moves_spec.
    rewrite Hblue. simpl offsets.
    replace (Piece.row piece + 1) with (ROWS - 1) by lia.
    by rewrite filter_cons, decide_True by done.
Qed.

Lemma find_winning_move_correct_witness :
  board_shape one_step_left
  ∧ pieces_of BLUE one_step_left = [Piece.make 4 2 BLUE]
  ∧ find_winning_move one_step_left some_mines
    = Some (Some (Piece.make 4 2 BLUE, (5, 2))).
Proof.
  assert (Hb : board_shape one_step_left).
  { apply wf_board_check_sound. vm_compute. reflexivity. }
  assert (Hp : pieces_of BLUE one_step_left = [Piece.make 4 2 BLUE])
    by (vm_compute; reflexivity).
  split; [exact Hb|]. split; [exact Hp|].
  destruct (find_winning_move_correct one_step_left some_mines Hb)
    as (_ & _ & _ & Hone).
  apply (Hone (Piece.make 4 2 BLUE) Hp eq_refl).
  split; [unfold ROWS, COLS; simpl; lia|]. split; [|by vm_compute].
  vm_compute. intros H. discriminate H.
Defined.

(** ** Pruning on the abstract game tree *)

Ltac score_fin :=
  simplify_eq/=; try done; try lia; try (f_equal; lia).

Ltac score_cases :=
  repeat match goal with x : score |- _ => destruct x end;
  unfold within, smax, smin in *; simpl in *;
  repeat case_decide; score_fin;
  try solve [ left; repeat split; score_fin
            | right; repeat split; score_fin
            | repeat split; intros; score_fin ].

Lemma score_lt_not_le (x y : score) : score_lt x y ↔ ¬ score_le y x.
Proof. score_cases; tauto. Qed.

Lemma score_le_trans (x y z : score) : score_le x y → score_le y z → score_le x z.
Proof. intros. score_cases. Qed.

Lemma smax_le_l (x y : score) : score_le x (smax x y).
Proof. score_cases. Qed.

Lemma smax_le_r (x y : score) : score_le y (smax x y).
Proof. score_cases. Qed.

Lemma smax_assoc (x y z : score) : smax x (smax y z) = smax (smax x y) z.
Proof. score_cases. Qed.

Lemma smax_absorb (x y : score) : score_le y x → smax x y = x.
Proof. intros. score_cases. Qed.

Lemma smax_lt (x y z : score) : score_lt x z → score_lt y z → score_lt (smax x y) z.
Proof. intros. score_cases. Qed.

Lemma smin_le_l (x y : score) : score_le (smin x y) x.
Proof. score_cases. Qed.

Lemma smin_le_r (x y : score) : score_le (smin x y) y.
Proof. score_cases. Qed.

Lemma smin_assoc (x y z : score) : smin x (smin y z) = smin (smin x y) z.
Proof. score_cases. Qed.

Lemma smin_absorb (x y : score) : score_le x y → smin x y = x.
Proof. intros. score_cases. Qed.

Lemma smin_lt (x y z : score) : score_lt z x → score_lt z y → score_lt z (smin x y).
Proof. intros. score_cases. Qed.

Lemma foldl_smax_le {A} (t : A → score) (grp : list A) (seen : score) :
  score_le seen (foldl (λ acc c, smax acc (t c)) seen grp).
Proof.
  revert seen. induction grp as [|c grp IH]; intros seen; simpl.
  - clear. score_cases.
  - eapply score_le_trans; [apply smax_le_l|apply IH].
Qed.

Lemma foldl_smin_le {A} (t : A → score) (grp : list A) (seen : score) :
  score_le (foldl (λ acc c, smin acc (t c)) seen grp) seen.
Proof.
  revert seen. induction grp as [|c grp IH]; intros seen; simpl.
  - clear. score_cases.
  - eapply score_le_trans; [apply IH|apply smin_le_l].
Qed.

Lemma within_cases (alpha beta exact v : score) :
  within alpha beta exact v →
  (score_le exact alpha ∧ score_le v alpha)
  ∨ (score_le beta exact ∧ score_le beta v)
  ∨ (score_lt alpha exact ∧ score_lt exact beta ∧ v = exact).
Proof.
  intros (Hlow & Hhigh & Hin).
  destruct (decide (score_le exact alpha)) as [H1|H1]; [left; auto|].
  destruct (decide (score_le beta exact)) as [H2|H2]; [right; left; auto|].
  right. right. apply score_lt_not_le in H1, H2. auto.
Qed.

Lemma max_inv_step (alpha0 beta seen exact eval : score) (st : score * score) :
  (score_lt st.2 beta → within st.2 beta exact eval) →
  max_inv alpha0 beta seen st →
  max_inv alpha0 beta (smax seen exact) (smax st.1 eval, smax st.2 eval).
Proof.
  destruct st as [m al]. unfold max_inv. simpl.
  intros Hw [(-> & Hlt & Heq)|[Hm Hseen]].
  - specialize (Hw Hlt).
    apply within_cases in Hw as [[H1 H2]|[[H1 H2]|(H1 & H2 & ->)]].
    + left. rewrite !smax_assoc, <-Heq.
      by rewrite (smax_absorb _ eval), (smax_absorb _ exact) by done.
    + right. split; (eapply score_le_trans; [|apply smax_le_r]; done).
    + left. rewrite !smax_assoc, <-Heq. split; [done|]. split; [|done].
      by apply smax_lt.
  - right. split; (eapply score_le_trans; [|apply smax_le_l]; done).
Qed.

Lemma max_inv_cut (alpha0 beta seen seen' : score) (st : score * score) :
  max_inv alpha0 beta seen st → score_le beta st.2 → score_le seen seen' →
  max_inv alpha0 beta seen' st.
Proof.
  destruct st as [m al]. unfold max_inv. simpl.
  intros [(_ & Hlt & _)|[Hm Hseen]] Hcut Hle.
  - apply score_lt_not_le in Hlt. by destruct Hlt.
  - right. split; [done|]. exact (score_le_trans _ _ _ Hseen Hle).
Qed.

Lemma min_inv_step (alpha beta0 seen exact eval : score) (st : score * score) :
  (score_lt alpha st.2 → within alpha st.2 exact eval) →
  min_inv alpha beta0 seen st →
  min_inv alpha beta0 (smin seen exact) (smin st.1 eval, smin st.2 eval).
Proof.
  destruct st as [m be]. unfold min_inv. simpl.
  intros Hw [(-> & Hlt & Heq)|[Hm Hseen]].
  - specialize (Hw Hlt).
    apply within_cases in Hw as [[H1 H2]|[[H1 H2]|(H1 & H2 & ->)]].
    + right. split; (eapply score_le_trans; [apply smin_le_r|]; done).
    + left. rewrite !smin_assoc, <-Heq.
      by rewrite (smin_absorb _ eval), (smin_absorb _ exact) by done.
    + left. rewrite !smin_assoc, <-Heq. split; [done|]. split; [|done].
      by apply smin_lt.
  - right. split; (eapply score_le_trans; [apply smin_le_l|]; done).
Qed.

Lemma min_inv_cut (alpha beta0 seen seen' : score) (st : score * score) :
  min_inv alpha beta0 seen st → score_le st.2 alpha → score_le seen' seen →
  min_inv alpha beta0 seen' st.
Proof.
  destruct st as [m be]. unfold min_inv. simpl.
  intros [(_ & Hlt & _)|[Hm Hseen]] Hcut Hle.
  - apply score_lt_not_le in Hlt. by destruct Hlt.
  - right. split; [done|]. exact (score_le_trans _ _ _ Hle Hseen).
Qed.

Lemma max_inv_within (alpha beta seen : score) (st : score * score) :
  max_inv alpha beta seen st → score_lt alpha beta →
  within alpha beta seen st.1.
Proof.
  destruct st as [m al]. unfold max_inv. simpl.
  intros [(-> & Hlt & Heq)|[Hm Hseen]] Hab.
  - clear -Hlt Heq Hab. score_cases.
  - clear -Hm Hseen Hab. score_cases.
Qed.

Lemma min_inv_within (alpha beta seen : score) (st : score * score) :
  min_inv alpha beta seen st → score_lt alpha beta →
  within alpha beta seen st.1.
Proof.
  destruct st as [m be]. unfold min_inv. simpl.
  intros [(-> & Hlt & Heq)|[Hm Hseen]] Hab.
  - clear -Hlt Heq Hab. score_cases.
  - clear -Hm Hseen Hab. score_cases.
Qed.

Lemma within_exact (alpha beta v : score) : within alpha beta v v.
Proof. by unfold within. Qed.

Lemma within_full_window (exact v : score) :
  within NegInf PosInf exact v → v = exact.
Proof. intros (Hlow & Hhigh & Hin). destruct exact, v; simpl in *; auto; tauto. Qed.

Section Pruning.
Context {node : Type}.
Variable terminal : node → option score.
Variable static : node → score.
Variable kids : bool → node → list (list node).

Lemma group_max_inv (rec : node → score → score) (t : node → score)
    (alpha0 beta : score) :
  (∀ c a, score_lt a beta → within a beta (t c) (rec c a)) →
  ∀ grp st seen, max_inv alpha0 beta seen st →
    max_inv alpha0 beta (foldl (λ acc c, smax acc (t c)) seen grp)
      (group_max rec beta grp st).
Proof.
  intros Hrec. induction grp as [|c grp IH]; intros st seen Hinv; simpl; [done|].
  pose proof (max_inv_step alpha0 beta seen (t c) (rec c st.2) st
                (Hrec c st.2) Hinv) as Hstep.
  case_decide as Hcut.
  - eapply max_inv_cut; [exact Hstep|exact Hcut|apply foldl_smax_le].
  - by apply IH.
Qed.

Lemma group_min_inv (rec : node → score → score) (t : node → score)
    (alpha beta0 : score) :
  (∀ c be, score_lt alpha be → within alpha be (t c) (rec c be)) →
  ∀ grp st seen, min_inv alpha beta0 seen st →
    min_inv alpha beta0 (foldl (λ acc c, smin acc (t c)) seen grp)
      (group_min rec alpha grp st).
Proof.
  intros Hrec. induction grp as [|c grp IH]; intros st seen Hinv; simpl; [done|].
  pose proof (min_inv_step alpha beta0 seen (t c) (rec c st.2) st
                (Hrec c st.2) Hinv) as Hstep.
  case_decide as Hcut.
  - eapply min_inv_cut; [exact Hstep|exact Hcut|apply foldl_smin_le].
  - by apply IH.
Qed.

Lemma groups_max_inv (rec : node → score → score) (t : node → score)
    (alpha0 beta : score) :
  (∀ c a, score_lt a beta → within a beta (t c) (rec c a)) →
  ∀ groups st seen, max_inv alpha0 beta seen st →
    max_inv alpha0 beta
      (foldl (λ acc grp, foldl (λ acc c, smax acc (t c)) acc grp) seen groups)
      (foldl (λ st grp, group_max rec beta grp st) st groups).
Proof.
  intros Hrec. induction groups as [|grp groups IH]; intros st seen Hinv;
    simpl; [done|].
  apply IH. by apply group_max_inv.
Qed.

Lemma groups_min_inv (rec : node → score → score) (t : node → score)
    (alpha beta0 : score) :
  (∀ c be, score_lt alpha be → within alpha be (t c) (rec c be)) →
  ∀ groups st seen, min_inv alpha beta0 seen st →
    min_inv alpha beta0
      (foldl (λ acc grp, foldl (λ acc c, smin acc (t c)) acc grp) seen groups)
      (foldl (λ st grp, group_min rec alpha grp st) st groups).
Proof.
  intros Hrec. induction groups as [|grp groups IH]; intros st seen Hinv;
    simpl; [done|].
  apply IH. by apply group_min_inv.
Qed.

(** The pruned search keeps the contract of its window at every depth,
    although a cut-off ends the moves of one piece only and the first
    move of each later piece is still searched. *)
Lemma alphabeta_within (d : nat) :
  ∀ n alpha beta mx, score_lt alpha beta →
    within alpha beta (fullsearch terminal static kids d n mx)
      (alphabeta terminal static kids d n alpha beta mx).
Proof.
  induction d as [|d IH]; intros n alpha beta mx Hab; simpl;
    destruct (terminal n); try apply within_exact.
  destruct mx.
  - apply max_inv_within; [|done]. apply groups_max_inv.
    + intros c a Ha. by apply IH.
    + left. simpl. split; [|done]. clear. by destruct alpha.
  - apply min_inv_within; [|done]. apply groups_min_inv.
    + intros c a Ha. by apply IH.
    + left. simpl. split; [|done]. clear. by destruct beta.
Qed.

(** With the full window the pruned search returns the exact value. *)
Lemma alphabeta_fullsearch (d : nat) (n : node) (mx : bool) :
  alphabeta terminal static kids d n NegInf PosInf mx
  = fullsearch terminal static kids d n mx.
Proof. apply within_full_window, alphabeta_within. done. Qed.

End Pruning.

(** ** Moves on well-formed boards *)

Lemma for_return_is_Some {A R} (xs : list A) (body : A → option (option R)) :
  (∀ x, x ∈ xs → is_Some (body x)) → is_Some (for_return xs body).
Proof.
  induction xs as [|x xs IH]; intros Hbody; simpl; [done|].
  destruct (Hbody x) as [[v|] ->]; [left|done|]. simpl.
  apply IH. intros y Hy. apply Hbody. by right.
Qed.

Lemma check_win_condition_total (b : board) :
  board_shape b → is_Some (check_win_condition b).
Proof.
  intros Hb. apply for_return_is_Some. intros c Hc.
  apply elem_of_seqZ in Hc.
  destruct (board_get_is_Some b 0 c Hb) as [top ->]; [by compute|lia|].
  simpl. destruct (is_color top RED); [done|].
  destruct (board_get_is_Some b (ROWS - 1) c Hb) as [bottom ->];
    [by compute|lia|].
  simpl. by destruct (is_color bottom BLUE).
Qed.

Lemma elem_of_pieces_of (k : Color) (b : board) (piece : Piece.t) :
  piece ∈ pieces_of k b ↔
  Piece.color piece = k
  ∧ ∃ (i j : nat) rw, b !! i = Some rw ∧ rw !! j = Some (Some piece).
Proof.
  unfold pieces_of. rewrite list_elem_of_filter, list_elem_of_omap.
  split.
  - intros (Hk & c & Hc & Hid). simpl in Hid. subst c. split; [done|].
    apply list_elem_of_In, in_concat in Hc as (rw & Hrw & Hc).
    apply list_elem_of_In, list_elem_of_lookup in Hrw as [i Hi].
    apply list_elem_of_In, list_elem_of_lookup in Hc as [j Hj].
    by exists i, j, rw.
  - intros (Hk & i & j & rw & Hi & Hj). split; [done|].
    exists (Some piece). split; [|done].
    apply list_elem_of_In, in_concat. exists rw.
    split; apply list_elem_of_In; by eapply list_elem_of_lookup_2.
Qed.

Lemma pieces_of_position (k : Color) (b : board) (piece : Piece.t) :
  wf_board b → piece ∈ pieces_of k b →
  (0 ≤ Piece.row piece < ROWS ∧ 0 ≤ Piece.col piece < COLS)
  ∧ ∃ rw, b !! Z.to_nat (Piece.row piece) = Some rw
          ∧ rw !! Z.to_nat (Piece.col piece) = Some (Some piece).
Proof.
  intros [[Hlen Hrows] Hplaced] (_ & i & j & rw & Hi & Hj)%elem_of_pieces_of.
  destruct (Hplaced i j rw piece Hi Hj) as [-> ->].
  pose proof (lookup_lt_Some _ _ _ Hi) as Hlti.
  pose proof (lookup_lt_Some _ _ _ Hj) as Hltj.
  assert (Hrw : length rw = Z.to_nat COLS)
    by (apply Hrows; by eapply list_elem_of_lookup_2).
  unfold ROWS, COLS in *.
  split; [lia|]. exists rw. by rewrite !Nat2Z.id.
Qed.

Lemma board_set_shape (b : board) (r c : Z) (x : cell) :
  board_shape b → 0 ≤ r < ROWS → 0 ≤ c < COLS →
  ∃ rw, b !! Z.to_nat r = Some rw
        ∧ board_set b r c x
          = Some (<[Z.to_nat r := <[Z.to_nat c := x]> rw]> b).
Proof.
  intros Hb Hr Hc.
  destruct (board_shape_row b r Hb Hr) as (rw & Hrw & Hlen).
  exists rw. split; [done|]. unfold board_set, setitem.
  rewrite getitem_in_range, Hrw; [|destruct Hb as [-> _]; unfold ROWS in *; lia].
  simpl. rewrite (py_index_in_range rw c) by (rewrite Hlen; unfold COLS in *; lia).
  simpl. rewrite (py_index_in_range b r); [done|].
  destruct Hb as [-> _]. unfold ROWS in *. lia.
Qed.

Lemma wf_board_put (b : board) (i j : nat) (rw : list cell) (x : cell) :
  wf_board b → b !! i = Some rw →
  (∀ piece, x = Some piece →
     Piece.row piece = Z.of_nat i ∧ Piece.col piece = Z.of_nat j) →
  wf_board (<[i := <[j := x]> rw]> b).
Proof.
  intros [[Hlen Hrows] Hplaced] Hi Hx. split; [split|].
  - by rewrite length_insert.
  - intros rw' [k Hk]%list_elem_of_lookup.
    apply list_lookup_insert_Some in Hk as [(_ & <- & _)|[_ Hk]].
    + rewrite length_insert. apply Hrows. by eapply list_elem_of_lookup_2.
    + apply Hrows. by eapply list_elem_of_lookup_2.
  - intros k l rw' piece Hk Hl.
    apply list_lookup_insert_Some in Hk as [(<- & <- & _)|[_ Hk]].
    + apply list_lookup_insert_Some in Hl as [(<- & Hp & _)|[_ Hl]].
      * by apply Hx.
      * by eapply Hplaced.
    + by eapply Hplaced.
Qed.

Lemma apply_move_wf (k : Color) (b : board) (mines : gset (Z * Z))
    (piece : Piece.t) (mv : move) :
  wf_board b → piece ∈ pieces_of k b → mv ∈ moves_of piece b mines →
  ∃ nb, apply_move b piece mv = Some nb ∧ wf_board nb
        ∧ board_after b piece mv = nb.
Proof.
  intros Hwf Hpiece Hmv. unfold moves_of in Hmv.
  rewrite get_valid_moves_shape in Hmv by apply Hwf. simpl in Hmv.
  apply list_elem_of_filter in Hmv as [([Hr Hc] & _) _].
  destruct (pieces_of_position k b piece Hwf Hpiece) as ([Hpr Hpc] & _).
  unfold board_after, apply_move.
  destruct (board_set_shape b (Piece.row piece) (Piece.col piece) None)
    as (rw & Hrw & ->); [apply Hwf|done..|]. simpl.
  assert (Hwf1 : wf_board (<[Z.to_nat (Piece.row piece) :=
                   <[Z.to_nat (Piece.col piece) := None]> rw]> b))
    by by apply wf_board_put.
  destruct (board_set_shape _ mv.1 mv.2
              (Some (Piece.make mv.1 mv.2 (Piece.color piece))) (proj1 Hwf1))
    as (rw1 & Hrw1 & ->); [done..|]. simpl.
  eexists. split; [done|]. split; [|done].
  apply wf_board_put; [done..|]. intros ? [= <-]. simpl. lia.
Qed.

Lemma moves_of_shape (piece : Piece.t) (b : board) (mines : gset (Z * Z)) :
  board_shape b → get_valid_moves piece b mines = Some (moves_of piece b mines).
Proof.
  intros Hb. unfold moves_of. by rewrite get_valid_moves_shape.
Qed.

(** ** The searches on well-formed boards are those of the game tree *)

Lemma for_each_fold {A S} (xs : list A) (body : A → S → option S)
    (g : A → S → S) :
  (∀ x st, x ∈ xs → body x st = Some (g x st)) →
  ∀ st, for_each xs body st = Some (foldl (λ st x, g x st) st xs).
Proof.
  induction xs as [|x xs IH]; intros Hbody st; simpl; [done|].
  rewrite Hbody by left. simpl. apply IH. intros y st' Hy. apply Hbody. by right.
Qed.

Lemma for_break_group_max {A node} (rec : node → score → score) (beta : score)
    (h : A → node) (moves : list A)
    (body : A → score * score → option (flow (score * score))) :
  (∀ mv st, mv ∈ moves →
     body mv st
     = let st' := (smax st.1 (rec (h mv) st.2), smax st.2 (rec (h mv) st.2)) in
       Some (if decide (score_le beta st'.2) then Break st' else Next st')) →
  ∀ st, for_break moves body st = Some (group_max rec beta (h <$> moves) st).
Proof.
  induction moves as [|mv moves IH]; intros Hbody st; simpl; [done|].
  rewrite Hbody by left. simpl. case_decide; [done|].
  apply IH. intros mv' st' Hmv'. apply Hbody. by right.
Qed.

Lemma for_break_group_min {A node} (rec : node → score → score) (alpha : score)
    (h : A → node) (moves : list A)
    (body : A → score * score → option (flow (score * score))) :
  (∀ mv st, mv ∈ moves →
     body mv st
     = let st' := (smin st.1 (rec (h mv) st.2), smin st.2 (rec (h mv) st.2)) in
       Some (if decide (score_le st'.2 alpha) then Break st' else Next st')) →
  ∀ st, for_break moves body st = Some (group_min rec alpha (h <$> moves) st).
Proof.
  induction moves as [|mv moves IH]; intros Hbody st; simpl; [done|].
  rewrite Hbody by left. simpl. case_decide; [done|].
  apply IH. intros mv' st' Hmv'. apply Hbody. by right.
Qed.

Lemma board_terminal_win (b : board) (w : option string) :
  check_win_condition b = Some w →
  board_terminal b = (λ s, leaf_value b (Some s)) <$> w.
Proof. intros Hw. unfold board_terminal. rewrite Hw. by destruct w. Qed.

(** On a well-formed board [minimax] raises nothing and returns the
    value of the pruned search of the game tree. *)
Lemma minimax_alphabeta (mines : gset (Z * Z)) (d : nat) :
  ∀ (b : board) (alpha beta : score) (mx : bool),
    wf_board b →
    minimax b d alpha beta mx mines
    = Some (alphabeta board_terminal board_static (board_kids mines)
              d b alpha beta mx).
Proof.
  induction d as [|d IH]; intros b alpha beta mx Hwf;
    destruct (check_win_condition_total b (proj1 Hwf)) as [w Hw];
    simpl; rewrite Hw, (board_terminal_win b w Hw); simpl.
  { by destruct w. }
  destruct w as [s|]; [done|]. simpl.
  destruct mx; rewrite for_pieces_flat.
  - erewrite for_each_fold; [unfold board_kids; by rewrite foldl_fmap|].
    intros piece st Hpiece. simpl.
    rewrite moves_of_shape by apply Hwf. simpl.
    apply (for_break_group_max
             (λ c a, alphabeta board_terminal board_static (board_kids mines)
                       d c a beta false) beta (board_after b piece)).
    intros mv [m al] Hmv.
    destruct (apply_move_wf BLUE b mines piece mv Hwf Hpiece Hmv)
      as (nb & -> & Hnb & ->). simpl.
    rewrite IH by done. simpl. by case_decide.
  - erewrite for_each_fold; [unfold board_kids; by rewrite foldl_fmap|].
    intros piece st Hpiece. simpl.
    rewrite moves_of_shape by apply Hwf. simpl.
    apply (for_break_group_min
             (λ c be, alphabeta board_terminal board_static (board_kids mines)
                        d c alpha be true) alpha (board_after b piece)).
    intros mv [m be] Hmv.
    destruct (apply_move_wf RED b mines piece mv Hwf Hpiece Hmv)
      as (nb & -> & Hnb & ->). simpl.
    rewrite IH by done. simpl. by case_decide.
Qed.

(** Likewise for the recursion without pruning. *)
Lemma minimax_unpruned_fullsearch (mines : gset (Z * Z)) (d : nat) :
  ∀ (b : board) (mx : bool),
    wf_board b →
    minimax_unpruned b d mx mines
    = Some (fullsearch board_terminal board_static (board_kids mines) d b mx).
Proof.
  induction d as [|d IH]; intros b mx Hwf;
    destruct (check_win_condition_total b (proj1 Hwf)) as [w Hw];
    simpl; rewrite Hw, (board_terminal_win b w Hw); simpl.
  { by destruct w. }
  destruct w as [s|]; [done|]. simpl.
  destruct mx; rewrite for_pieces_flat.
  - erewrite for_each_fold; [unfold board_kids; by rewrite foldl_fmap|].
    intros piece st Hpiece. simpl.
    rewrite moves_of_shape by apply Hwf. simpl.
    erewrite for_each_fold; [by rewrite foldl_fmap|].
    intros mv acc Hmv. simpl.
    destruct (apply_move_wf BLUE b mines piece mv Hwf Hpiece Hmv)
      as (nb & -> & Hnb & ->). simpl. by rewrite IH.
  - erewrite for_each_fold; [unfold board_kids; by rewrite foldl_fmap|].
    intros piece st Hpiece. simpl.
    rewrite moves_of_shape by apply Hwf. simpl.
    erewrite for_each_fold; [by rewrite foldl_fmap|].
    intros mv acc Hmv. simpl.
    destruct (apply_move_wf RED b mines piece mv Hwf Hpiece Hmv)
      as (nb & -> & Hnb & ->). simpl. by rewrite IH.
Qed.

(** With the full window, [minimax] and the unpruned recursion return the
    same value on every well-formed board, at every depth. *)
Lemma minimax_full_window (mines : gset (Z * Z)) (d : nat) (b : board)
    (mx : bool) :
  wf_board b →
  minimax b d NegInf PosInf mx mines = minimax_unpruned b d mx mines
  ∧ is_Some (minimax b d NegInf PosInf mx mines).
Proof.
  intros Hwf.
  rewrite minimax_alphabeta, minimax_unpruned_fullsearch by done.
  by rewrite alphabeta_fullsearch.
Qed.

(** ** The loops of [best_move] *)

Lemma score_le_antisym (x y : score) : score_le x y → score_le y x → x = y.
Proof. intros. score_cases. Qed.

Lemma score_le_refl (x : score) : score_le x x.
Proof. score_cases. Qed.

Lemma smax_lub (x y z : score) : score_le x z → score_le y z → score_le (smax x y) z.
Proof. intros. score_cases. Qed.

Lemma foldl_smax_ge (l : list score) (x : score) :
  x ∈ l → ∀ a, score_le x (foldl smax a l).
Proof.
  induction l as [|y l IH]; intros Hx a; [by apply elem_of_nil in Hx|].
  simpl. apply elem_of_cons in Hx as [->|Hx]; [|by apply IH].
  eapply score_le_trans; [apply smax_le_r|].
  apply (foldl_smax_le id l).
Qed.

Lemma max_score_ge (l : list score) (x : score) :
  x ∈ l → score_le x (max_score l).
Proof. intros Hx. by apply foldl_smax_ge. Qed.

Lemma foldl_smax_lub (l : list score) (z : score) :
  (∀ x, x ∈ l → score_le x z) → ∀ a, score_le a z → score_le (foldl smax a l) z.
Proof.
  induction l as [|y l IH]; intros Hl a Ha; simpl; [done|].
  apply IH; [intros x Hx; apply Hl; by right|].
  apply smax_lub; [done|]. apply Hl. by left.
Qed.

Lemma foldl_smax_attained (l : list score) (a : score) :
  foldl smax a l = a ∨ foldl smax a l ∈ l.
Proof.
  revert a. induction l as [|y l IH]; intros a; simpl; [by left|].
  destruct (IH (smax a y)) as [->|Hin]; [|right; by right].
  unfold smax. case_decide; [right; left|by left].
Qed.

Lemma max_score_attained (l : list score) : l ≠ [] → max_score l ∈ l.
Proof.
  intros Hne. destruct (foldl_smax_attained l NegInf) as [Heq|Hin]; [|done].
  unfold max_score. rewrite Heq. destruct l as [|x l]; [done|].
  assert (Hx : score_le x NegInf).
  { rewrite <-Heq. apply foldl_smax_ge. left. }
  destruct x; try done. left.
Qed.

Lemma max_score_snoc (l : list score) (x : score) :
  max_score (l ++ [x]) = smax (max_score l) x.
Proof. unfold max_score. by rewrite foldl_app. Qed.

Lemma filter_none {A} (P : A → Prop) `{∀ x, Decision (P x)} (l : list A) :
  (∀ x, x ∈ l → ¬ P x) → filter P l = [].
Proof.
  induction l as [|x l IH]; intros Hl; [done|].
  rewrite filter_cons_False by (apply Hl; left).
  apply IH. intros y Hy. apply Hl. by right.
Qed.

Lemma best_step_prefix (sc : Piece.t * move → score)
    (pre : list (Piece.t * move)) (c : Piece.t * move) :
  best_step (sc c) c (max_score (sc <$> pre), maximal_candidates sc pre)
  = (max_score (sc <$> pre ++ [c]), maximal_candidates sc (pre ++ [c])).
Proof.
  unfold best_step, maximal_candidates. simpl.
  rewrite fmap_app. simpl. rewrite max_score_snoc.
  set (M := max_score (sc <$> pre)).
  rewrite filter_app, filter_cons, filter_nil.
  assert (Hpre : ∀ x, x ∈ pre → score_le (sc x) M).
  { intros x Hx. apply max_score_ge. by apply list_elem_of_fmap_2. }
  unfold smax. destruct (decide (score_lt M (sc c))) as [Hlt|Hnlt].
  - rewrite decide_True by done. rewrite filter_none; [done|].
    intros x Hx Heq. specialize (Hpre x Hx). rewrite Heq in Hpre.
    by apply score_lt_not_le in Hlt.
  - destruct (decide (sc c = M)) as [Heq|Hne]; [done|].
    by rewrite app_nil_r.
Qed.

Lemma best_loop (sc : Piece.t * move → score) (cs : list (Piece.t * move))
    (body : Piece.t * move → score * list (Piece.t * move)
            → option (score * list (Piece.t * move))) :
  (∀ c st, c ∈ cs → body c st = Some (best_step (sc c) c st)) →
  ∀ pre,
    for_each cs body (max_score (sc <$> pre), maximal_candidates sc pre)
    = Some (max_score (sc <$> pre ++ cs), maximal_candidates sc (pre ++ cs)).
Proof.
  induction cs as [|c cs IH]; intros Hbody pre; simpl.
  - by rewrite app_nil_r.
  - rewrite Hbody by left. simpl. rewrite best_step_prefix.
    rewrite IH, <-app_assoc; [done|].
    intros c' st Hc'. apply Hbody. by right.
Qed.

Lemma for_each_bind {A B S} (xs : list A) (f : A → list B)
    (body : B → S → option S) (st : S) :
  for_each (xs ≫= f) body st = for_each xs (λ x st, for_each (f x) body st) st.
Proof.
  revert st. induction xs as [|x xs IH]; intros st; [done|].
  rewrite bind_cons, for_each_app. simpl.
  destruct (for_each (f x) body st); simpl; [apply IH|done].
Qed.

Lemma elem_of_candidates (b : board) (mines : gset (Z * Z))
    (c : Piece.t * move) :
  c ∈ candidates b mines ↔ c.1 ∈ pieces_of BLUE b ∧ c.2 ∈ moves_of c.1 b mines.
Proof.
  unfold candidates. rewrite list_elem_of_bind. split.
  - intros (piece & (mv & Hc & Hmv)%list_elem_of_bind & Hpiece).
    apply list_elem_of_singleton in Hc as ->. done.
  - intros [Hpiece Hmv]. exists c.1. split; [|done].
    apply list_elem_of_bind. exists c.2. split; [|done].
    destruct c. by left.
Qed.

(** On a well-formed board the loops of [best_move] leave the largest
    score and the candidates that reach it, in the order of enumeration,
    whenever the evaluation [search] answers on the boards the candidates
    lead to. *)
Lemma best_moves_with_maximal (search : board → option score)
    (sc : Piece.t * move → score) (b : board) (mines : gset (Z * Z)) :
  wf_board b →
  (∀ c, c ∈ candidates b mines → search (board_after b c.1 c.2) = Some (sc c)) →
  best_moves_with search b mines
  = Some (max_score (sc <$> candidates b mines),
          maximal_candidates sc (candidates b mines)).
Proof.
  intros Hwf Hsearch. unfold best_moves_with. rewrite for_pieces_flat.
  set (body := λ (c : Piece.t * move) (st : score * list (Piece.t * move)),
       new_board ← apply_move b c.1 c.2;
       eval ← search new_board;
       if decide (score_lt st.1 eval) then Some (eval, [c])
       else if decide (eval = st.1)
       then Some (st.1, st.2 ++ [c])
       else Some (st.1, st.2)).
  trans (for_each (candidates b mines) body (NegInf, [])).
  - unfold candidates. rewrite for_each_bind.
    apply for_each_ext. intros piece st Hpiece.
    rewrite moves_of_shape by apply Hwf. simpl.
    rewrite for_each_bind. apply for_each_ext. intros mv st' Hmv. simpl.
    destruct st' as [be bm]. unfold body. simpl.
    destruct (apply_move b piece mv) as [nb|]; simpl; [|done].
    destruct (search nb); simpl; [|done]. by repeat case_decide.
  - apply (best_loop sc (candidates b mines) body) with (pre := []).
    intros c [be bm] Hc. pose proof Hc as [Hpiece Hmv]%elem_of_candidates.
    destruct (apply_move_wf BLUE b mines c.1 c.2 Hwf Hpiece Hmv)
      as (nb & Hnb & _ & Hafter).
    unfold body. rewrite Hnb. simpl. rewrite <-Hafter, Hsearch by done. simpl.
    unfold best_step. simpl. by repeat case_decide.
Qed.

(** ** Pruned and unpruned search choose alike *)

Lemma candidate_scores (b : board) (mines : gset (Z * Z)) (c : Piece.t * move) :
  wf_board b → c ∈ candidates b mines →
  ∃ nb, apply_move b c.1 c.2 = Some nb
        ∧ wf_board nb
        ∧ minimax nb 3 NegInf PosInf false mines = Some (candidate_score b mines c)
        ∧ minimax_unpruned nb 3 false mines = Some (candidate_score b mines c).
Proof.
  intros Hwf [Hpiece Hmv]%elem_of_candidates.
  destruct (apply_move_wf BLUE b mines c.1 c.2 Hwf Hpiece Hmv)
    as (nb & Hnb & Hwfnb & Hafter).
  exists nb. split; [done|]. split; [done|].
  unfold candidate_score. rewrite Hafter.
  destruct (minimax_full_window mines 3 nb false Hwfnb) as [Heq [v Hv]].
  rewrite <-Heq, Hv. done.
Qed.

(** C1.  On a well-formed board, for every (Blue piece, destination)
    pair that [best_move] enumerates, the call of [minimax] with depth 3
    and the window [(-inf, +inf)] returns what the same recursion without
    [alpha], [beta] and the [break] returns; the best score and the list
    of the candidates that reach it are the same under both searches, and
    so is the choice made from that list. *)
Theorem pruning_preserves_choice (b : board) (mines : gset (Z * Z)) :
  wf_board b →
  (∀ piece moves mv,
     piece ∈ pieces_of BLUE b → get_valid_moves piece b mines = Some moves →
     mv ∈ moves →
     ∃ nb v, apply_move b piece mv = Some nb
             ∧ minimax nb 3 NegInf PosInf false mines = Some v
             ∧ minimax_unpruned nb 3 false mines = Some v)
  ∧ (∃ best_eval best_moves,
       best_moves_with (λ nb, minimax nb 3 NegInf PosInf false mines) b mines
         = Some (best_eval, best_moves)
       ∧ best_moves_with (λ nb, minimax_unpruned nb 3 false mines) b mines
         = Some (best_eval, best_moves))
  ∧ ∀ draw, best_move draw b mines = best_move_unpruned draw b mines.
Proof.
  intros Hwf.
  assert (Hpruned :
    best_moves_with (λ nb, minimax nb 3 NegInf PosInf false mines) b mines
    = Some (max_score (candidate_score b mines <$> candidates b mines),
            maximal_candidates (candidate_score b mines) (candidates b mines))).
  { apply best_moves_with_maximal; [done|]. intros c Hc.
    destruct (candidate_scores b mines c Hwf Hc) as (nb & Hnb & _ & Hv & _).
    unfold board_after. by rewrite Hnb. }
  assert (Hunpruned :
    best_moves_with (λ nb, minimax_unpruned nb 3 false mines) b mines
    = Some (max_score (candidate_score b mines <$> candidates b mines),
            maximal_candidates (candidate_score b mines) (candidates b mines))).
  { apply best_moves_with_maximal; [done|]. intros c Hc.
    destruct (candidate_scores b mines c Hwf Hc) as (nb & Hnb & _ & _ & Hv).
    unfold board_after. by rewrite Hnb. }
  split; [|split].
  - intros piece moves mv Hpiece Hmoves Hmv.
    rewrite moves_of_shape in Hmoves by apply Hwf. injection Hmoves as <-.
    destruct (candidate_scores b mines (piece, mv) Hwf)
      as (nb & Hnb & _ & Hv & Hu); [by apply elem_of_candidates|].
    by exists nb, (candidate_score b mines (piece, mv)).
  - eauto.
  - intros draw. unfold best_move, best_move_unpruned.
    by rewrite Hpruned, Hunpruned.
Qed.

Lemma pruning_preserves_choice_witness :
  wf_board create_board
  ∧ best_move 0 create_board some_mines
    = best_move_unpruned 0 create_board some_mines.
Proof.
  assert (Hwf : wf_board create_board).
  { apply wf_board_check_sound. vm_compute. reflexivity. }
  split; [exact Hwf|].
  exact (proj2 (proj2 (pruning_preserves_choice create_board some_mines Hwf)) 0%nat).
Defined.

(** ** The choice of [best_move] *)

Lemma NoDup_row_pieces (rw : list cell) (j0 : nat) :
  (∀ (j : nat) piece, rw !! j = Some (Some piece) →
     Piece.col piece = Z.of_nat (j0 + j)) →
  NoDup (omap id rw).
Proof.
  revert j0. induction rw as [|c rw IH]; intros j0 Hcols; simpl; [constructor|].
  assert (Hrest : NoDup (omap id rw)).
  { apply (IH (S j0)). intros j piece Hj.
    rewrite (Hcols (S j) piece Hj). f_equal. lia. }
  destruct c as [piece|]; simpl; [|done].
  constructor; [|done].
  intros (c & Hc & Hid)%list_elem_of_omap. simpl in Hid. subst c.
  apply list_elem_of_lookup in Hc as [j Hj].
  pose proof (Hcols 0%nat piece eq_refl) as H0.
  pose proof (Hcols (S j) piece Hj) as H1. lia.
Qed.

Lemma NoDup_rows_pieces (rows : list (list cell)) (i0 : nat) :
  (∀ (i j : nat) rw piece, rows !! i = Some rw → rw !! j = Some (Some piece) →
     Piece.row piece = Z.of_nat (i0 + i) ∧ Piece.col piece = Z.of_nat j) →
  NoDup (omap id (concat rows)).
Proof.
  revert i0. induction rows as [|rw rows IH]; intros i0 Hplaced; simpl;
    [constructor|].
  rewrite omap_app. apply NoDup_app. split; [|split].
  - apply (NoDup_row_pieces rw 0). intros j piece Hj.
    by destruct (Hplaced 0%nat j rw piece eq_refl Hj).
  - intros piece (c & Hc & Hid)%list_elem_of_omap
      (c' & Hc' & Hid')%list_elem_of_omap.
    simpl in *. subst c c'.
    apply list_elem_of_lookup in Hc as [j Hj].
    apply list_elem_of_In, in_concat in Hc' as (rw' & Hrw' & Hc').
    apply list_elem_of_In, list_elem_of_lookup in Hrw' as [i Hi].
    apply list_elem_of_In, list_elem_of_lookup in Hc' as [j' Hj'].
    destruct (Hplaced 0%nat j rw piece eq_refl Hj) as [H0 _].
    destruct (Hplaced (S i) j' rw' piece Hi Hj') as [H1 _]. lia.
  - apply (IH (S i0)). intros i j rw' piece Hi Hj.
    destruct (Hplaced (S i) j rw' piece Hi Hj) as [-> ->].
    split; [f_equal; lia|done].
Qed.

Lemma NoDup_pieces_of (k : Color) (b : board) :
  wf_board b → NoDup (pieces_of k b).
Proof.
  intros [_ Hplaced]. apply NoDup_filter, (NoDup_rows_pieces b 0).
  intros i j rw piece Hi Hj. by destruct (Hplaced i j rw piece Hi Hj).
Qed.

Lemma NoDup_offsets (k : Color) (r c : Z) : NoDup (offsets k r c).
Proof.
  destruct k; simpl;
    repeat (constructor;
            [rewrite ?elem_of_cons, elem_of_nil;
             intros Hin; decompose [or] Hin; simplify_eq; lia|]);
    constructor.
Qed.

Lemma NoDup_candidates (b : board) (mines : gset (Z * Z)) :
  wf_board b → NoDup (candidates b mines).
Proof.
  intros Hwf. unfold candidates. apply NoDup_bind.
  - intros p1 p2 c _ _ (mv1 & Hc1 & _)%list_elem_of_bind
      (mv2 & Hc2 & _)%list_elem_of_bind.
    apply list_elem_of_singleton in Hc1, Hc2. congruence.
  - intros piece Hpiece. apply NoDup_bind.
    + intros mv1 mv2 c _ _ Hc1 Hc2.
      apply list_elem_of_singleton in Hc1, Hc2. congruence.
    + intros mv _. apply NoDup_singleton.
    + unfold moves_of. rewrite get_valid_moves_shape by apply Hwf. simpl.
      apply NoDup_filter, NoDup_offsets.
  - by apply NoDup_pieces_of.
Qed.

Lemma elem_of_maximal_candidates (sc : Piece.t * move → score)
    (cs : list (Piece.t * move)) (c : Piece.t * move) :
  c ∈ maximal_candidates sc cs ↔
  c ∈ cs ∧ ∀ c', c' ∈ cs → score_le (sc c') (sc c).
Proof.
  unfold maximal_candidates. rewrite list_elem_of_filter. split.
  - intros [Hmax Hc]. split; [done|]. intros c' Hc'. rewrite Hmax.
    apply max_score_ge. by apply list_elem_of_fmap_2.
  - intros [Hc Hmax]. split; [|done]. apply score_le_antisym.
    + apply max_score_ge. by apply list_elem_of_fmap_2.
    + apply foldl_smax_lub; [|done].
      intros x (c' & -> & Hc')%list_elem_of_fmap. by apply Hmax.
Qed.

Lemma maximal_candidates_nonempty (sc : Piece.t * move → score)
    (cs : list (Piece.t * move)) :
  cs ≠ [] → maximal_candidates sc cs ≠ [].
Proof.
  intros Hne Hnil.
  assert (Hin : max_score (sc <$> cs) ∈ sc <$> cs).
  { apply max_score_attained. by destruct cs. }
  apply list_elem_of_fmap in Hin as (c & Hc & Hin).
  assert (Hmax : c ∈ maximal_candidates sc cs).
  { unfold maximal_candidates. by apply list_elem_of_filter. }
  rewrite Hnil in Hmax. by apply elem_of_nil in Hmax.
Qed.

(** C4.  On a well-formed board, the candidates are the pairs of a Blue
    piece of the board and one of its valid moves, each scored by
    [minimax] at depth 3 with the window [(-inf, +inf)] on the board the
    move leads to.  [best_move] returns [None] exactly when there is no
    candidate.  Otherwise it returns the entry that the draw of
    [random.choice] picks in the list [best] of the candidates whose score
    no candidate exceeds; [best] names every such candidate exactly once,
    so a uniform draw of the position makes a uniform choice among
    them. *)
Theorem best_move_maximal (draw : nat) (b : board) (mines : gset (Z * Z)) :
  wf_board b →
  let cs := candidates b mines in
  let sc := candidate_score b mines in
  let best := maximal_candidates sc cs in
  (∀ c, c ∈ cs ↔
     c.1 ∈ pieces_of BLUE b
     ∧ ∃ moves, get_valid_moves c.1 b mines = Some moves ∧ c.2 ∈ moves)
  ∧ (∀ c, c ∈ cs →
       ∃ nb, apply_move b c.1 c.2 = Some nb
             ∧ minimax nb 3 NegInf PosInf false mines = Some (sc c))
  ∧ (best_move draw b mines = Some None ↔ cs = [])
  ∧ (∀ c, c ∈ best ↔ c ∈ cs ∧ ∀ c', c' ∈ cs → score_le (sc c') (sc c))
  ∧ NoDup best
  ∧ (cs ≠ [] →
     ∃ c, best !! (draw `mod` length best)%nat = Some c
          ∧ best_move draw b mines = Some (Some c)).
Proof.
  intros Hwf cs sc best.
  assert (Hbest : best_move draw b mines
                  = Some (match best with
                          | [] => None
                          | _ => random_choice draw best
                          end)).
  { unfold best_move. rewrite (best_moves_with_maximal _ sc) by
      (try done; intros c Hc;
       destruct (candidate_scores b mines c Hwf Hc) as (nb & Hnb & _ & Hv & _);
       unfold board_after; by rewrite Hnb).
    simpl. fold cs best. by destruct best. }
  assert (Hpick : best ≠ [] → is_Some (best !! (draw `mod` length best)%nat)).
  { intros Hne. apply lookup_lt_is_Some_2, Nat.mod_upper_bound.
    by destruct best. }
  split; [|split; [|split; [|split; [|split]]]].
  - intros c. unfold cs. rewrite elem_of_candidates. split.
    + intros [Hpiece Hmv]. split; [done|]. exists (moves_of c.1 b mines).
      split; [|done]. apply moves_of_shape, Hwf.
    + intros (Hpiece & moves & Hmoves & Hmv). split; [done|].
      rewrite moves_of_shape in Hmoves by apply Hwf. by injection Hmoves as <-.
  - intros c Hc.
    destruct (candidate_scores b mines c Hwf Hc) as (nb & Hnb & _ & Hv & _).
    by exists nb.
  - rewrite Hbest. split.
    + intros Hnone. destruct (decide (cs = [])) as [|Hne]; [done|].
      pose proof (maximal_candidates_nonempty sc cs Hne) as Hbne. fold best in Hbne.
      destruct (Hpick Hbne) as [c Hc]. unfold random_choice in Hnone.
      rewrite Hc in Hnone. by destruct best.
    + intros Hnil. unfold best. by rewrite Hnil.
  - apply elem_of_maximal_candidates.
  - apply NoDup_filter. by apply NoDup_candidates.
  - intros Hne.
    pose proof (maximal_candidates_nonempty sc cs Hne) as Hbne. fold best in Hbne.
    destruct (Hpick Hbne) as [c Hc]. exists c. split; [done|].
    rewrite Hbest. unfold random_choice. rewrite Hc. by destruct best.
Qed.

Lemma best_move_maximal_witness :
  wf_board create_board
  ∧ (best_move 7 create_board some_mines = Some None
     ↔ candidates create_board some_mines = [])
  ∧ NoDup (maximal_candidates (candidate_score create_board some_mines)
             (candidates create_board some_mines)).
Proof.
  assert (Hwf : wf_board create_board).
  { apply wf_board_check_sound. vm_compute. reflexivity. }
  split; [exact Hwf|].
  destruct (best_move_maximal 7 create_board some_mines Hwf)
    as (_ & _ & Hnone & _ & Hnodup & _).
  split; [exact Hnone | exact Hnodup].
Defined.

Example best_move_create_board :
  best_move 7 create_board some_mines
  = Some (Some (Piece.make 0 3 BLUE, (1, 4))).
Proof. vm_compute. reflexivity. Qed.

(** ** The recorded search *)

Lemma for_each_sim {A S T} (π : T → S) (xs : list A)
    (body' : A → T → option T) (body : A → S → option S) :
  (∀ x st, x ∈ xs → π <$> body' x st = body x (π st)) →
  ∀ st, π <$> for_each xs body' st = for_each xs body (π st).
Proof.
  induction xs as [|x xs IH]; intros Hbody st; simpl; [done|].
  rewrite <-Hbody by left.
  destruct (body' x st) as [st'|]; simpl; [|done].
  apply IH. intros y st'' Hy. apply Hbody. by right.
Qed.

Lemma for_break_sim {A S T} (π : T → S) (xs : list A)
    (body' : A → T → option (flow T)) (body : A → S → option (flow S)) :
  (∀ x st, x ∈ xs → flow_map π <$> body' x st = body x (π st)) →
  ∀ st, π <$> for_break xs body' st = for_break xs body (π st).
Proof.
  induction xs as [|x xs IH]; intros Hbody st; simpl; [done|].
  rewrite <-Hbody by left.
  destruct (body' x st) as [[st'|st']|]; simpl; [|done..].
  apply IH. intros y st'' Hy. apply Hbody. by right.
Qed.

Lemma for_each_inv {A S} (I : S → Prop) (xs : list A)
    (body : A → S → option S) :
  (∀ x st st', x ∈ xs → I st → body x st = Some st' → I st') →
  ∀ st st', I st → for_each xs body st = Some st' → I st'.
Proof.
  induction xs as [|x xs IH]; intros Hbody st st' Hst; simpl.
  - by intros [= <-].
  - destruct (body x st) as [st1|] eqn:Hx; simpl; [|done].
    apply IH; [|by eapply Hbody; [left|..]].
    intros y s s' Hy. apply Hbody. by right.
Qed.

Lemma for_break_inv {A S} (I : S → Prop) (xs : list A)
    (body : A → S → option (flow S)) :
  (∀ x st f, x ∈ xs → I st → body x st = Some f → I (flow_state f)) →
  ∀ st st', I st → for_break xs body st = Some st' → I st'.
Proof.
  induction xs as [|x xs IH]; intros Hbody st st' Hst; simpl.
  - by intros [= <-].
  - destruct (body x st) as [f|] eqn:Hx; simpl; [|done].
    pose proof (Hbody x st f ltac:(left) Hst Hx) as Hf.
    destruct f as [st1|st1]; simpl in Hf.
    + apply IH; [|done]. intros y s s' Hy. apply Hbody. by right.
    + by intros [= <-].
Qed.

(** The log is a ghost: the recorded search returns the score of
    [minimax], and raises where [minimax] raises. *)
Lemma minimax_trace_score (mines : gset (Z * Z)) (d : nat) :
  ∀ (b : board) (ply : nat) (alpha beta : score) (mx : bool),
    fst <$> minimax_trace b d ply alpha beta mx mines
    = minimax b d alpha beta mx mines.
Proof.
  induction d as [|d IH]; intros b ply alpha beta mx; simpl;
    destruct (check_win_condition b) as [w|]; simpl; try done.
  destruct w as [s|]; [done|].
  destruct mx; rewrite !for_pieces_flat.
  - match goal with
    | |- _ <$> (_ <$> for_each ?xs ?body' ?st') = _ <$> for_each _ ?body ?st =>
        trans (fst <$> (fst <$> for_each xs body' st'));
          [by destruct (for_each xs body' st') as [[[??]?]|]|];
        f_equal; apply (for_each_sim fst xs body' body)
    end.
    intros piece st _.
    destruct (get_valid_moves piece b mines) as [moves|]; simpl; [|done].
    apply for_break_sim. intros mv [[m al] log] _. simpl.
    destruct (apply_move b piece mv) as [nb|]; simpl; [|done].
    rewrite <-(IH nb (S ply)).
    destruct (minimax_trace nb d (S ply) al beta false mines) as [[e l]|];
      simpl; [|done].
    by case_decide.
  - match goal with
    | |- _ <$> (_ <$> for_each ?xs ?body' ?st') = _ <$> for_each _ ?body ?st =>
        trans (fst <$> (fst <$> for_each xs body' st'));
          [by destruct (for_each xs body' st') as [[[??]?]|]|];
        f_equal; apply (for_each_sim fst xs body' body)
    end.
    intros piece st _.
    destruct (get_valid_moves piece b mines) as [moves|]; simpl; [|done].
    apply for_break_sim. intros mv [[m be] log] _. simpl.
    destruct (apply_move b piece mv) as [nb|]; simpl; [|done].
    rewrite <-(IH nb (S ply)).
    destruct (minimax_trace nb d (S ply) alpha be true mines) as [[e l]|];
      simpl; [|done].
    by case_decide.
Qed.

(** Every board the search evaluates statically is undecided and lies
    exactly [depth] half-moves under the board the search started on. *)
Lemma minimax_trace_log (mines : gset (Z * Z)) (d : nat) :
  ∀ (b : board) (ply : nat) (alpha beta : score) (mx : bool) v log,
    minimax_trace b d ply alpha beta mx mines = Some (v, log) →
    ∀ e, e ∈ log →
      e.1 = (ply + d)%nat ∧ check_win_condition e.2 = Some None.
Proof.
  induction d as [|d IH]; intros b ply alpha beta mx v log; simpl;
    destruct (check_win_condition b) as [w|] eqn:Hw; simpl; try done.
  - intros [= <- <-] e He. unfold leaf_log in He.
    destruct (check_win_condition_cases b w Hw) as [->|[-> | ->]];
      simpl in He; try by apply elem_of_nil in He.
    apply list_elem_of_singleton in He as ->. simpl. split; [lia|done].
  - destruct w as [s|].
    { intros [= <- <-] e He. unfold leaf_log in He.
      destruct (check_win_condition_cases b _ Hw) as [?|[[= ->] | [= ->]]];
        [done|..]; simpl in He; by apply elem_of_nil in He. }
    set (I := λ st : score * score * list (nat * board),
           ∀ e, e ∈ st.2 →
             e.1 = (ply + S d)%nat ∧ check_win_condition e.2 = Some None).
    assert (Hstep : ∀ (st : score * score * list (nat * board)) nb a be mx' e l,
              I st → minimax_trace nb d (S ply) a be mx' mines = Some (e, l) →
              ∀ x y, I (x, y, st.2 ++ l)).
    { intros st nb a be mx' e l Hst Hrec x y e' [He'|He']%elem_of_app.
      - by apply Hst.
      - destruct (IH nb (S ply) a be mx' e l Hrec e' He') as [-> ?].
        split; [lia|done]. }
    destruct mx; rewrite for_pieces_flat.
    + destruct (for_each _ _ _) as [st|] eqn:Hloop; simpl; [|done].
      intros [= <- <-]. revert Hloop. apply (for_each_inv I).
      * intros piece s s' _ Hs.
        destruct (get_valid_moves piece b mines) as [moves|]; simpl; [|done].
        apply (for_break_inv I); [|done].
        intros mv [[m al] lg] f _ Hlg. simpl.
        destruct (apply_move b piece mv) as [nb|]; simpl; [|done].
        destruct (minimax_trace nb d (S ply) al beta false mines)
          as [[e l]|] eqn:Hrec; simpl; [|done].
        case_decide; intros [= <-]; simpl;
          exact (Hstep (m, al, lg) nb al beta false e l Hlg Hrec _ _).
      * intros e He. by apply elem_of_nil in He.
    + destruct (for_each _ _ _) as [st|] eqn:Hloop; simpl; [|done].
      intros [= <- <-]. revert Hloop. apply (for_each_inv I).
      * intros piece s s' _ Hs.
        destruct (get_valid_moves piece b mines) as [moves|]; simpl; [|done].
        apply (for_break_inv I); [|done].
        intros mv [[m be] lg] f _ Hlg. simpl.
        destruct (apply_move b piece mv) as [nb|]; simpl; [|done].
        destruct (minimax_trace nb d (S ply) alpha be true mines)
          as [[e l]|] eqn:Hrec; simpl; [|done].
        case_decide; intros [= <-]; simpl;
          exact (Hstep (m, be, lg) nb alpha be true e l Hlg Hrec _ _).
      * intros e He. by apply elem_of_nil in He.
Qed.

Lemma for_each_snoc {A B} (f : A → B) (xs : list A)
    (body : A → list B → option (list B)) :
  (∀ x acc, x ∈ xs → body x acc = Some (acc ++ [f x])) →
  ∀ acc, for_each xs body acc = Some (acc ++ (f <$> xs)).
Proof.
  induction xs as [|x xs IH]; intros Hbody acc; simpl.
  - by rewrite app_nil_r.
  - rewrite Hbody by left. simpl. rewrite IH, <-app_assoc; [done|].
    intros y acc' Hy. apply Hbody. by right.
Qed.

Lemma candidate_trace (b : board) (mines : gset (Z * Z)) (c : Piece.t * move) :
  wf_board b → c ∈ candidates b mines →
  ∃ nb, apply_move b c.1 c.2 = Some nb
        ∧ minimax_trace nb 3 1 NegInf PosInf false mines
          = Some (trace_of b mines c)
        ∧ minimax nb 3 NegInf PosInf false mines = Some (trace_of b mines c).1.
Proof.
  intros Hwf Hc.
  destruct (candidate_scores b mines c Hwf Hc) as (nb & Hnb & _ & Hv & _).
  exists nb. split; [done|].
  pose proof (minimax_trace_score mines 3 nb 1 NegInf PosInf false) as Hsim.
  unfold trace_of, board_after. rewrite Hnb.
  change (default b (Some nb)) with nb.
  destruct (minimax_trace nb 3 1 NegInf PosInf false mines) as [[v log]|].
  - change (Some v = minimax nb 3 NegInf PosInf false mines) in Hsim.
    split; [done|]. by rewrite <-Hsim.
  - change (None = minimax nb 3 NegInf PosInf false mines) in Hsim.
    by rewrite Hv in Hsim.
Qed.

Lemma best_move_trace_candidates (b : board) (mines : gset (Z * Z)) :
  wf_board b →
  best_move_trace b mines
  = Some ((λ c, (c.1, c.2, (trace_of b mines c).1, (trace_of b mines c).2))
            <$> candidates b mines).
Proof.
  intros Hwf. unfold best_move_trace. rewrite for_pieces_flat.
  set (body := λ (c : Piece.t * move)
                 (acc : list (Piece.t * move * score * list (nat * board))),
       new_board ← apply_move b c.1 c.2;
       '(eval, log) ← minimax_trace new_board 3 1 NegInf PosInf false mines;
       Some (acc ++ [(c.1, c.2, eval, log)])).
  trans (for_each (candidates b mines) body []).
  - unfold candidates. rewrite for_each_bind.
    apply for_each_ext. intros piece st Hpiece.
    rewrite moves_of_shape by apply Hwf. cbn -[minimax_trace].
    rewrite for_each_bind. apply for_each_ext. intros mv acc Hmv. cbn -[minimax_trace].
    unfold body. cbn -[minimax_trace].
    destruct (apply_move b piece mv) as [nb|]; cbn -[minimax_trace]; [|done].
    by destruct (minimax_trace nb 3 1 NegInf PosInf false mines) as [[??]|].
  - apply (for_each_snoc
             (λ c, (c.1, c.2, (trace_of b mines c).1, (trace_of b mines c).2))).
    intros c acc Hc.
    destruct (candidate_trace b mines c Hwf Hc) as (nb & Hnb & Htrace & _).
    unfold body. rewrite Hnb. cbn -[minimax_trace]. rewrite Htrace. cbn -[minimax_trace].
    by destruct (trace_of b mines c).
Qed.

(** C3, as the code has it.  [best_move] applies Blue's candidate move
    and then calls [minimax] with depth 3 on the resulting board: on a
    well-formed board, every board whose static evaluation is computed for
    a candidate is undecided and lies exactly 4 half-moves from the
    current position (the candidate's move, then Red, Blue and Red). *)
Theorem static_evaluations_at_ply_4 (b : board) (mines : gset (Z * Z)) :
  wf_board b →
  ∃ entries,
    best_move_trace b mines = Some entries
    ∧ (λ e, (e.1.1.1, e.1.1.2)) <$> entries = candidates b mines
    ∧ ∀ piece mv eval log, (piece, mv, eval, log) ∈ entries →
        (∃ nb, apply_move b piece mv = Some nb
               ∧ minimax nb 3 NegInf PosInf false mines = Some eval)
        ∧ ∀ ply pos, (ply, pos) ∈ log →
            ply = 4%nat ∧ check_win_condition pos = Some None.
Proof.
  intros Hwf. eexists. split; [by apply best_move_trace_candidates|]. split.
  - rewrite <-list_fmap_compose. simpl.
    rewrite <-(list_fmap_id (candidates b mines)) at 2.
    apply list_fmap_ext. by intros _ [??] _.
  - intros piece mv eval log (c & [= -> -> -> ->] & Hc)%list_elem_of_fmap.
    destruct (candidate_trace b mines c Hwf Hc) as (nb & Hnb & Htrace & Hv).
    split; [by exists nb|]. intros ply pos Hin.
    destruct (trace_of b mines c) as [v lg]. cbn [fst snd] in *.
    destruct (minimax_trace_log mines 3 nb 1 NegInf PosInf false v lg
                Htrace (ply, pos) Hin) as [Hply Hpos].
    cbn [fst snd] in *. by subst.
Qed.

Lemma static_evaluations_at_ply_4_witness :
  wf_board create_board
  ∧ ∃ entries,
      best_move_trace create_board some_mines = Some entries
      ∧ (λ e, (e.1.1.1, e.1.1.2)) <$> entries
        = candidates create_board some_mines.
Proof.
  assert (Hwf : wf_board create_board).
  { apply wf_board_check_sound. vm_compute. reflexivity. }
  split; [exact Hwf|].
  destruct (static_evaluations_at_ply_4 create_board some_mines Hwf)
    as (entries & Htrace & Hcs & _).
  exists entries. split; [exact Htrace | exact Hcs].
Defined.

(** C3 fails as stated: on the initial board, the first static evaluation
    made for the first candidate is that of an undecided board 4
    half-moves from the current position, beyond the 3 the claim
    allows. *)
Lemma static_evaluation_beyond_ply_3 :
  wf_board create_board
  ∧ ∃ entries piece mv eval log pos,
      best_move_trace create_board some_mines = Some entries
      ∧ (piece, mv, eval, log) ∈ entries
      ∧ (4%nat, pos) ∈ log
      ∧ check_win_condition pos = Some None
      ∧ ¬ (4 ≤ 3)%nat.
Proof.
  split; [apply wf_board_check_sound; vm_compute; reflexivity|].
  assert (Hfirst : first_evaluation create_board some_mines
                   = Some (4%nat, Some None)) by (vm_compute; reflexivity).
  unfold first_evaluation in Hfirst.
  destruct (best_move_trace create_board some_mines) as [entries|];
    simpl in Hfirst; [|done].
  destruct entries as [|[[[piece mv] eval] log] entries]; simpl in Hfirst;
    [done|].
  destruct log as [|[ply pos] log]; simpl in Hfirst; [done|].
  injection Hfirst as -> Hpos.
  exists ([(piece, mv, eval, (4%nat, pos) :: log)] ++ entries),
    piece, mv, eval, ((4%nat, pos) :: log), pos.
  split; [done|]. split; [left|]. split; [left|]. split; [done|lia].
Qed.

(** The fourth half-move decides the choice: in [fourth_ply_board] the
    capture [(1, 4) -> (2, 3)] is the only best move when the search
    after the candidate's move is cut at depth 2, and [best_move], with
    depth 3, does not choose it. *)
Example fourth_ply_decides :
  best_moves_with
    (λ nb, minimax nb 3 NegInf PosInf false fourth_ply_mines)
    fourth_ply_board fourth_ply_mines
  = Some (Fin (-1), [(Piece.make 1 2 BLUE, (1, 3));
                     (Piece.make 1 4 BLUE, (1, 3))])
  ∧ best_moves_with
      (λ nb, minimax nb 2 NegInf PosInf false fourth_ply_mines)
      fourth_ply_board fourth_ply_mines
    = Some (Fin 1, [(Piece.make 1 4 BLUE, (2, 3))]).
Proof. split; vm_compute; reflexivity. Qed.

(** * Further properties *)

(** ** Screen coordinates *)

(** X1.  A click on the centre of a piece, where [calc_pos] draws it, is
    mapped back to the cell of the piece by [get_row_col_from_mouse], for
    every row and column; and a point is mapped to the cell [(r, c)]
    exactly when it lies in the square of [SQUARE_SIZE] pixels whose
    top-left corner is [(SQUARE_SIZE * c, SQUARE_SIZE * r)], negative
    coordinates included. *)
Theorem mouse_finds_piece :
  (∀ piece,
     get_row_col_from_mouse (calc_pos piece) = (Piece.row piece, Piece.col piece))
  ∧ ∀ x y r c,
      get_row_col_from_mouse (x, y) = (r, c)
      ↔ SQUARE_SIZE * c ≤ x < SQUARE_SIZE * (c + 1)
        ∧ SQUARE_SIZE * r ≤ y < SQUARE_SIZE * (r + 1).
Proof.
  unfold get_row_col_from_mouse, calc_pos, SQUARE_SIZE. split.
  - intros [r c k]. simpl. change (100 `div` 2) with 50. f_equal.
    + symmetry. apply (Z.div_unique_pos _ 100 r 50); lia.
    + symmetry. apply (Z.div_unique_pos _ 100 c 50); lia.
  - intros x y r c. split.
    + intros [= <- <-].
      pose proof (Z.mul_div_le x 100 ltac:(lia)).
      pose proof (Z.mul_succ_div_gt x 100 ltac:(lia)).
      pose proof (Z.mul_div_le y 100 ltac:(lia)).
      pose proof (Z.mul_succ_div_gt y 100 ltac:(lia)). lia.
    + intros [Hx Hy]. f_equal.
      * symmetry. apply (Z.div_unique_pos _ 100 r (y - 100 * r)); lia.
      * symmetry. apply (Z.div_unique_pos _ 100 c (x - 100 * c)); lia.
Qed.

(** ** Terminal evaluator, continued *)

Lemma for_return_seqZ {R} (f : Z → option R) (body : Z → option (option R))
    (n : nat) :
  ∀ m : Z,
    (∀ c, m ≤ c < m + Z.of_nat n → body c = Some (f c)) →
    (for_return (seqZ m (Z.of_nat n)) body = Some None
     ↔ ∀ c, m ≤ c < m + Z.of_nat n → f c = None)
    ∧ ∀ v, for_return (seqZ m (Z.of_nat n)) body = Some (Some v)
           ↔ ∃ c, m ≤ c < m + Z.of_nat n ∧ f c = Some v
                  ∧ ∀ c', m ≤ c' < c → f c' = None.
Proof.
  induction n as [|n IH]; intros m Hbody.
  - simpl. split; [split; [intros _ c ?; lia|done]|].
    intros v. split; [done|]. intros (c & ? & _). lia.
  - rewrite seqZ_cons by lia. cbn [for_return].
    replace (Z.pred (Z.of_nat (S n))) with (Z.of_nat n) by lia.
    rewrite Hbody by lia. simpl.
    destruct (IH (Z.succ m)) as [IHnone IHsome].
    { intros c Hc. apply Hbody. lia. }
    destruct (f m) as [v0|] eqn:Hm.
    + split; [split; [done|]|].
      * intros Hall. rewrite Hall in Hm by lia. done.
      * intros v. split.
        -- intros [= <-]. exists m. split; [lia|]. split; [done|]. intros; lia.
        -- intros (c & Hc & Hcv & Hfirst).
           destruct (decide (c = m)) as [->|Hne]; [congruence|].
           rewrite Hfirst in Hm by lia. done.
    + split.
      * rewrite IHnone. split.
        -- intros Hall c Hc. destruct (decide (c = m)) as [->|Hne]; [done|].
           apply Hall. lia.
        -- intros Hall c Hc. apply Hall. lia.
      * intros v. rewrite IHsome. split.
        -- intros (c & Hc & Hcv & Hfirst). exists c. split; [lia|].
           split; [done|]. intros c' Hc'.
           destruct (decide (c' = m)) as [->|Hne]; [done|]. apply Hfirst. lia.
        -- intros (c & Hc & Hcv & Hfirst).
           destruct (decide (c = m)) as [->|Hne]; [congruence|].
           exists c. split; [lia|]. split; [done|]. intros c' Hc'.
           apply Hfirst. lia.
Qed.

Lemma occupies_board_get (b : board) (k : Color) (r c : Z) (x : cell) :
  board_get b r c = Some x → occupies b k r c ↔ is_color x k = true.
Proof.
  intros Hx. unfold occupies. rewrite Hx. split.
  - intros (y & [= <-] & Hy). by apply Is_true_true.
  - intros Hk. exists x. split; [done|]. by apply Is_true_true.
Qed.

Lemma occupies_is_color (b : board) (k : Color) (r c : Z) :
  occupies b k r c ↔ is_color (default None (board_get b r c)) k = true.
Proof.
  unfold occupies. destruct (board_get b r c) as [x|]; simpl.
  - split.
    + intros (y & [= <-] & Hy). by apply Is_true_true.
    + intros Hk. exists x. split; [done|]. by apply Is_true_true.
  - split; [by intros (? & ? & _)|done].
Qed.

Lemma column_verdict_None (b : board) (c : Z) :
  column_verdict b c = None
  ↔ ¬ occupies b RED 0 c ∧ ¬ occupies b BLUE (ROWS - 1) c.
Proof.
  unfold column_verdict. rewrite !occupies_is_color.
  destruct (is_color _ RED); [split; [done|by intros [[] _]]|].
  destruct (is_color _ BLUE); [split; [done|by intros [_ []]]|].
  split; [|done]. intros _. by split.
Qed.

Lemma column_verdict_lost (b : board) (c : Z) :
  column_verdict b c = Some You_lost
  ↔ occupies b BLUE (ROWS - 1) c ∧ ¬ occupies b RED 0 c.
Proof.
  unfold column_verdict. rewrite !occupies_is_color.
  destruct (is_color _ RED); [split; [done|by intros [_ []]]|].
  destruct (is_color _ BLUE); [|split; [done|by intros [? _]]].
  split; [|done]. intros _. by split.
Qed.

Lemma check_win_condition_verdict (b : board) (c : Z) :
  board_shape b → 0 ≤ c < 0 + Z.of_nat (Z.to_nat COLS) →
  (top ← board_get b 0 c;
   if is_color top RED then Some (Some You_won)
   else
     bottom ← board_get b (ROWS - 1) c;
     if is_color bottom BLUE then Some (Some You_lost) else Some None)
  = Some (column_verdict b c).
Proof.
  intros Hb Hc. unfold column_verdict.
  destruct (board_get_is_Some b 0 c Hb) as [top ->];
    [unfold ROWS; lia|unfold COLS in *; lia|].
  destruct (board_get_is_Some b (ROWS - 1) c Hb) as [bottom ->];
    [unfold ROWS; lia|unfold COLS in *; lia|].
  simpl. destruct (is_color top RED); [done|].
  by destruct (is_color bottom BLUE).
Qed.

(** X2.  On a board of [ROWS] rows of [COLS] cells,
    [check_win_condition] returns [None] exactly when no red piece stands
    on row 0 and no blue piece on row [ROWS-1]; it answers "You lost!"
    exactly when the first column, from the left, that has a red piece on
    row 0 or a blue piece on row [ROWS-1] has the blue piece and not the
    red one. *)
Theorem check_win_condition_first_column (b : board) :
  board_shape b →
  (check_win_condition b = Some None
   ↔ ∀ c, 0 ≤ c < COLS →
       ¬ occupies b RED 0 c ∧ ¬ occupies b BLUE (ROWS - 1) c)
  ∧ (check_win_condition b = Some (Some You_lost)
     ↔ ∃ c, 0 ≤ c < COLS
            ∧ (occupies b BLUE (ROWS - 1) c ∧ ¬ occupies b RED 0 c)
            ∧ ∀ c', 0 ≤ c' < c →
                ¬ occupies b RED 0 c' ∧ ¬ occupies b BLUE (ROWS - 1) c').
Proof.
  intros Hb. unfold check_win_condition.
  destruct (for_return_seqZ (column_verdict b) _ (Z.to_nat COLS) 0
              (λ c Hc, check_win_condition_verdict b c Hb Hc))
    as [Hnone Hsome].
  change (Z.of_nat (Z.to_nat COLS)) with COLS in *. split.
  - rewrite Hnone. by setoid_rewrite column_verdict_None.
  - rewrite Hsome. setoid_rewrite column_verdict_lost.
    by setoid_rewrite column_verdict_None.
Qed.

Lemma check_win_condition_first_column_witness :
  board_shape create_board
  ∧ check_win_condition create_board = Some None.
Proof.
  assert (Hb : board_shape create_board).
  { apply wf_board_check_sound. vm_compute. reflexivity. }
  split; [exact Hb|].
  apply (proj1 (check_win_condition_first_column create_board Hb)).
  intros c Hc. rewrite !occupies_is_color.
  assert (c = 0 ∨ c = 1 ∨ c = 2 ∨ c = 3 ∨ c = 4) as Hcases
    by (unfold COLS in Hc; lia).
  decompose [or] Hcases; subst c; by vm_compute.
Defined.

(** ** Elimination *)

Lemma count_pieces_length (k : Color) (b : board) :
  count_pieces k b = Z.of_nat (length (pieces_of k b)).
Proof.
  unfold count_pieces, pieces_of.
  induction (concat b) as [|[piece|] l IH]; [done|..]; cbn [foldr is_color].
  - change (omap id (Some piece :: l)) with (piece :: omap id l).
    rewrite filter_cons, IH.
    case_bool_decide; [rewrite decide_True by done|rewrite decide_False by done];
      cbn [length]; lia.
  - change (omap id (None :: l)) with (omap id l). rewrite IH. lia.
Qed.

Lemma no_pieces_no_move (b : board) (mines : gset (Z * Z)) (draw : nat) :
  pieces_of BLUE b = [] →
  find_winning_move b mines = Some None ∧ best_move draw b mines = Some None.
Proof.
  intros Hnone. split.
  - by rewrite find_winning_move_flat, Hnone.
  - unfold best_move, best_moves_with. by rewrite for_pieces_flat, Hnone.
Qed.

(** X3.  [check_no_pieces_left] answers "Red lost!" exactly when the
    board holds no red piece, also when it holds no blue piece either; it
    answers "Blue lost!" exactly when there are red pieces and no blue
    one, and [None] when both sides have pieces.  When it answers
    "Blue lost!", [find_winning_move] and [best_move] both return [None]
    without raising, whatever the shape of the board. *)
Theorem check_no_pieces_left_verdict (b : board) :
  (check_no_pieces_left b = Some Red_lost ↔ pieces_of RED b = [])
  ∧ (check_no_pieces_left b = Some Blue_lost
     ↔ pieces_of RED b ≠ [] ∧ pieces_of BLUE b = [])
  ∧ (check_no_pieces_left b = None
     ↔ pieces_of RED b ≠ [] ∧ pieces_of BLUE b ≠ [])
  ∧ (check_no_pieces_left b = Some Blue_lost →
     ∀ mines draw,
       find_winning_move b mines = Some None
       ∧ best_move draw b mines = Some None).
Proof.
  assert (Hverdict :
    check_no_pieces_left b
    = match pieces_of RED b, pieces_of BLUE b with
      | [], _ => Some Red_lost
      | _ :: _, [] => Some Blue_lost
      | _ :: _, _ :: _ => None
      end).
  { unfold check_no_pieces_left. rewrite !count_pieces_length.
    destruct (pieces_of RED b), (pieces_of BLUE b); simpl;
      repeat case_decide; try done; lia. }
  rewrite Hverdict. split; [|split; [|split]].
  - destruct (pieces_of RED b), (pieces_of BLUE b); by split.
  - destruct (pieces_of RED b), (pieces_of BLUE b); split;
      try done; by intros [??].
  - destruct (pieces_of RED b), (pieces_of BLUE b); split;
      try done; by intros [??].
  - intros Hlost mines draw. apply no_pieces_no_move.
    by destruct (pieces_of RED b), (pieces_of BLUE b).
Qed.

(** X4.  On a board of [ROWS] rows of [COLS] cells,
    [blue_shuffle_condition] returns without raising, and returns [True]
    exactly when a red piece stands on row 2 or [eval_value] is negative;
    the mine set plays no part. *)
Theorem blue_shuffle_condition_verdict (b : board) (mines : gset (Z * Z))
    (eval_value : Z) :
  board_shape b →
  ∃ answer,
    blue_shuffle_condition b mines eval_value = Some answer
    ∧ (answer = true
       ↔ (∃ c, 0 ≤ c < COLS ∧ occupies b RED 2 c) ∨ eval_value < 0)
    ∧ ∀ mines', blue_shuffle_condition b mines' eval_value = Some answer.
Proof.
  intros Hb. unfold blue_shuffle_condition.
  destruct (for_return_seqZ (red_on_row_2 b) (λ c,
              x ← board_get b 2 c;
              if is_color x RED then Some (Some true) else Some None)
              (Z.to_nat COLS) 0) as [Hnone Hsome].
  { intros c Hc. unfold red_on_row_2.
    destruct (board_get_is_Some b 2 c Hb) as [x ->];
      [unfold ROWS; lia|unfold COLS in *; lia|].
    simpl. by destruct (is_color x RED). }
  change (Z.of_nat (Z.to_nat COLS)) with COLS in *.
  assert (Hred : ∀ c, red_on_row_2 b c = Some true ↔ occupies b RED 2 c).
  { intros c. rewrite occupies_is_color. unfold red_on_row_2.
    by destruct (is_color _ RED). }
  assert (Hvalues : ∀ c v, red_on_row_2 b c = Some v → v = true).
  { intros c v. unfold red_on_row_2. destruct (is_color _ RED); congruence. }
  destruct (for_return _ _) as [[v|]|] eqn:Hloop; simpl.
  - exists v. split; [done|]. split; [|done].
    destruct (proj1 (Hsome v) eq_refl) as (c & Hc & Hcv & _).
    pose proof (Hvalues c v Hcv) as ->. split; [|done].
    intros _. left. exists c. split; [lia|]. by apply Hred.
  - pose proof (proj1 Hnone eq_refl) as Hall.
    exists (bool_decide (eval_value < 0)).
    split; [by case_decide; [rewrite bool_decide_eq_true_2|rewrite bool_decide_eq_false_2]|].
    split; [|by intros _; case_decide;
               [rewrite bool_decide_eq_true_2|rewrite bool_decide_eq_false_2]].
    rewrite bool_decide_eq_true. split; [by right|].
    intros [(c & Hc & Hocc)|?]; [|done].
    apply Hred in Hocc. rewrite Hall in Hocc by lia. done.
  - exfalso.
    assert (is_Some (for_return (seqZ 0 COLS) (λ c,
              x ← board_get b 2 c;
              if is_color x RED then Some (Some true) else Some None)))
      as [r Hr]; [|congruence].
    apply for_return_is_Some. intros c Hc. apply elem_of_seqZ in Hc.
    destruct (board_get_is_Some b 2 c Hb) as [x ->];
      [unfold ROWS; lia|lia|].
    simpl. by destruct (is_color x RED).
Qed.

Lemma blue_shuffle_condition_verdict_witness :
  board_shape create_board
  ∧ blue_shuffle_condition create_board some_mines (-1) = Some true.
Proof.
  assert (Hb : board_shape create_board).
  { apply wf_board_check_sound. vm_compute. reflexivity. }
  split; [exact Hb|].
  destruct (blue_shuffle_condition_verdict create_board some_mines (-1) Hb)
    as (answer & -> & Hanswer & _).
  f_equal. apply Hanswer. right. lia.
Defined.

(** ** The move generator, continued *)

Lemma for_each_sublist {A B} (f : A → B)
    (body : A → list B → option (list B)) (ds : list A) :
  (∀ d acc acc', body d acc = Some acc' → acc' = acc ∨ acc' = acc ++ [f d]) →
  ∀ acc res, for_each ds body acc = Some res →
    ∃ l, res = acc ++ l ∧ l `sublist_of` (f <$> ds).
Proof.
  intros Hbody. induction ds as [|d ds IH]; intros acc res; simpl.
  - intros [= <-]. exists []. by rewrite app_nil_r.
  - destruct (body d acc) as [acc1|] eqn:Hd; simpl; [|done].
    intros Hrest. destruct (IH acc1 res Hrest) as (l & -> & Hl).
    destruct (Hbody d acc acc1 Hd) as [-> | ->].
    + exists l. split; [done|]. by constructor.
    + exists (f d :: l). rewrite <-app_assoc. split; [done|]. by constructor.
Qed.

Lemma get_valid_moves_sublist (piece : Piece.t) (b : board)
    (mines : gset (Z * Z)) (moves : list move) :
  get_valid_moves piece b mines = Some moves →
  moves `sublist_of`
    offsets (Piece.color piece) (Piece.row piece) (Piece.col piece).
Proof.
  intros Hmoves. rewrite offsets_directions.
  apply (for_each_sublist
           (λ d, (Piece.row piece + d.1, Piece.col piece + d.2))) in Hmoves
    as (l & -> & Hl); [done|].
  intros d acc acc'. cbv zeta. case_decide; [|intros [= <-]; by left].
  destruct (board_get b _ _) as [[q|]|]; simpl; [|intros [= <-]; by right|done].
  case_decide; intros [= <-]; [by right|by left].
Qed.

(** X5.  Whatever the board, a list that [get_valid_moves] returns has at
    most five destinations and none twice; no destination is the cell the
    piece records, each lies in the same or a neighbouring column, and in
    the same row or the next one forward: a red piece never moves to a
    higher row, a blue piece never to a lower one. *)
Theorem get_valid_moves_steps (piece : Piece.t) (b : board)
    (mines : gset (Z * Z)) (moves : list move) :
  get_valid_moves piece b mines = Some moves →
  NoDup moves ∧ (length moves ≤ 5)%nat
  ∧ ∀ mv, mv ∈ moves →
      mv ≠ (Piece.row piece, Piece.col piece)
      ∧ Piece.col piece - 1 ≤ mv.2 ≤ Piece.col piece + 1
      ∧ (Piece.color piece = RED →
         Piece.row piece - 1 ≤ mv.1 ≤ Piece.row piece)
      ∧ (Piece.color piece = BLUE →
         Piece.row piece ≤ mv.1 ≤ Piece.row piece + 1).
Proof.
  intros Hsub%get_valid_moves_sublist. split; [|split].
  - eapply sublist_NoDup; [apply NoDup_offsets|exact Hsub].
  - apply sublist_length in Hsub. destruct (Piece.color piece); simpl in Hsub; lia.
  - intros mv Hmv. apply (elem_of_sublist _ _ _ Hmv) in Hsub. clear Hmv.
    rename Hsub into Hmv.
    destruct (Piece.color piece); simpl in Hmv;
      rewrite !elem_of_cons, elem_of_nil in Hmv;
      destruct Hmv as [->|[->|[->|[->|[->|[]]]]]]; simpl;
      (split; [intros [=]; lia|]); (split; [lia|]);
      split; intros; (done || lia).
Qed.

Lemma get_valid_moves_steps_witness :
  get_valid_moves (Piece.make 0 1 BLUE) create_board {[ (1, 1) ]}
    = Some [(1, 0); (1, 2)]
  ∧ NoDup [(1, 0); (1, 2)].
Proof.
  assert (Hmoves : get_valid_moves (Piece.make 0 1 BLUE) create_board {[ (1, 1) ]}
                   = Some [(1, 0); (1, 2)]) by (vm_compute; reflexivity).
  split; [exact Hmoves|].
  exact (proj1 (get_valid_moves_steps _ _ _ _ Hmoves)).
Defined.

(** ** Moving a piece *)

Lemma board_set_put (b : board) (r c : Z) (x : cell) :
  board_shape b → 0 ≤ r < ROWS → 0 ≤ c < COLS →
  board_set b r c x = Some (put b (Z.to_nat r) (Z.to_nat c) x).
Proof.
  intros Hb Hr Hc.
  destruct (board_set_shape b r c x Hb Hr Hc) as (rw & Hrw & ->).
  f_equal. unfold put. apply list_eq. intros i.
  destruct (decide (i = Z.to_nat r)) as [->|Hne].
  - rewrite list_lookup_alter_eq, Hrw. simpl.
    apply list_lookup_insert_eq. by eapply lookup_lt_Some.
  - by rewrite list_lookup_alter_ne, list_lookup_insert_ne.
Qed.

Lemma board_shape_put (b : board) (i j : nat) (x : cell) :
  board_shape b → board_shape (put b i j x).
Proof.
  intros [Hlen Hrows]. split; [by unfold put; rewrite length_alter|].
  intros rw [k Hk]%list_elem_of_lookup. unfold put in Hk.
  destruct (decide (k = i)) as [->|Hne].
  - rewrite list_lookup_alter_eq in Hk.
    destruct (b !! i) as [rw0|] eqn:Hi; simpl in Hk; [|done].
    injection Hk as <-. rewrite length_insert. apply Hrows.
    by eapply list_elem_of_lookup_2.
  - rewrite list_lookup_alter_ne in Hk by done. apply Hrows.
    by eapply list_elem_of_lookup_2.
Qed.

Lemma board_get_put (b : board) (i j : nat) (x : cell) (r c : Z) :
  board_shape b → 0 ≤ r < ROWS → 0 ≤ c < COLS →
  board_get (put b i j x) r c
  = if decide (Z.to_nat r = i ∧ Z.to_nat c = j) then Some x
    else board_get b r c.
Proof.
  intros Hb Hr Hc.
  destruct (board_get_lookup b r c Hb Hr Hc) as (rw & y & Hrw & Hy & Hget).
  destruct (board_get_lookup (put b i j x) r c) as (rw' & y' & Hrw' & Hy' & ->);
    [by apply board_shape_put|done..|].
  rewrite Hget. unfold put in Hrw'.
  destruct (decide (Z.to_nat r = i)) as [<-|Hne].
  - rewrite list_lookup_alter_eq, Hrw in Hrw'. injection Hrw' as <-.
    destruct (decide (Z.to_nat c = j)) as [<-|Hnej].
    + rewrite decide_True by done.
      rewrite list_lookup_insert_eq in Hy' by by eapply lookup_lt_Some.
      done.
    + rewrite decide_False by tauto.
      rewrite list_lookup_insert_ne in Hy' by done. congruence.
  - rewrite decide_False by tauto.
    rewrite list_lookup_alter_ne in Hrw' by done. congruence.
Qed.

Lemma put_commute (b : board) (i j i' j' : nat) (x y : cell) :
  (i, j) ≠ (i', j') →
  put (put b i j x) i' j' y = put (put b i' j' y) i j x.
Proof.
  intros Hne. unfold put.
  destruct (decide (i = i')) as [<-|Hi].
  - rewrite !list_alter_alter_eq. apply list_alter_ext; [|done].
    intros rw _. simpl. apply list_insert_insert_ne. congruence.
  - by rewrite list_alter_alter_ne.
Qed.

Lemma apply_move_put (k : Color) (b : board) (mines : gset (Z * Z))
    (piece : Piece.t) (mv : move) :
  wf_board b → piece ∈ pieces_of k b → mv ∈ moves_of piece b mines →
  apply_move b piece mv
  = Some (put (put b (Z.to_nat (Piece.row piece)) (Z.to_nat (Piece.col piece))
                 None)
            (Z.to_nat mv.1) (Z.to_nat mv.2)
            (Some (Piece.make mv.1 mv.2 (Piece.color piece)))).
Proof.
  intros Hwf Hpiece Hmv. unfold moves_of in Hmv.
  rewrite get_valid_moves_shape in Hmv by apply Hwf. simpl in Hmv.
  apply list_elem_of_filter in Hmv as [([Hr Hc] & _) _].
  destruct (pieces_of_position k b piece Hwf Hpiece) as ([Hpr Hpc] & _).
  unfold apply_move. rewrite board_set_put by (done || apply Hwf). simpl.
  by rewrite board_set_put by (done || apply board_shape_put, Hwf).
Qed.

Lemma put_insert (b : board) (i j : nat) (rw : list cell) (x : cell) :
  b !! i = Some rw → put b i j x = <[i := <[j := x]> rw]> b.
Proof.
  intros Hrw. unfold put. apply list_eq. intros k.
  destruct (decide (k = i)) as [->|Hne].
  - rewrite list_lookup_alter_eq, Hrw. simpl. symmetry.
    apply list_lookup_insert_eq. by eapply lookup_lt_Some.
  - by rewrite list_lookup_alter_ne, list_lookup_insert_ne.
Qed.

Lemma offsets_not_source (k : Color) (r c : Z) (mv : move) :
  mv ∈ offsets k r c → mv ≠ (r, c).
Proof.
  destruct k; simpl; rewrite !elem_of_cons, elem_of_nil;
    intros [->|[->|[->|[->|[->|[]]]]]] [=]; lia.
Qed.

(** What is known of a piece of the board and one of its valid moves. *)
Lemma valid_move_facts (k : Color) (b : board) (mines : gset (Z * Z))
    (piece : Piece.t) (moves : list move) (mv : move) :
  wf_board b → piece ∈ pieces_of k b →
  get_valid_moves piece b mines = Some moves → mv ∈ moves →
  mv ∈ moves_of piece b mines
  ∧ Piece.color piece = k
  ∧ (0 ≤ Piece.row piece < ROWS ∧ 0 ≤ Piece.col piece < COLS)
  ∧ (0 ≤ mv.1 < ROWS ∧ 0 ≤ mv.2 < COLS)
  ∧ (Z.to_nat (Piece.row piece), Z.to_nat (Piece.col piece))
    ≠ (Z.to_nat mv.1, Z.to_nat mv.2)
  ∧ board_get b (Piece.row piece) (Piece.col piece) = Some (Some piece)
  ∧ ∃ target, board_get b mv.1 mv.2 = Some target
              ∧ ∀ q, target = Some q → Piece.color q = opponent k.
Proof.
  intros Hwf Hpiece Hmoves Hmv.
  pose proof Hmoves as Hmoves'.
  rewrite moves_of_shape in Hmoves' by apply Hwf. injection Hmoves' as <-.
  split; [done|].
  pose proof Hpiece as [Hk _]%elem_of_pieces_of. split; [done|].
  destruct (pieces_of_position k b piece Hwf Hpiece)
    as ([Hpr Hpc] & rw & Hrw & Hcell).
  split; [done|].
  pose proof Hmv as Hspec. unfold moves_of in Hspec.
  rewrite get_valid_moves_shape in Hspec by apply Hwf. simpl in Hspec.
  apply list_elem_of_filter in Hspec as [([Hr Hc] & _ & Hfree) Hoff].
  split; [done|]. split.
  { apply offsets_not_source in Hoff. intros [= H1 H2]. apply Hoff.
    destruct mv as [r c]. simpl in *. f_equal; lia. }
  split.
  { destruct (board_get_lookup b _ _ (proj1 Hwf) Hpr Hpc)
      as (rw' & x & Hrw' & Hx & ->). congruence. }
  destruct (board_get b mv.1 mv.2) as [target|]; [|done].
  exists target. split; [done|]. intros q ->. simpl in Hfree.
  apply bool_decide_spec in Hfree. rewrite Hk in Hfree.
  destruct (Piece.color q), k; simpl; congruence.
Qed.

(** X6.  On a well-formed board, for a piece of the board and one of its
    valid moves, [apply_move] returns a well-formed board in which the
    cell the piece left is empty, the destination holds a piece of the
    same colour that records the destination, and every other cell is as
    it was. *)
Theorem apply_move_effect (k : Color) (b : board) (mines : gset (Z * Z))
    (piece : Piece.t) (moves : list move) (mv : move) :
  wf_board b → piece ∈ pieces_of k b →
  get_valid_moves piece b mines = Some moves → mv ∈ moves →
  ∃ nb, apply_move b piece mv = Some nb
        ∧ wf_board nb
        ∧ board_get nb (Piece.row piece) (Piece.col piece) = Some None
        ∧ board_get nb mv.1 mv.2
          = Some (Some (Piece.make mv.1 mv.2 (Piece.color piece)))
        ∧ ∀ r c, 0 ≤ r < ROWS → 0 ≤ c < COLS →
            (r, c) ≠ (Piece.row piece, Piece.col piece) → (r, c) ≠ mv →
            board_get nb r c = board_get b r c.
Proof.
  intros Hwf Hpiece Hmoves Hmv.
  destruct (valid_move_facts k b mines piece moves mv Hwf Hpiece Hmoves Hmv)
    as (Hmv' & _ & [Hpr Hpc] & [Hr Hc] & Hne & _).
  destruct (apply_move_wf k b mines piece mv Hwf Hpiece Hmv')
    as (nb & Hnb & Hwfnb & _).
  exists nb. split; [done|]. split; [done|].
  rewrite (apply_move_put k b mines) in Hnb by done. injection Hnb as <-.
  pose proof (proj1 Hwf) as Hb.
  pose proof (board_shape_put b (Z.to_nat (Piece.row piece))
                (Z.to_nat (Piece.col piece)) None Hb) as Hb1.
  split; [|split].
  - rewrite !board_get_put by done.
    rewrite decide_False by (intros [??]; apply Hne; congruence).
    by rewrite decide_True.
  - rewrite board_get_put by done. by rewrite decide_True.
  - intros r c Hr' Hc' Hsrc Hdst. rewrite !board_get_put by done.
    rewrite !decide_False; [done|..].
    + intros [H1 H2]. apply Hsrc. f_equal; lia.
    + intros [H1 H2]. apply Hdst. destruct mv as [r' c']. simpl in *.
      f_equal; lia.
Qed.

Lemma apply_move_effect_witness :
  wf_board create_board
  ∧ ∃ nb, apply_move create_board (Piece.make 0 1 BLUE) (1, 2) = Some nb
          ∧ wf_board nb.
Proof.
  assert (Hwf : wf_board create_board).
  { apply wf_board_check_sound. vm_compute. reflexivity. }
  split; [exact Hwf|].
  destruct (apply_move_effect BLUE create_board {[ (1, 1) ]}
              (Piece.make 0 1 BLUE) [(1, 0); (1, 2)] (1, 2) Hwf)
    as (nb & Hnb & Hwfnb & _).
  - apply elem_of_pieces_of. split; [done|].
    by exists 0%nat, 1%nat, [blue_at 0 0; blue_at 0 1; blue_at 0 2;
                              blue_at 0 3; blue_at 0 4].
  - vm_compute. reflexivity.
  - right. left.
  - exists nb. split; [exact Hnb | exact Hwfnb].
Defined.

Lemma count_cells_app (k : Color) (l1 l2 : list cell) :
  foldr (λ c n, cell_count k c + n) 0 (l1 ++ l2)
  = foldr (λ c n, cell_count k c + n) 0 l1
    + foldr (λ c n, cell_count k c + n) 0 l2.
Proof. induction l1 as [|c l1 IH]; simpl; [done|]. rewrite IH. lia. Qed.

Lemma count_cells_insert (k : Color) (rw : list cell) (j : nat)
    (old x : cell) :
  rw !! j = Some old →
  foldr (λ c n, cell_count k c + n) 0 (<[j := x]> rw)
  = foldr (λ c n, cell_count k c + n) 0 rw
    - cell_count k old + cell_count k x.
Proof.
  revert j. induction rw as [|c rw IH]; intros [|j] Hj; simplify_eq/=.
  - lia.
  - rewrite (IH j Hj). lia.
Qed.

Lemma count_pieces_cells (k : Color) (b : board) :
  count_pieces k b = foldr (λ c n, cell_count k c + n) 0 (concat b).
Proof. done. Qed.

(** Replacing one cell changes the count of a colour by what the cell
    held and what it holds now. *)
Lemma count_pieces_put (k : Color) (b : board) (i j : nat)
    (rw : list cell) (old x : cell) :
  b !! i = Some rw → rw !! j = Some old →
  count_pieces k (put b i j x)
  = count_pieces k b - cell_count k old + cell_count k x.
Proof.
  intros Hi Hj. rewrite (put_insert b i j rw x Hi), !count_pieces_cells.
  revert i Hi. induction b as [|rw0 b IH]; intros [|i] Hi; simplify_eq/=.
  - rewrite !count_cells_app, (count_cells_insert k rw j old x Hj). lia.
  - rewrite !count_cells_app, (IH i Hi). lia.
Qed.

Lemma board_get_cell (b : board) (r c : Z) (x : cell) :
  board_shape b → 0 ≤ r < ROWS → 0 ≤ c < COLS →
  board_get b r c = Some x →
  ∃ rw, b !! Z.to_nat r = Some rw ∧ rw !! Z.to_nat c = Some x.
Proof.
  intros Hb Hr Hc Hget.
  destruct (board_get_lookup b r c Hb Hr Hc) as (rw & y & Hrw & Hy & Hget').
  exists rw. split; [done|]. congruence.
Qed.

(** The pieces of both colours after a valid move. *)
Lemma count_pieces_after_move (k : Color) (b : board) (mines : gset (Z * Z))
    (piece : Piece.t) (mv : move) :
  wf_board b → piece ∈ pieces_of k b → mv ∈ moves_of piece b mines →
  ∃ nb target,
    apply_move b piece mv = Some nb
    ∧ board_get b mv.1 mv.2 = Some target
    ∧ count_pieces k nb = count_pieces k b
    ∧ count_pieces (opponent k) nb
      = count_pieces (opponent k) b
        - match target with Some _ => 1 | None => 0 end.
Proof.
  intros Hwf Hpiece Hmv.
  destruct (valid_move_facts k b mines piece (moves_of piece b mines) mv
              Hwf Hpiece (moves_of_shape piece b mines (proj1 Hwf)) Hmv)
    as (_ & Hk & [Hpr Hpc] & [Hr Hc] & Hne & Hsrc & target & Htarget & Hopp).
  pose proof (proj1 Hwf) as Hb.
  set (si := Z.to_nat (Piece.row piece)) in *.
  set (sj := Z.to_nat (Piece.col piece)) in *.
  set (moved := Some (Piece.make mv.1 mv.2 (Piece.color piece))).
  exists (put (put b si sj None) (Z.to_nat mv.1) (Z.to_nat mv.2) moved), target.
  split; [by apply (apply_move_put k b mines)|]. split; [done|].
  destruct (board_get_cell b _ _ _ Hb Hpr Hpc Hsrc) as (rws & Hrws & Hcs).
  assert (Hdst : board_get (put b si sj None) mv.1 mv.2 = Some target).
  { rewrite board_get_put by done.
    rewrite decide_False; [done|]. intros [??]. apply Hne. congruence. }
  destruct (board_get_cell _ _ _ _ (board_shape_put b si sj None Hb) Hr Hc Hdst)
    as (rwd & Hrwd & Hcd).
  assert (Hcount : ∀ k',
    count_pieces k' (put (put b si sj None) (Z.to_nat mv.1) (Z.to_nat mv.2)
                       moved)
    = count_pieces k' b - cell_count k' (Some piece) - cell_count k' target
      + cell_count k' moved).
  { intros k'.
    rewrite (count_pieces_put k' _ _ _ rwd target moved Hrwd Hcd).
    rewrite (count_pieces_put k' b si sj rws (Some piece) None Hrws Hcs).
    unfold cell_count at 2. simpl. lia. }
  assert (Hmine : ∀ k', cell_count k' moved = cell_count k' (Some piece)).
  { done. }
  assert (Htk : cell_count k target = 0).
  { destruct target as [q|]; [|done]. unfold cell_count. simpl.
    rewrite bool_decide_eq_false_2; [done|].
    rewrite (Hopp q eq_refl). by destruct k. }
  assert (Hto : cell_count (opponent k) target
                = match target with Some _ => 1 | None => 0 end).
  { destruct target as [q|]; [|done]. unfold cell_count. simpl.
    by rewrite bool_decide_eq_true_2 by by apply Hopp. }
  split.
  - rewrite Hcount, Hmine, Htk. lia.
  - rewrite Hcount, Hmine, Hto. lia.
Qed.

(** X7.  What a move does to the material: on a well-formed board, a valid
    move of a piece of colour [k] leaves the number of pieces of colour [k]
    as it was and takes one piece from the other colour exactly when the
    destination was occupied; [evaluate] rises by one when Blue captures,
    falls by one when Red captures, and is unchanged otherwise. *)
Theorem evaluate_after_move (k : Color) (b : board) (mines : gset (Z * Z))
    (piece : Piece.t) (moves : list move) (mv : move) :
  wf_board b → piece ∈ pieces_of k b →
  get_valid_moves piece b mines = Some moves → mv ∈ moves →
  ∃ nb target,
    apply_move b piece mv = Some nb
    ∧ board_get b mv.1 mv.2 = Some target
    ∧ count_pieces k nb = count_pieces k b
    ∧ count_pieces (opponent k) nb
      = count_pieces (opponent k) b
        - match target with Some _ => 1 | None => 0 end
    ∧ evaluate nb
      = evaluate b
        + match target, k with
          | None, _ => 0
          | Some _, BLUE => 1
          | Some _, RED => -1
          end.
Proof.
  intros Hwf Hpiece Hmoves Hmv.
  rewrite moves_of_shape in Hmoves by apply Hwf. injection Hmoves as <-.
  destruct (count_pieces_after_move k b mines piece mv Hwf Hpiece Hmv)
    as (nb & target & Hnb & Htarget & H1 & H2).
  exists nb, target. do 4 (split; [done|]).
  unfold evaluate. destruct k; simpl in H1, H2; rewrite H1, H2;
    destruct target; lia.
Qed.

Lemma evaluate_after_move_witness :
  ∃ nb target,
    apply_move create_board (Piece.make 0 1 BLUE) (1, 2) = Some nb
    ∧ board_get create_board 1 2 = Some target
    ∧ count_pieces BLUE nb = count_pieces BLUE create_board.
Proof.
  assert (Hwf : wf_board create_board).
  { apply wf_board_check_sound. vm_compute. reflexivity. }
  destruct (evaluate_after_move BLUE create_board {[ (1, 1) ]}
              (Piece.make 0 1 BLUE) [(1, 0); (1, 2)] (1, 2) Hwf)
    as (nb & target & Hnb & Htarget & Hcount & _).
  - apply elem_of_pieces_of. split; [done|].
    by exists 0%nat, 1%nat, [blue_at 0 0; blue_at 0 1; blue_at 0 2;
                              blue_at 0 3; blue_at 0 4].
  - vm_compute. reflexivity.
  - right. left.
  - exists nb, target. split; [exact Hnb|]. split; [exact Htarget|exact Hcount].
Defined.

Lemma relocate_put (piece : Piece.t) (row col : Z) (b : board) (i j : nat)
    (x : cell) :
  relocate piece row col (put b i j x)
  = put (relocate piece row col b) i j
      (if decide (x = Some piece) then Some (move_piece piece row col) else x).
Proof.
  unfold relocate, put. apply list_fmap_alter, Forall_forall. intros rw _.
  apply list_fmap_insert.
Qed.

Lemma relocate_absent (piece : Piece.t) (row col : Z) (b : board) :
  (∀ (i j : nat) rw, b !! i = Some rw → rw !! j ≠ Some (Some piece)) →
  relocate piece row col b = b.
Proof.
  intros Habsent. unfold relocate. apply list_eq. intros i.
  rewrite list_lookup_fmap. destruct (b !! i) as [rw|] eqn:Hi; [|done].
  simpl. f_equal. apply list_eq. intros j. rewrite list_lookup_fmap.
  destruct (rw !! j) as [c|] eqn:Hj; [|done]. simpl. f_equal.
  case_decide; [|done]. subst c. by destruct (Habsent i j rw Hi).
Qed.

(** On a well-formed board the controller's move in place and the move
    of the search give the same board. *)
Lemma commit_move_moves_of (k : Color) (b : board) (mines : gset (Z * Z))
    (piece : Piece.t) (mv : move) :
  wf_board b → piece ∈ pieces_of k b → mv ∈ moves_of piece b mines →
  commit_move b piece mv.1 mv.2 = apply_move b piece mv.
Proof.
  intros Hwf Hpiece Hmv.
  destruct (valid_move_facts k b mines piece (moves_of piece b mines) mv
              Hwf Hpiece (moves_of_shape piece b mines (proj1 Hwf)) Hmv)
    as (_ & Hk & [Hpr Hpc] & [Hr Hc] & Hne & Hsrc & _).
  pose proof Hwf as [Hb Hplaced].
  rewrite (apply_move_put k b mines) by done.
  unfold commit_move.
  rewrite (board_set_put b mv.1 mv.2) by done. simpl.
  rewrite board_set_put by (done || by apply board_shape_put). simpl.
  f_equal. rewrite put_commute by congruence.
  rewrite relocate_put, decide_True by done.
  rewrite relocate_absent; [done|].
  intros i j rw Hi Hj.
  destruct (board_get_cell b _ _ _ Hb Hpr Hpc Hsrc) as (rws & Hrws & Hcs).
  rewrite (put_insert b _ _ rws None Hrws) in Hi.
  apply list_lookup_insert_Some in Hi as [(<- & <- & _)|[Hi' Hi]].
  - apply list_lookup_insert_Some in Hj as [(_ & ? & _)|[Hj' Hj]]; [done|].
    destruct (Hplaced _ _ _ _ Hrws Hj) as [_ Hcol]. lia.
  - destruct (Hplaced _ _ _ _ Hi Hj) as [Hrow _]. lia.
Qed.

(** X8.  The move the controller commits in place (write the piece to the
    destination, clear its old cell, then update its coordinates) gives the
    board that the search builds for the same move with [apply_move], for
    every valid move of a piece of a well-formed board. *)
Theorem commit_move_apply_move (k : Color) (b : board) (mines : gset (Z * Z))
    (piece : Piece.t) (moves : list move) (mv : move) :
  wf_board b → piece ∈ pieces_of k b →
  get_valid_moves piece b mines = Some moves → mv ∈ moves →
  commit_move b piece mv.1 mv.2 = apply_move b piece mv
  ∧ is_Some (apply_move b piece mv).
Proof.
  intros Hwf Hpiece Hmoves Hmv.
  rewrite moves_of_shape in Hmoves by apply Hwf. injection Hmoves as <-.
  split; [by apply (commit_move_moves_of k b mines)|].
  by rewrite (apply_move_put k b mines).
Qed.

Lemma commit_move_apply_move_witness :
  commit_move create_board (Piece.make 0 1 BLUE) 1 2
  = apply_move create_board (Piece.make 0 1 BLUE) (1, 2).
Proof.
  assert (Hwf : wf_board create_board).
  { apply wf_board_check_sound. vm_compute. reflexivity. }
  refine (proj1 (commit_move_apply_move BLUE create_board {[ (1, 1) ]}
            (Piece.make 0 1 BLUE) [(1, 0); (1, 2)] (1, 2) Hwf _ _ _)).
  - apply elem_of_pieces_of. split; [done|].
    by exists 0%nat, 1%nat, [blue_at 0 0; blue_at 0 1; blue_at 0 2;
                              blue_at 0 3; blue_at 0 4].
  - vm_compute. reflexivity.
  - right. left.
Defined.

(** X9.  The contract of [minimax] with a window, at every depth and for
    both sides: on a well-formed board and for [alpha < beta], [minimax]
    and the recursion without pruning both return, and with [exact] the
    value without pruning, the value [v] of [minimax] is at most [alpha]
    when [exact] is, at least [beta] when [exact] is, and equal to [exact]
    when [exact] lies strictly inside the window. *)
Theorem minimax_window (mines : gset (Z * Z)) (d : nat) (b : board)
    (alpha beta : score) (maximizing_player : bool) :
  wf_board b → score_lt alpha beta →
  ∃ v exact,
    minimax b d alpha beta maximizing_player mines = Some v
    ∧ minimax_unpruned b d maximizing_player mines = Some exact
    ∧ (score_le exact alpha → score_le v alpha)
    ∧ (score_le beta exact → score_le beta v)
    ∧ (score_lt alpha exact → score_lt exact beta → v = exact).
Proof.
  intros Hwf Hab.
  rewrite minimax_alphabeta, minimax_unpruned_fullsearch by done.
  eexists _, _. split; [done|]. split; [done|].
  by apply alphabeta_within.
Qed.

Lemma minimax_window_witness :
  ∃ v exact,
    minimax create_board 1 (Fin (-1)) (Fin 1) true ∅ = Some v
    ∧ minimax_unpruned create_board 1 true ∅ = Some exact
    ∧ (score_lt (Fin (-1)) exact → score_lt exact (Fin 1) → v = exact).
Proof.
  assert (Hwf : wf_board create_board).
  { apply wf_board_check_sound. vm_compute. reflexivity. }
  assert (Hab : score_lt (Fin (-1)) (Fin 1)) by (simpl; lia).
  destruct (minimax_window ∅ 1 create_board (Fin (-1)) (Fin 1) true Hwf Hab)
    as (v & exact & Hv & Hexact & _ & _ & Hin).
  exists v, exact. split; [exact Hv|]. split; [exact Hexact|exact Hin].
Defined.




(** ** The move of the machine *)

(** What [best_move] answers on a well-formed board: nothing when no
    candidate exists, else a candidate that no candidate outscores. *)
Lemma best_move_answer (draw : nat) (b : board) (mines : gset (Z * Z)) :
  wf_board b →
  ∃ r, best_move draw b mines = Some r
       ∧ (r = None ↔ candidates b mines = [])
       ∧ ∀ c, r = Some c → c ∈ candidates b mines.
Proof.
  intros Hwf.
  set (cs := candidates b mines). set (sc := candidate_score b mines).
  set (best := maximal_candidates sc cs).
  assert (Hbest : best_move draw b mines
                  = Some (match best with
                          | [] => None
                          | _ => random_choice draw best
                          end)).
  { unfold best_move. rewrite (best_moves_with_maximal _ sc) by
      (try done; intros c Hc;
       destruct (candidate_scores b mines c Hwf Hc) as (nb & Hnb & _ & Hv & _);
       unfold board_after; by rewrite Hnb).
    simpl. fold cs best. by destruct best. }
  rewrite Hbest. eexists. split; [done|].
  destruct (decide (cs = [])) as [Hnil|Hne].
  - unfold best. rewrite Hnil. simpl. split; [done|]. by intros c.
  - pose proof (maximal_candidates_nonempty sc cs Hne) as Hbne.
    fold best in Hbne.
    assert (is_Some (best !! (draw `mod` length best)%nat)) as [c Hc].
    { apply lookup_lt_is_Some_2, Nat.mod_upper_bound. by destruct best. }
    assert (Hpick : match best with
                    | [] => None
                    | _ => random_choice draw best
                    end = Some c).
    { unfold random_choice. rewrite Hc. by destruct best. }
    rewrite Hpick. split; [done|]. intros c' [= <-].
    apply list_elem_of_lookup_2 in Hc.
    by apply elem_of_maximal_candidates in Hc as [Hc _].
Qed.

(** What [find_winning_move] answers on a board of the right shape. *)
Lemma find_winning_move_answer (b : board) (mines : gset (Z * Z)) :
  board_shape b →
  ∃ r, find_winning_move b mines = Some r
       ∧ (∀ pm, r = Some pm → pm ∈ candidates b mines ∧ pm.2.1 = ROWS - 1)
       ∧ (r = None → ∀ pm, pm ∈ candidates b mines → pm.2.1 ≠ ROWS - 1).
Proof.
  intros Hb. rewrite find_winning_move_first by done.
  eexists. split; [done|]. split.
  - intros pm Hpm.
    apply head_Some_elem_of, list_elem_of_omap in Hpm as (piece & Hpiece & Hpm).
    destruct (first_winning_Some b mines piece pm Hb Hpm) as (Heq & Hmv & Hrow).
    split; [|done]. apply elem_of_candidates. rewrite Heq. split; [done|].
    unfold moves_of. by rewrite get_valid_moves_shape.
  - intros Hnone pm [Hpiece Hmv]%elem_of_candidates Hrow.
    unfold moves_of in Hmv. rewrite get_valid_moves_shape in Hmv by done.
    destruct (first_winning_is_Some b mines pm.1 pm.2 Hb Hmv Hrow) as [w Hw].
    assert (Hin : w ∈ omap (λ piece, first_winning piece b mines)
                        (pieces_of BLUE b)).
    { apply list_elem_of_omap. by exists pm.1. }
    destruct (omap _ (pieces_of BLUE b)); [by apply elem_of_nil in Hin|done].
Qed.

(** The move of a candidate, committed in place. *)
Lemma commit_candidate (b : board) (mines : gset (Z * Z)) (c : Piece.t * move) :
  wf_board b → c ∈ candidates b mines →
  ∃ nb, commit_move b c.1 c.2.1 c.2.2 = Some nb
        ∧ apply_move b c.1 c.2 = Some nb ∧ wf_board nb.
Proof.
  intros Hwf [Hpiece Hmv]%elem_of_candidates.
  destruct (apply_move_wf BLUE b mines c.1 c.2 Hwf Hpiece Hmv)
    as (nb & Hnb & Hwfnb & _).
  exists nb. by rewrite (commit_move_moves_of BLUE b mines).
Qed.

(** X11.  The machine's block of the main loop on a well-formed board: it
    raises nothing and leaves a well-formed board.  When it is Red's turn
    nothing changes.  When it is Blue's turn and Blue has just reshuffled,
    only the flag is cleared: the reshuffle costs Blue its move of this
    iteration.  Otherwise the flag stays clear, and either no Blue piece
    has a valid move, and then the board is unchanged and the turn stays
    with Blue, or the turn passes to Red and the new board is the one
    [apply_move] builds for a Blue piece of the board and one of its valid
    moves. *)
Theorem ai_turn_plays (draw : nat) (b : board) (mines : gset (Z * Z))
    (turn : Color) (blue_reshuffled : bool) :
  wf_board b →
  ∃ nb t f,
    ai_turn draw b mines turn blue_reshuffled = Some (nb, t, f)
    ∧ wf_board nb
    ∧ (turn = RED → nb = b ∧ t = RED ∧ f = blue_reshuffled)
    ∧ (turn = BLUE → blue_reshuffled = true → nb = b ∧ t = BLUE ∧ f = false)
    ∧ (turn = BLUE → blue_reshuffled = false →
       f = false
       ∧ ((∀ piece, piece ∈ pieces_of BLUE b →
             get_valid_moves piece b mines = Some [])
          ∧ nb = b ∧ t = BLUE
          ∨ t = RED
            ∧ ∃ piece moves mv,
                piece ∈ pieces_of BLUE b
                ∧ get_valid_moves piece b mines = Some moves
                ∧ mv ∈ moves
                ∧ apply_move b piece mv = Some nb)).
Proof.
  intros Hwf. unfold ai_turn.
  destruct turn; [rewrite decide_False by done|rewrite decide_True by done].
  { exists b, RED, blue_reshuffled.
    split; [done|]. split; [done|]. split; [done|]. by split. }
  destruct blue_reshuffled.
  { exists b, BLUE, false.
    split; [done|]. split; [done|]. split; [done|]. by split. }
  assert (Hplay : ∀ c nb, c ∈ candidates b mines →
            apply_move b c.1 c.2 = Some nb →
            ∃ piece moves mv,
              piece ∈ pieces_of BLUE b
              ∧ get_valid_moves piece b mines = Some moves
              ∧ mv ∈ moves ∧ apply_move b piece mv = Some nb).
  { intros c nb [Hpiece Hmv]%elem_of_candidates Hnb.
    exists c.1, (moves_of c.1 b mines), c.2. split; [done|].
    split; [apply moves_of_shape, Hwf|done]. }
  destruct (find_winning_move_answer b mines (proj1 Hwf))
    as (r & -> & Hsome & _). simpl.
  destruct r as [[piece mv]|].
  { destruct (Hsome _ eq_refl) as [Hc _].
    destruct (commit_candidate b mines _ Hwf Hc) as (nb & Hnb & Happ & Hwfnb).
    simpl in Hnb. rewrite Hnb. simpl. exists nb, RED, false.
    split; [done|]. split; [done|]. split; [done|]. split; [done|].
    intros _ _. split; [done|]. right. split; [done|]. by eapply Hplay. }
  destruct (best_move_answer draw b mines Hwf) as (r & -> & Hnone & Hbest).
  simpl. destruct r as [[piece mv]|].
  { pose proof (Hbest _ eq_refl) as Hc.
    destruct (commit_candidate b mines _ Hwf Hc) as (nb & Hnb & Happ & Hwfnb).
    simpl in Hnb. rewrite Hnb. simpl. exists nb, RED, false.
    split; [done|]. split; [done|]. split; [done|]. split; [done|].
    intros _ _. split; [done|]. right. split; [done|]. by eapply Hplay. }
  exists b, BLUE, false.
  split; [done|]. split; [done|]. split; [done|]. split; [done|].
  intros _ _. split; [done|]. left. split; [|done].
  intros piece Hpiece. rewrite moves_of_shape by apply Hwf. f_equal.
  destruct (moves_of piece b mines) as [|mv moves] eqn:Hmoves; [done|].
  assert (Hin : (piece, mv) ∈ candidates b mines).
  { apply elem_of_candidates. split; [done|]. simpl. rewrite Hmoves. left. }
  rewrite (proj1 Hnone eq_refl) in Hin. by apply elem_of_nil in Hin.
Qed.

Lemma ai_turn_plays_witness :
  ∃ nb t f,
    ai_turn 7 create_board some_mines BLUE true = Some (nb, t, f)
    ∧ wf_board nb.
Proof.
  assert (Hwf : wf_board create_board).
  { apply wf_board_check_sound. vm_compute. reflexivity. }
  destruct (ai_turn_plays 7 create_board some_mines BLUE true Hwf)
    as (nb & t & f & Hai & Hwfnb & _).
  exists nb, t, f. split; [exact Hai | exact Hwfnb].
Defined.

Lemma check_win_condition_columns (b : board) :
  board_shape b →
  (check_win_condition b = Some None
   ↔ ∀ c, 0 ≤ c < COLS → column_verdict b c = None)
  ∧ ∀ v, check_win_condition b = Some (Some v)
         ↔ ∃ c, 0 ≤ c < COLS ∧ column_verdict b c = Some v
                ∧ ∀ c', 0 ≤ c' < c → column_verdict b c' = None.
Proof.
  intros Hb.
  exact (for_return_seqZ (column_verdict b) _ (Z.to_nat COLS) 0
           (λ c Hc, check_win_condition_verdict b c Hb Hc)).
Qed.

(** A blue piece on the last row, and no red piece on row 0: "You lost!". *)
Lemma check_win_condition_blue_lands (b : board) (c : Z) :
  board_shape b → 0 ≤ c < COLS →
  (∀ c', 0 ≤ c' < COLS → ¬ occupies b RED 0 c') →
  occupies b BLUE (ROWS - 1) c →
  check_win_condition b = Some (Some You_lost).
Proof.
  intros Hb Hc Hred Hblue.
  destruct (check_win_condition_columns b Hb) as [Hnone Hsome].
  destruct (check_win_condition_total b Hb) as [[v|] Hw].
  - rewrite Hw. do 2 f_equal.
    apply Hsome in Hw as (c' & Hc' & Hv & _).
    unfold column_verdict in Hv.
    pose proof (Hred c' Hc') as Hno. rewrite occupies_is_color in Hno.
    destruct (is_color _ RED); [done|].
    destruct (is_color _ BLUE); by simplify_eq.
  - pose proof (proj1 Hnone Hw c Hc) as Hv.
    apply column_verdict_None in Hv as [_ Hv]. done.
Qed.

(** A candidate that lands on the last row, on a board that is not
    decided, leaves a board that Blue has won. *)
Lemma candidate_lands_last (b : board) (mines : gset (Z * Z))
    (c : Piece.t * move) :
  wf_board b → check_win_condition b = Some None →
  c ∈ candidates b mines → c.2.1 = ROWS - 1 →
  ∃ nb, commit_move b c.1 c.2.1 c.2.2 = Some nb
        ∧ apply_move b c.1 c.2 = Some nb
        ∧ wf_board nb
        ∧ check_win_condition nb = Some (Some You_lost).
Proof.
  intros Hwf Hopen Hcand Hlast. pose proof Hwf as [Hb _].
  destruct c as [p m]. simpl in Hlast.
  destruct (commit_candidate b mines _ Hwf Hcand) as (nb & Hnb & Happ & Hwfnb).
  simpl in Hnb, Happ. exists nb. do 3 (split; [done|]).
  apply elem_of_candidates in Hcand as [Hp Hm]. simpl in Hp, Hm.
  destruct (valid_move_facts BLUE b mines p (moves_of p b mines) m Hwf Hp
              (moves_of_shape p b mines Hb) Hm)
    as (_ & Hk & [Hpr Hpc] & [Hr Hc] & Hne & _).
  rewrite (apply_move_put BLUE b mines) in Happ by done.
  injection Happ as <-.
  pose proof (board_shape_put b (Z.to_nat (Piece.row p))
                (Z.to_nat (Piece.col p)) None Hb) as Hb1.
  apply (check_win_condition_blue_lands _ m.2); [apply Hwfnb|done|..].
  - intros c' Hc' (x & Hx & Hred).
    rewrite !board_get_put in Hx by (done || unfold ROWS; lia).
    case_decide as Hd; [unfold ROWS in *; lia|].
    case_decide; [by simplify_eq|].
    destruct (check_win_condition_columns b Hb) as [Hcols _].
    pose proof (proj1 Hcols Hopen c' Hc') as Hv.
    apply column_verdict_None in Hv as [Hv _]. apply Hv. by exists x.
  - exists (Some (Piece.make m.1 m.2 (Piece.color p))).
    rewrite <-Hlast, board_get_put, decide_True by done.
    split; [done|]. simpl. rewrite Hk. by apply bool_decide_pack.
Qed.

(** X12.  The machine takes a win when there is one: on a well-formed
    board that [check_win_condition] does not decide, when it is Blue's
    turn, Blue has not just reshuffled, and some Blue piece has a valid
    move onto row [ROWS-1], the machine's block moves a piece, passes the
    turn to Red, and on the board it leaves [check_win_condition] answers
    "You lost!". *)
Theorem ai_turn_wins (draw : nat) (b : board) (mines : gset (Z * Z)) :
  wf_board b → check_win_condition b = Some None →
  (∃ piece moves mv,
     piece ∈ pieces_of BLUE b ∧ get_valid_moves piece b mines = Some moves
     ∧ mv ∈ moves ∧ mv.1 = ROWS - 1) →
  ∃ nb, ai_turn draw b mines BLUE false = Some (nb, RED, false)
        ∧ wf_board nb
        ∧ check_win_condition nb = Some (Some You_lost).
Proof.
  intros Hwf Hopen (piece & moves & mv & Hpiece & Hmoves & Hmv & Hrow).
  pose proof Hwf as [Hb _].
  rewrite moves_of_shape in Hmoves by done. injection Hmoves as <-.
  unfold ai_turn. rewrite decide_True by done.
  destruct (find_winning_move_answer b mines Hb) as (r & -> & Hsome & Hnone).
  simpl. destruct r as [[p m]|]; cycle 1.
  { destruct (Hnone eq_refl (piece, mv)); [|done].
    by apply elem_of_candidates. }
  destruct (Hsome _ eq_refl) as [Hc Hlast].
  destruct (candidate_lands_last b mines _ Hwf Hopen Hc Hlast)
    as (nb & Hnb & _ & Hwfnb & Hlost).
  simpl in Hnb. rewrite Hnb. simpl. by exists nb.
Qed.

Lemma ai_turn_wins_witness :
  ∃ nb, ai_turn 0 one_step_left ∅ BLUE false = Some (nb, RED, false)
        ∧ check_win_condition nb = Some (Some You_lost).
Proof.
  assert (Hwf : wf_board one_step_left).
  { apply wf_board_check_sound. vm_compute. reflexivity. }
  destruct (ai_turn_wins 0 one_step_left ∅ Hwf) as (nb & Hai & _ & Hlost).
  - vm_compute. reflexivity.
  - exists (Piece.make 4 2 BLUE), [(5, 2); (5, 1); (5, 3); (4, 1); (4, 3)], (5, 2).
    split; [|split; [vm_compute; reflexivity|split; [left|reflexivity]]].
    apply elem_of_pieces_of. split; [reflexivity|].
    exists 4%nat, 2%nat, [None; None; blue_at 4 2; None; None].
    split; reflexivity.
  - exists nb. split; [exact Hai | exact Hlost].
Defined.

(** ** Clicks *)

(** A click on the reshuffle button. *)
Lemma on_mouse_down_button (pos : Z * Z) (g g' : Game.t)
    (draws rest : list (Z * Z)) :
  collidepoint RESHUFFLE_BTN pos = true →
  on_mouse_down pos g draws = Some (g', rest) →
  Game.board g' = Game.board g
  ∧ Game.turn g' = Game.turn g
  ∧ Game.selected_piece g' = Game.selected_piece g
  ∧ (g' = g ∧ rest = draws
     ∨ (Game.mines g' ∩ Game.mines g = ∅
        ∧ Z.of_nat (size (Game.mines g')) = 4
        ∧ mines_placed (Game.board g) (Game.mines g'))
       ∧ (Game.turn g = RED ∧ 0 < Game.red_shuffles g
          ∧ Game.red_shuffles g' = Game.red_shuffles g - 1
          ∧ Game.blue_shuffles g' = Game.blue_shuffles g
          ∧ Game.blue_reshuffled g' = Game.blue_reshuffled g
          ∨ Game.turn g = BLUE ∧ 0 < Game.blue_shuffles g
            ∧ Game.blue_reshuffled g = false
            ∧ Game.red_shuffles g' = Game.red_shuffles g
            ∧ Game.blue_shuffles g' = Game.blue_shuffles g - 1
            ∧ Game.blue_reshuffled g' = true)).
Proof.
  intros Hpos. unfold on_mouse_down. rewrite Hpos.
  assert (Hshuffle : ∀ nm dr,
            shuffle_mines (Game.board g) (Game.mines g) draws = Some (nm, dr) →
            nm ∩ Game.mines g = ∅ ∧ Z.of_nat (size nm) = 4
            ∧ mines_placed (Game.board g) nm).
  { intros nm dr. unfold shuffle_mines.
    destruct (generate_mines (Game.board g) 4 draws) as [[nm0 dr0]|] eqn:Hgen;
      simpl; [|done].
    destruct (generate_mines_from_empty (Game.board g) 4 draws nm0 dr0)
      as [Hs Hp]; [lia|done|].
    by apply shuffle_mines_loop_inv. }
  case_decide as Hred.
  { destruct (shuffle_mines _ _ draws) as [[nm dr]|] eqn:Hsh; simpl; [|done].
    intros [= <- <-]. simpl. do 3 (split; [done|]). right.
    split; [by eapply Hshuffle|]. left. destruct Hred. done. }
  case_decide as Hblue.
  { destruct (shuffle_mines _ _ draws) as [[nm dr]|] eqn:Hsh; simpl; [|done].
    intros [= <- <-]. simpl. do 3 (split; [done|]). right.
    split; [by eapply Hshuffle|]. right. destruct Hblue as (? & ? & ?). done. }
  intros [= <- <-]. do 3 (split; [done|]). by left.
Qed.

(** A click off the button leaves the mines, the counters, the flag and
    the draws alone. *)
Lemma on_mouse_down_cell_keeps (pos : Z * Z) (g g' : Game.t)
    (draws rest : list (Z * Z)) :
  collidepoint RESHUFFLE_BTN pos = false →
  on_mouse_down pos g draws = Some (g', rest) →
  Game.mines g' = Game.mines g
  ∧ Game.red_shuffles g' = Game.red_shuffles g
  ∧ Game.blue_shuffles g' = Game.blue_shuffles g
  ∧ Game.blue_reshuffled g' = Game.blue_reshuffled g
  ∧ rest = draws.
Proof.
  intros Hpos. unfold on_mouse_down. rewrite Hpos.
  destruct (get_row_col_from_mouse pos) as [row col].
  case_decide; [|by intros [= <- <-]].
  destruct (board_get _ row col) as [piece|]; simpl; [|done].
  destruct (is_color piece _); [by intros [= <- <-]|].
  destruct (Game.selected_piece g) as [selected|]; [|by intros [= <- <-]].
  destruct (get_valid_moves _ _ _) as [moves|]; simpl; [|done].
  case_decide; [|by intros [= <- <-]].
  destruct (commit_move _ _ _ _) as [nb|]; simpl; [|done].
  by intros [= <- <-].
Qed.

(** A click off the button, on a well-formed board, with the selected
    piece on the board. *)
Lemma on_mouse_down_cell (pos : Z * Z) (g : Game.t) (draws : list (Z * Z)) :
  collidepoint RESHUFFLE_BTN pos = false →
  wf_board (Game.board g) → selected_on_board g →
  ∃ g', on_mouse_down pos g draws = Some (g', draws)
        ∧ wf_board (Game.board g') ∧ selected_on_board g'
        ∧ (∀ k, count_pieces k (Game.board g') ≤ count_pieces k (Game.board g))
        ∧ (Game.board g' = Game.board g ∧ Game.turn g' = Game.turn g
           ∧ (Game.selected_piece g' = Game.selected_piece g
              ∨ ∃ piece,
                  Game.selected_piece g' = Some piece
                  ∧ Piece.color piece = Game.turn g
                  ∧ get_row_col_from_mouse pos
                    = (Piece.row piece, Piece.col piece))
           ∨ ∃ piece moves,
               Game.selected_piece g = Some piece
               ∧ get_valid_moves piece (Game.board g) (Game.mines g)
                 = Some moves
               ∧ get_row_col_from_mouse pos ∈ moves
               ∧ apply_move (Game.board g) piece (get_row_col_from_mouse pos)
                 = Some (Game.board g')
               ∧ Game.turn g' = other_turn (Game.turn g)
               ∧ Game.selected_piece g' = None).
Proof.
  intros Hpos Hwf Hsel. unfold on_mouse_down. rewrite Hpos.
  destruct (get_row_col_from_mouse pos) as [row col].
  pose proof Hwf as [Hb Hplaced].
  assert (Hsame : ∃ g', Some (g, draws) = Some (g', draws)
            ∧ wf_board (Game.board g') ∧ selected_on_board g'
            ∧ (∀ k, count_pieces k (Game.board g')
                    ≤ count_pieces k (Game.board g))
            ∧ (Game.board g' = Game.board g ∧ Game.turn g' = Game.turn g
               ∧ (Game.selected_piece g' = Game.selected_piece g
                  ∨ ∃ piece,
                      Game.selected_piece g' = Some piece
                      ∧ Piece.color piece = Game.turn g
                      ∧ (row, col) = (Piece.row piece, Piece.col piece))
               ∨ ∃ piece moves,
                   Game.selected_piece g = Some piece
                   ∧ get_valid_moves piece (Game.board g) (Game.mines g)
                     = Some moves
                   ∧ (row, col) ∈ moves
                   ∧ apply_move (Game.board g) piece (row, col)
                     = Some (Game.board g')
                   ∧ Game.turn g' = other_turn (Game.turn g)
                   ∧ Game.selected_piece g' = None)).
  { exists g. do 3 (split; [done|]). split; [intros; lia|].
    left. do 2 (split; [done|]). by left. }
  case_decide as Hcell; [|done]. destruct Hcell as [Hrow Hcol].
  destruct (board_get (Game.board g) row col) as [c|] eqn:Hget; simpl;
    [|destruct (board_get_is_Some (Game.board g) row col Hb Hrow Hcol);
      congruence].
  destruct (is_color c (Game.turn g)) eqn:Hcolor.
  { destruct c as [piece|]; [|done]. simpl in Hcolor.
    apply bool_decide_eq_true in Hcolor.
    destruct (board_get_cell _ _ _ _ Hb Hrow Hcol Hget) as (rw & Hrw & Hc).
    destruct (Hplaced _ _ _ _ Hrw Hc) as [Hpr Hpc].
    eexists. split; [done|]. simpl. split; [done|]. split.
    { intros p [= <-]. apply elem_of_pieces_of. split; [done|].
      by exists (Z.to_nat row), (Z.to_nat col), rw. }
    split; [intros; lia|]. left. do 2 (split; [done|]). right.
    exists piece. split; [done|]. split; [done|]. f_equal; lia. }
  destruct (Game.selected_piece g) as [selected|] eqn:Hselected; [|done].
  specialize (Hsel selected Hselected).
  rewrite moves_of_shape by done. simpl.
  case_decide as Hmv; [|done].
  destruct (apply_move_wf _ _ (Game.mines g) selected (row, col) Hwf Hsel Hmv)
    as (nb & Hnb & Hwfnb & _).
  pose proof (commit_move_moves_of _ _ (Game.mines g) selected (row, col)
                Hwf Hsel Hmv) as Hcommit.
  simpl in Hcommit. rewrite Hcommit, Hnb. simpl.
  eexists. split; [done|]. simpl. split; [done|]. split; [by intros p|].
  split.
  { destruct (count_pieces_after_move _ _ (Game.mines g) selected (row, col)
                Hwf Hsel Hmv) as (nb' & target & Hnb' & _ & H1 & H2).
    assert (nb' = nb) as -> by congruence. intros k.
    destruct k, (Piece.color selected); simpl in H1, H2;
      destruct target; lia. }
  right. exists selected, (moves_of selected (Game.board g) (Game.mines g)).
  split; [done|]. split; [by apply moves_of_shape|]. done.
Qed.

(** X13.  Reshuffles over the events of one iteration of the main loop.
    Starting with counters that are not negative, neither counter goes
    below zero or rises; Blue's counter falls by at most one, and not at
    all when Blue had already reshuffled; the flag that records Blue's
    reshuffle is never cleared by an event; and when both counters end as
    they began, the mines are those of the beginning and no draw was
    used: the mines change only against a reshuffle that is paid for. *)
Theorem handle_events_shuffles (events : list event) (g g' : Game.t)
    (running running' : bool) (draws rest : list (Z * Z)) :
  0 ≤ Game.red_shuffles g → 0 ≤ Game.blue_shuffles g →
  handle_events events g running draws = Some (g', running', rest) →
  0 ≤ Game.red_shuffles g' ≤ Game.red_shuffles g
  ∧ 0 ≤ Game.blue_shuffles g' ≤ Game.blue_shuffles g
  ∧ Game.blue_shuffles g - (if Game.blue_reshuffled g then 0 else 1)
    ≤ Game.blue_shuffles g'
  ∧ (Game.blue_reshuffled g = true → Game.blue_reshuffled g' = true)
  ∧ (Game.red_shuffles g' = Game.red_shuffles g →
     Game.blue_shuffles g' = Game.blue_shuffles g →
     Game.mines g' = Game.mines g ∧ rest = draws).
Proof.
  intros Hred Hblue Hrun.
  set (I := λ st : Game.t * bool * list (Z * Z),
    (0 ≤ Game.red_shuffles st.1.1 ≤ Game.red_shuffles g)
    ∧ (0 ≤ Game.blue_shuffles st.1.1 ≤ Game.blue_shuffles g)
    ∧ (Game.blue_shuffles g + (if Game.blue_reshuffled g then 1 else 0)
       ≤ Game.blue_shuffles st.1.1
         + (if Game.blue_reshuffled st.1.1 then 1 else 0))
    ∧ (Game.blue_reshuffled g = true → Game.blue_reshuffled st.1.1 = true)
    ∧ (Game.red_shuffles st.1.1 = Game.red_shuffles g →
       Game.blue_shuffles st.1.1 = Game.blue_shuffles g →
       Game.mines st.1.1 = Game.mines g ∧ st.2 = draws)).
  assert (HI : I (g', running', rest)).
  { unfold handle_events in Hrun.
    refine (for_each_inv I events _ _ (g, running, draws) _ _ Hrun).
    - intros ev [[g1 r1] d1] [[g2 r2] d2] _ (H1 & H2 & H3 & H4 & H5).
      simpl in H1, H2, H3, H4, H5.
      destruct ev as [|pos|]; [by intros [= <- <- <-]| |by intros [= <- <- <-]].
      destruct (on_mouse_down pos g1 d1) as [[g3 d3]|] eqn:Hclick; simpl;
        [|done].
      intros [= <- <- <-]. unfold I. simpl.
      destruct (collidepoint RESHUFFLE_BTN pos) eqn:Hpos.
      + destruct (on_mouse_down_button pos g1 g3 d1 d3 Hpos Hclick)
          as (_ & _ & _ & [[-> ->]|[_ Hpaid]]); [done|].
        destruct Hpaid as [(_ & ? & Hr & Hb & Hf)|(_ & ? & Hf0 & Hr & Hb & Hf)];
          rewrite Hr, Hb, Hf; [|rewrite Hf0 in H3];
          repeat split; try lia; try done;
          destruct (Game.blue_reshuffled g), (Game.blue_reshuffled g1);
          try lia; try done; by (intros; discriminate || auto).
      + destruct (on_mouse_down_cell_keeps pos g1 g3 d1 d3 Hpos Hclick)
          as (-> & -> & -> & -> & ->). done.
    - unfold I. simpl. repeat split; try lia; done. }
  destruct HI as (H1 & H2 & H3 & H4 & H5). simpl in *.
  split; [done|]. split; [done|]. split; [|done].
  destruct (Game.blue_reshuffled g), (Game.blue_reshuffled g'); lia.
Qed.

Lemma handle_events_shuffles_witness :
  handle_events [MOUSEBUTTONDOWN (250, 620)] opening_game true some_draws
  = Some (Game.make create_board {[ (1, 0); (1, 2); (2, 2); (3, 2) ]} RED None
            1 2 false, true, drop 13 some_draws)
  ∧ 0 ≤ 1 ≤ 2.
Proof.
  assert (Hrun :
    handle_events [MOUSEBUTTONDOWN (250, 620)] opening_game true some_draws
    = Some (Game.make create_board {[ (1, 0); (1, 2); (2, 2); (3, 2) ]} RED
              None 1 2 false, true, drop 13 some_draws))
    by (vm_compute; reflexivity).
  split; [exact Hrun|].
  assert (Hred : 0 ≤ Game.red_shuffles opening_game) by (simpl; lia).
  assert (Hblue : 0 ≤ Game.blue_shuffles opening_game) by (simpl; lia).
  exact (proj1 (handle_events_shuffles _ _ _ _ _ _ _ Hred Hblue Hrun)).
Defined.

(** X14.  A click off the reshuffle button, on a well-formed board with
    the selected piece, if any, on the board: the handler raises nothing,
    uses no draw, and leaves a well-formed board.  Either the board and
    the turn are unchanged, and the selection is unchanged or becomes a
    piece of the side to move that stands on the clicked cell; or the
    clicked cell is a valid move of the selected piece, the new board is
    the one [apply_move] builds for that move, the turn passes to the
    other side and the selection is cleared. *)
Theorem on_mouse_down_move (pos : Z * Z) (g : Game.t) (draws : list (Z * Z)) :
  collidepoint RESHUFFLE_BTN pos = false →
  wf_board (Game.board g) → selected_on_board g →
  ∃ g', on_mouse_down pos g draws = Some (g', draws)
        ∧ wf_board (Game.board g') ∧ selected_on_board g'
        ∧ (Game.board g' = Game.board g ∧ Game.turn g' = Game.turn g
           ∧ (Game.selected_piece g' = Game.selected_piece g
              ∨ ∃ piece,
                  Game.selected_piece g' = Some piece
                  ∧ Piece.color piece = Game.turn g
                  ∧ get_row_col_from_mouse pos
                    = (Piece.row piece, Piece.col piece))
           ∨ ∃ piece moves,
               Game.selected_piece g = Some piece
               ∧ get_valid_moves piece (Game.board g) (Game.mines g)
                 = Some moves
               ∧ get_row_col_from_mouse pos ∈ moves
               ∧ apply_move (Game.board g) piece (get_row_col_from_mouse pos)
                 = Some (Game.board g')
               ∧ Game.turn g' = other_turn (Game.turn g)
               ∧ Game.selected_piece g' = None).
Proof.
  intros Hpos Hwf Hsel.
  destruct (on_mouse_down_cell pos g draws Hpos Hwf Hsel)
    as (g' & Hclick & Hwf' & Hsel' & _ & Hcases).
  by exists g'.
Qed.

Lemma on_mouse_down_move_witness :
  ∃ g', on_mouse_down (250, 550) opening_game some_draws = Some (g', some_draws)
        ∧ wf_board (Game.board g').
Proof.
  assert (Hwf : wf_board create_board).
  { apply wf_board_check_sound. vm_compute. reflexivity. }
  destruct (on_mouse_down_move (250, 550) opening_game some_draws)
    as (g' & Hclick & Hwf' & _).
  - vm_compute. reflexivity.
  - exact Hwf.
  - intros piece Hpiece. discriminate Hpiece.
  - exists g'. split; [exact Hclick | exact Hwf'].
Defined.

Lemma handle_events_cons (ev : event) (events : list event) (g : Game.t)
    (running : bool) (draws : list (Z * Z)) :
  handle_events (ev :: events) g running draws
  = match ev with
    | QUIT => handle_events events g false draws
    | MOUSEBUTTONDOWN pos =>
        '(g', draws') ← on_mouse_down pos g draws;
        handle_events events g' running draws'
    | OTHER => handle_events events g running draws
    end.
Proof.
  unfold handle_events. simpl. destruct ev as [|pos|]; try done.
  by destruct (on_mouse_down pos g draws) as [[g' draws']|].
Qed.

(** X15.  The events of one iteration of the main loop, from a
    well-formed board with the selected piece, if any, on the board: when
    the loop over the events ends, the board is well-formed and the
    selected piece is on it, neither side has more pieces than before,
    and [running] is still true exactly when it was and no event was
    [QUIT].  When no event is a click on the reshuffle button, the loop
    raises nothing, uses no draw, and leaves the mines as they were. *)
Theorem handle_events_board (events : list event) (g : Game.t)
    (running : bool) (draws : list (Z * Z)) :
  wf_board (Game.board g) → selected_on_board g →
  (∀ g' running' rest,
     handle_events events g running draws = Some (g', running', rest) →
     wf_board (Game.board g') ∧ selected_on_board g'
     ∧ (∀ k, count_pieces k (Game.board g') ≤ count_pieces k (Game.board g))
     ∧ (running' = true ↔ running = true ∧ QUIT ∉ events))
  ∧ ((∀ ev, ev ∈ events → hits_button ev = false) →
     ∃ g' running',
       handle_events events g running draws = Some (g', running', draws)
       ∧ Game.mines g' = Game.mines g).
Proof.
  revert g running draws.
  induction events as [|ev events IH]; intros g running draws Hwf Hsel.
  { split.
    - intros g' running' rest [= <- <- <-]. do 2 (split; [done|]).
      split; [intros; lia|]. split; [|by intros [? _]].
      intros ->. split; [done|]. apply not_elem_of_nil.
    - intros _. by exists g, running. }
  rewrite handle_events_cons. split.
  - intros g' running' rest Hrun.
    assert (Hstep : ∀ g1 r1 d1,
              wf_board (Game.board g1) → selected_on_board g1 →
              (∀ k, count_pieces k (Game.board g1)
                    ≤ count_pieces k (Game.board g)) →
              handle_events events g1 r1 d1 = Some (g', running', rest) →
              wf_board (Game.board g') ∧ selected_on_board g'
              ∧ (∀ k, count_pieces k (Game.board g')
                      ≤ count_pieces k (Game.board g))
              ∧ (running' = true ↔ r1 = true ∧ QUIT ∉ events)).
    { intros g1 r1 d1 Hwf1 Hsel1 Hcount1 Hrun1.
      destruct (IH g1 r1 d1 Hwf1 Hsel1) as [IH1 _].
      destruct (IH1 g' running' rest Hrun1) as (? & ? & Hcount & ?).
      do 2 (split; [done|]). split; [|done].
      intros k. specialize (Hcount k). specialize (Hcount1 k). lia. }
    destruct ev as [|pos|].
    + destruct (Hstep g false draws Hwf Hsel ltac:(intros; lia) Hrun)
        as (? & ? & ? & Hquit).
      do 3 (split; [done|]). rewrite Hquit. split; [by intros [? _]|].
      intros [_ Hno]. destruct Hno. left.
    + destruct (on_mouse_down pos g draws) as [[g1 d1]|] eqn:Hclick;
        simpl in Hrun; [|done].
      assert (wf_board (Game.board g1) ∧ selected_on_board g1
              ∧ ∀ k, count_pieces k (Game.board g1)
                     ≤ count_pieces k (Game.board g)) as (Hwf1 & Hsel1 & Hc1).
      { destruct (collidepoint RESHUFFLE_BTN pos) eqn:Hpos.
        - destruct (on_mouse_down_button pos g g1 draws d1 Hpos Hclick)
            as (Hb & _ & Hs & _).
          rewrite Hb. split; [done|]. split; [|intros; lia].
          intros piece Hpiece. rewrite Hb. apply Hsel. by rewrite <-Hs.
        - destruct (on_mouse_down_cell pos g draws Hpos Hwf Hsel)
            as (g2 & Hclick2 & ? & ? & ? & _).
          assert (g2 = g1) as -> by congruence. done. }
      destruct (Hstep g1 running d1 Hwf1 Hsel1 Hc1 Hrun) as (? & ? & ? & Hquit).
      do 3 (split; [done|]). rewrite Hquit. split.
      * intros [? Hno]. split; [done|]. intros Hin. apply Hno.
        by apply elem_of_cons in Hin as [|].
      * intros [? Hno]. split; [done|]. intros Hin. apply Hno. by right.
    + destruct (Hstep g running draws Hwf Hsel ltac:(intros; lia) Hrun)
        as (? & ? & ? & Hquit).
      do 3 (split; [done|]). rewrite Hquit. split.
      * intros [? Hno]. split; [done|]. intros Hin. apply Hno.
        by apply elem_of_cons in Hin as [|].
      * intros [? Hno]. split; [done|]. intros Hin. apply Hno. by right.
  - intros Hoff.
    assert (Hoff' : ∀ ev', ev' ∈ events → hits_button ev' = false).
    { intros ev' Hin. apply Hoff. by right. }
    destruct ev as [|pos|].
    + destruct (IH g false draws Hwf Hsel) as [_ IH2]. by apply IH2.
    + pose proof (Hoff (MOUSEBUTTONDOWN pos) ltac:(left)) as Hpos.
      simpl in Hpos.
      destruct (on_mouse_down_cell pos g draws Hpos Hwf Hsel)
        as (g1 & Hclick & Hwf1 & Hsel1 & _).
      destruct (on_mouse_down_cell_keeps pos g g1 draws draws Hpos Hclick)
        as (Hm & _).
      rewrite Hclick. simpl.
      destruct (IH g1 running draws Hwf1 Hsel1) as [_ IH2].
      destruct (IH2 Hoff') as (g' & running' & Hrun & Hm').
      exists g', running'. split; [done|]. congruence.
    + destruct (IH g running draws Hwf Hsel) as [_ IH2]. by apply IH2.
Qed.

Lemma handle_events_board_witness :
  ∃ g' running',
    handle_events [MOUSEBUTTONDOWN (250, 550); OTHER; MOUSEBUTTONDOWN (250, 450)]
      opening_game true some_draws
    = Some (g', running', some_draws)
    ∧ Game.mines g' = some_mines.
Proof.
  assert (Hwf : wf_board create_board).
  { apply wf_board_check_sound. vm_compute. reflexivity. }
  assert (Hsel : selected_on_board opening_game).
  { intros piece Hpiece. discriminate Hpiece. }
  refine (proj2 (handle_events_board
                   [MOUSEBUTTONDOWN (250, 550); OTHER; MOUSEBUTTONDOWN (250, 450)]
                   opening_game true some_draws Hwf Hsel) _).
  intros ev Hin.
  apply elem_of_cons in Hin as [->|Hin]; [vm_compute; reflexivity|].
  apply elem_of_cons in Hin as [->|Hin]; [reflexivity|].
  apply elem_of_cons in Hin as [->|Hin]; [vm_compute; reflexivity|].
  by apply elem_of_nil in Hin.
Defined.

(** ** Play never leaves the well-formed boards *)

(** Positions of play are well-formed, with at most [COLS] pieces a side
    and not less than none. *)
Lemma reachable_inv (b : board) :
  reachable b → wf_board b ∧ ∀ k, 0 ≤ count_pieces k b ≤ COLS.
Proof.
  intros Hreach.
  assert (Hinv : wf_board b ∧ ∀ k, count_pieces k b ≤ COLS).
  { induction Hreach as [|b nb mines k piece moves mv _ [IHwf IHcount]
                           Hpiece Hmoves Hmv Hnb].
    - split; [apply wf_board_check_sound; vm_compute; reflexivity|].
      intros []; vm_compute; discriminate.
    - rewrite moves_of_shape in Hmoves by apply IHwf. injection Hmoves as <-.
      destruct (apply_move_wf k b mines piece mv IHwf Hpiece Hmv)
        as (nb' & Hnb' & Hwf' & _).
      assert (nb' = nb) as -> by congruence. split; [done|].
      destruct (count_pieces_after_move k b mines piece mv IHwf Hpiece Hmv)
        as (nb' & target & Hnb'' & _ & H1 & H2).
      assert (nb' = nb) as -> by congruence. intros k'.
      pose proof (IHcount RED). pose proof (IHcount BLUE).
      destruct k, k'; simpl in H1, H2; destruct target; lia. }
  destruct Hinv as [Hwf Hcount]. split; [done|]. intros k.
  split; [|done]. rewrite count_pieces_length. lia.
Qed.

(** X16.  Every position of play is well-formed and holds at most [COLS]
    pieces of each colour, so [evaluate] stays between [-COLS] and
    [COLS]; and on it neither [check_win_condition], nor [minimax] at any
    depth and window, nor [find_winning_move], nor [best_move] raises. *)
Theorem reachable_safe (b : board) :
  reachable b →
  wf_board b
  ∧ (∀ k, 0 ≤ count_pieces k b ≤ COLS)
  ∧ - COLS ≤ evaluate b ≤ COLS
  ∧ is_Some (check_win_condition b)
  ∧ (∀ d alpha beta maximizing_player mines,
       is_Some (minimax b d alpha beta maximizing_player mines))
  ∧ (∀ mines, is_Some (find_winning_move b mines))
  ∧ (∀ draw mines, is_Some (best_move draw b mines)).
Proof.
  intros Hreach.
  destruct (reachable_inv b Hreach) as [Hwf Hcount].
  split; [done|]. split; [done|]. split.
  { unfold evaluate. pose proof (Hcount RED). pose proof (Hcount BLUE). lia. }
  split; [apply check_win_condition_total, Hwf|]. split.
  { intros d alpha beta mx mines. by rewrite minimax_alphabeta. }
  split.
  { intros mines.
    by destruct (find_winning_move_answer b mines (proj1 Hwf)) as (r & -> & _). }
  intros draw mines.
  by destruct (best_move_answer draw b mines Hwf) as (r & -> & _).
Qed.

Lemma reachable_safe_witness :
  reachable create_board ∧ - COLS ≤ evaluate create_board ≤ COLS.
Proof.
  split; [exact reachable_opening|].
  exact (proj1 (proj2 (proj2 (reachable_safe create_board reachable_opening)))).
Defined.

(** ** The range of the search *)

Section Range.
Context {node : Type}.
Variable terminal : node → option score.
Variable static : node → score.
Variable kids : bool → node → list (list node).
Variable good : node → Prop.
Variable P : score → Prop.
Hypothesis P_smax : ∀ x y, P x → P y → P (smax x y).
Hypothesis P_smin : ∀ x y, P x → P y → P (smin x y).
Hypothesis P_NegInf : P NegInf.
Hypothesis P_PosInf : P PosInf.
Hypothesis good_terminal : ∀ n s, good n → terminal n = Some s → P s.
Hypothesis good_static : ∀ n, good n → P (static n).
Hypothesis good_kids :
  ∀ mx n grp c, good n → grp ∈ kids mx n → c ∈ grp → good c.

Lemma group_max_range (rec : node → score → score) (beta : score)
    (grp : list node) :
  (∀ c a, c ∈ grp → P (rec c a)) →
  ∀ st, P st.1 → P (group_max rec beta grp st).1.
Proof.
  induction grp as [|c grp IH]; intros Hrec st Hst; simpl; [done|].
  assert (P (smax st.1 (rec c st.2))) by (apply P_smax, Hrec; [done|left]).
  case_decide; [done|]. apply IH; [|done].
  intros c' a Hc'. apply Hrec. by right.
Qed.

Lemma group_min_range (rec : node → score → score) (alpha : score)
    (grp : list node) :
  (∀ c a, c ∈ grp → P (rec c a)) →
  ∀ st, P st.1 → P (group_min rec alpha grp st).1.
Proof.
  induction grp as [|c grp IH]; intros Hrec st Hst; simpl; [done|].
  assert (P (smin st.1 (rec c st.2))) by (apply P_smin, Hrec; [done|left]).
  case_decide; [done|]. apply IH; [|done].
  intros c' a Hc'. apply Hrec. by right.
Qed.

Lemma foldl_range {A} (f : score * score → A → score * score) (l : list A) :
  (∀ st x, x ∈ l → P st.1 → P (f st x).1) →
  ∀ st, P st.1 → P (foldl f st l).1.
Proof.
  induction l as [|x l IH]; intros Hf st Hst; simpl; [done|].
  apply IH; [|apply Hf; [left|done]].
  intros st' y Hy. apply Hf. by right.
Qed.

Lemma alphabeta_range (d : nat) :
  ∀ n alpha beta mx, good n →
    P (alphabeta terminal static kids d n alpha beta mx).
Proof.
  induction d as [|d IH]; intros n alpha beta mx Hn; simpl;
    destruct (terminal n) as [s|] eqn:Hs;
    try (by eapply good_terminal); try by apply good_static.
  destruct mx.
  - apply foldl_range; [|done]. intros st grp Hgrp Hst.
    apply group_max_range; [|done]. intros c a Hc. apply IH.
    by eapply good_kids.
  - apply foldl_range; [|done]. intros st grp Hgrp Hst.
    apply group_min_range; [|done]. intros c a Hc. apply IH.
    by eapply good_kids.
Qed.

End Range.

Lemma board_kids_reachable (mines : gset (Z * Z)) (mx : bool) (b : board)
    (grp : list board) (c : board) :
  wf_board b → reachable b → grp ∈ board_kids mines mx b → c ∈ grp →
  reachable c.
Proof.
  intros Hwf Hreach Hgrp Hc. unfold board_kids in Hgrp.
  apply list_elem_of_fmap in Hgrp as (piece & -> & Hpiece).
  apply list_elem_of_fmap in Hc as (mv & -> & Hmv).
  destruct (apply_move_wf _ b mines piece mv Hwf Hpiece Hmv)
    as (nb & Hnb & _ & ->).
  eapply reachable_move; [done|done|by apply moves_of_shape, Hwf|done..].
Qed.

(** X17.  The values of the search: on every position of play, at every
    depth, for every window and for both sides, [minimax] returns
    [-inf], [+inf], or a difference of material between [-COLS] and
    [COLS]. *)
Theorem minimax_range (b : board) (d : nat) (alpha beta : score)
    (maximizing_player : bool) (mines : gset (Z * Z)) :
  reachable b →
  ∃ v, minimax b d alpha beta maximizing_player mines = Some v
       ∧ (v = NegInf ∨ v = PosInf ∨ ∃ z, v = Fin z ∧ - COLS ≤ z ≤ COLS).
Proof.
  intros Hreach.
  rewrite minimax_alphabeta by apply reachable_inv, Hreach.
  eexists. split; [done|].
  apply (alphabeta_range board_terminal board_static (board_kids mines)
           reachable); try done.
  - intros x y Hx Hy. unfold smax. by case_decide.
  - intros x y Hx Hy. unfold smin. by case_decide.
  - by left.
  - right. by left.
  - intros n s _. unfold board_terminal.
    destruct (check_win_condition n) as [[w|]|] eqn:Hw; simpl; [|done..].
    intros [= <-].
    destruct (check_win_condition_cases n _ Hw) as [|[[= ->]|[= ->]]];
      [done|by left|right; by left].
  - intros n Hn. right. right. exists (evaluate n). split; [done|].
    destruct (reachable_inv n Hn) as [_ Hcount].
    pose proof (Hcount RED). pose proof (Hcount BLUE). unfold evaluate. lia.
  - intros mx n grp c Hn. apply board_kids_reachable; [|done].
    apply reachable_inv, Hn.
Qed.

Lemma minimax_range_witness :
  reachable create_board
  ∧ ∃ v, minimax create_board 3 NegInf PosInf true some_mines = Some v
         ∧ (v = NegInf ∨ v = PosInf ∨ ∃ z, v = Fin z ∧ - COLS ≤ z ≤ COLS).
Proof.
  split; [exact reachable_opening|].
  exact (minimax_range create_board 3 NegInf PosInf true some_mines
           reachable_opening).
Defined.

(** ** The button and the board *)

(** X18.  The reshuffle button lies inside the window and under the
    board: a point of the button is mapped by [get_row_col_from_mouse] to
    row [ROWS], which is no row of the board, so the button hides no
    cell. *)
Theorem button_below_board (pos : Z * Z) :
  collidepoint RESHUFFLE_BTN pos = true →
  (0 ≤ pos.1 < WIDTH ∧ 0 ≤ pos.2 < HEIGHT)
  ∧ (get_row_col_from_mouse pos).1 = ROWS.
Proof.
  destruct pos as [x y]. unfold collidepoint. intros Hin.
  apply bool_decide_eq_true in Hin.
  cbn [RESHUFFLE_BTN rect_x rect_y rect_w rect_h fst snd] in Hin.
  change (WIDTH `div` 2 - 50) with 200 in Hin.
  change (HEIGHT - 50) with 600 in Hin.
  change (get_row_col_from_mouse (x, y)).1 with (y `div` 100).
  change WIDTH with 500. change HEIGHT with 650. change ROWS with 6.
  simpl. split; [lia|].
  symmetry. apply (Z.div_unique_pos y 100 6 (y - 600)); lia.
Qed.

Lemma button_below_board_witness :
  collidepoint RESHUFFLE_BTN (250, 620) = true
  ∧ (get_row_col_from_mouse (250, 620)).1 = ROWS.
Proof.
  split; [reflexivity|].
  exact (proj2 (button_below_board (250, 620) eq_refl)).
Defined.

(** ** Mines and pieces *)

Lemma mines_placed_clear (b : board) (mines : gset (Z * Z)) :
  mines_placed b mines → mines_clear b mines.
Proof.
  intros Hplaced r c Hin. destruct (Hplaced r c Hin) as ([Hr Hc] & Hget & _).
  split; [unfold ROWS, COLS in *; lia|done].
Qed.

Lemma apply_move_mines_clear (k : Color) (b nb : board) (mines : gset (Z * Z))
    (piece : Piece.t) (mv : move) :
  wf_board b → piece ∈ pieces_of k b → mv ∈ moves_of piece b mines →
  apply_move b piece mv = Some nb →
  mines_clear b mines → mines_clear nb mines.
Proof.
  intros Hwf Hpiece Hmv Hnb Hclear r c Hin.
  destruct (Hclear r c Hin) as ([Hr Hc] & Hget). split; [done|].
  rewrite (apply_move_put k b mines) in Hnb by done. injection Hnb as <-.
  pose proof (proj1 Hwf) as Hb.
  rewrite !board_get_put by (done || by apply board_shape_put).
  unfold moves_of in Hmv. rewrite get_valid_moves_shape in Hmv by done.
  simpl in Hmv. apply list_elem_of_filter in Hmv as [(Hrange & Hmine & _) _].
  rewrite decide_False.
  - by case_decide.
  - intros [H1 H2]. apply Hmine. destruct mv as [r' c']. simpl in *.
    replace r' with r by lia. by replace c' with c by lia.
Qed.

(** One click keeps the board well-formed, the selected piece on it, and
    the mines on empty cells. *)
Lemma on_mouse_down_clear (pos : Z * Z) (g g' : Game.t)
    (draws rest : list (Z * Z)) :
  wf_board (Game.board g) → selected_on_board g →
  mines_clear (Game.board g) (Game.mines g) →
  on_mouse_down pos g draws = Some (g', rest) →
  wf_board (Game.board g') ∧ selected_on_board g'
  ∧ mines_clear (Game.board g') (Game.mines g').
Proof.
  intros Hwf Hsel Hclear Hclick.
  destruct (collidepoint RESHUFFLE_BTN pos) eqn:Hpos.
  - destruct (on_mouse_down_button pos g g' draws rest Hpos Hclick)
      as (Hb & _ & Hs & Hcases).
    rewrite Hb. split; [done|]. split.
    { intros piece Hpiece. rewrite Hb. apply Hsel. by rewrite <-Hs. }
    destruct Hcases as [[-> _]|[(_ & _ & Hplaced) _]]; [done|].
    by apply mines_placed_clear.
  - destruct (on_mouse_down_cell pos g draws Hpos Hwf Hsel)
      as (g2 & Hclick2 & Hwf2 & Hsel2 & _ & Hcases).
    assert (g2 = g') as -> by congruence.
    destruct (on_mouse_down_cell_keeps pos g g' draws rest Hpos Hclick)
      as (Hm & _).
    split; [done|]. split; [done|]. rewrite Hm.
    destruct Hcases as [(-> & _)|(piece & moves & Hs & Hmoves & Hmv & Hnb & _)];
      [done|].
    rewrite moves_of_shape in Hmoves by apply Hwf. injection Hmoves as <-.
    eapply apply_move_mines_clear; [exact Hwf|by apply Hsel|done..].
Qed.

(** What the machine's block leaves: the board it found, or the board of
    a candidate's move. *)
Lemma ai_turn_moved (draw : nat) (b nb : board) (mines : gset (Z * Z))
    (turn t : Color) (blue_reshuffled f : bool) :
  wf_board b →
  ai_turn draw b mines turn blue_reshuffled = Some (nb, t, f) →
  nb = b ∨ ∃ c, c ∈ candidates b mines ∧ apply_move b c.1 c.2 = Some nb.
Proof.
  intros Hwf. unfold ai_turn.
  case_decide; [|intros [= <- <- <-]; by left].
  destruct blue_reshuffled; [intros [= <- <- <-]; by left|].
  destruct (find_winning_move_answer b mines (proj1 Hwf))
    as (r & -> & Hsome & _). simpl.
  destruct r as [[piece mv]|].
  { destruct (Hsome _ eq_refl) as [Hc _].
    destruct (commit_candidate b mines _ Hwf Hc) as (nb' & Hnb & Happ & _).
    simpl in Hnb. rewrite Hnb. simpl. intros [= <- <- <-]. right. eauto. }
  destruct (best_move_answer draw b mines Hwf) as (r & -> & _ & Hbest).
  simpl. destruct r as [[piece mv]|]; [|intros [= <- <- <-]; by left].
  pose proof (Hbest _ eq_refl) as Hc.
  destruct (commit_candidate b mines _ Hwf Hc) as (nb' & Hnb & Happ & _).
  simpl in Hnb. rewrite Hnb. simpl. intros [= <- <- <-]. right. eauto.
Qed.

(** X19.  No piece ever stands on a mine.  From a well-formed board with
    the selected piece, if any, on it and every mine on an empty cell,
    the events of an iteration of the main loop (clicks that select,
    move or reshuffle) leave every mine on an empty cell of the board
    they leave; and so does the machine's block that follows. *)
Theorem mines_stay_clear (b : board) (mines : gset (Z * Z)) :
  wf_board b → mines_clear b mines →
  (∀ events g running draws g' running' rest,
     Game.board g = b → Game.mines g = mines → selected_on_board g →
     handle_events events g running draws = Some (g', running', rest) →
     mines_clear (Game.board g') (Game.mines g'))
  ∧ (∀ draw turn blue_reshuffled nb t f,
       ai_turn draw b mines turn blue_reshuffled = Some (nb, t, f) →
       mines_clear nb mines).
Proof.
  intros Hwf Hclear. split.
  - intros events g running draws g' running' rest <- <- Hsel Hrun.
    set (I := λ st : Game.t * bool * list (Z * Z),
      wf_board (Game.board st.1.1) ∧ selected_on_board st.1.1
      ∧ mines_clear (Game.board st.1.1) (Game.mines st.1.1)).
    assert (HI : I (g', running', rest)); [|apply HI].
    unfold handle_events in Hrun.
    refine (for_each_inv I events _ _ (g, running, draws) _ _ Hrun);
      [|by split].
    intros ev [[g1 r1] d1] [[g2 r2] d2] _ (H1 & H2 & H3). simpl in H1, H2, H3.
    destruct ev as [|pos|]; [by intros [= <- <- <-]| |by intros [= <- <- <-]].
    destruct (on_mouse_down pos g1 d1) as [[g3 d3]|] eqn:Hclick; simpl; [|done].
    intros [= <- <- <-]. unfold I. simpl.
    by eapply on_mouse_down_clear.
  - intros draw turn flag nb t f Hai.
    destruct (ai_turn_moved draw b nb mines turn t flag f Hwf Hai)
      as [->|(c & Hc & Hnb)]; [done|].
    apply elem_of_candidates in Hc as [Hpiece Hmv].
    by eapply (apply_move_mines_clear BLUE).
Qed.

Lemma mines_stay_clear_witness :
  wf_board create_board ∧ mines_clear create_board some_mines
  ∧ ∀ nb t f,
      ai_turn 7 create_board some_mines BLUE false = Some (nb, t, f) →
      mines_clear nb some_mines.
Proof.
  assert (Hwf : wf_board create_board).
  { apply wf_board_check_sound. vm_compute. reflexivity. }
  assert (Hclear : mines_clear create_board some_mines).
  { intros r c Hin. unfold some_mines in Hin.
    rewrite !elem_of_union, !elem_of_singleton in Hin.
    destruct Hin as [[[Hin|Hin]|Hin]|Hin]; injection Hin as -> ->;
      (split; [unfold ROWS, COLS; lia|reflexivity]). }
  split; [exact Hwf|]. split; [exact Hclear|].
  exact (proj2 (mines_stay_clear create_board some_mines Hwf Hclear) 7%nat BLUE
           false).
Defined.

(** X20.  The shortcut agrees with the search: on a well-formed board
    that [check_win_condition] does not decide, the move that
    [find_winning_move] returns leads to a board on which
    [check_win_condition] answers "You lost!" and which [minimax] values
    [+inf], so the move is among the candidates of maximal score that
    [best_move] chooses from. *)
Theorem find_winning_move_maximal (b : board) (mines : gset (Z * Z))
    (pm : Piece.t * move) :
  wf_board b → check_win_condition b = Some None →
  find_winning_move b mines = Some (Some pm) →
  ∃ nb, apply_move b pm.1 pm.2 = Some nb
        ∧ check_win_condition nb = Some (Some You_lost)
        ∧ minimax nb 3 NegInf PosInf false mines = Some PosInf
        ∧ pm ∈ maximal_candidates (candidate_score b mines)
                 (candidates b mines).
Proof.
  intros Hwf Hopen Hfind.
  destruct (find_winning_move_answer b mines (proj1 Hwf))
    as (r & Hr & Hsome & _).
  assert (r = Some pm) as -> by congruence.
  destruct (Hsome pm eq_refl) as [Hc Hlast].
  destruct (candidate_lands_last b mines pm Hwf Hopen Hc Hlast)
    as (nb & _ & Hnb & Hwfnb & Hlost).
  assert (Hinf : minimax nb 3 NegInf PosInf false mines = Some PosInf).
  { rewrite minimax_alphabeta by done. f_equal.
    cbn [alphabeta]. by rewrite (board_terminal_win nb _ Hlost). }
  exists nb. do 3 (split; [done|]).
  apply elem_of_maximal_candidates. split; [done|]. intros c' _.
  destruct (candidate_scores b mines pm Hwf Hc) as (nb' & Hnb' & _ & Hv & _).
  assert (nb' = nb) as -> by congruence.
  assert (candidate_score b mines pm = PosInf) as -> by congruence.
  by destruct (candidate_score b mines c').
Qed.

Lemma find_winning_move_maximal_witness :
  ∃ nb, apply_move one_step_left (Piece.make 4 2 BLUE) (5, 2) = Some nb
        ∧ check_win_condition nb = Some (Some You_lost).
Proof.
  assert (Hwf : wf_board one_step_left).
  { apply wf_board_check_sound. vm_compute. reflexivity. }
  destruct (find_winning_move_maximal one_step_left ∅
              (Piece.make 4 2 BLUE, (5, 2)) Hwf)
    as (nb & Hnb & Hlost & _).
  - vm_compute. reflexivity.
  - vm_compute. reflexivity.
  - exists nb. split; [exact Hnb | exact Hlost].
Defined.
